(** * Hotspot tracker: a shallow embedding of [main.go] and its properties

    The tracker keeps, per shard, a bounded min-heap of [*KeyFreq] records
    and a [map[string]*KeyFreq] over the same records.  The records are
    shared by pointer between the map, the heap, every aggregate shard built
    by [aggregateShards] and every heap copy made by [GetHotspots]; the model
    therefore keeps all records in one store addressed by pointers and passes
    the store through every operation.

    Go's [int] is taken to be 64 bits wide (the benchmarks of the repository
    run on amd64). *)

From stdpp Require Import gmap strings list fin_maps.
From Stdlib Require Import ZArith Permutation Sorted.

Local Open Scope Z_scope.

(** ** Outcomes of a call *)

(** A call either returns, panics (index out of range, division by zero,
    close of a closed channel, ...), or never returns because the calling
    goroutine waits on a lock that nobody will release.  [OutOfFuel] marks
    the exhaustion of the iteration bound of a modelled loop; the bounds are
    chosen so that it is never produced (every theorem below exhibits an
    [Ok], [Panic] or [Blocked] outcome). *)
Inductive result (A : Type) : Type :=
| Ok (a : A)
| Panic
| Blocked
| OutOfFuel.

Arguments Ok {A} a.
Arguments Panic {A}.
Arguments Blocked {A}.
Arguments OutOfFuel {A}.

Definition bind {A B : Type} (m : result A) (f : A → result B) : result B :=
  match m with
  | Ok a => f a
  | Panic => Panic
  | Blocked => Blocked
  | OutOfFuel => OutOfFuel
  end.

Notation "x <- m ;; k" := (bind m (λ x, k))
  (at level 100, m at next level, right associativity,
   format "'[v' x  <-  m  ;; '/' k ']'").
(** ** Machine integers *)

Definition int_min : Z := - 2 ^ 63.
Definition int_max : Z := 2 ^ 63 - 1.

(** Two's complement wrap-around of a 64-bit [int]. *)
Definition wrap_int (z : Z) : Z := (z + 2 ^ 63) mod 2 ^ 64 - 2 ^ 63.

(** ** Records and the store *)

(** [type KeyFreq struct { Key string; Frequency int; Index int }] *)
Record KeyFreq : Type := mkKeyFreq {
  Key : string;
  Frequency : Z;
  Index : Z
}.

#[global] Instance KeyFreq_inhabited : Inhabited KeyFreq :=
  populate (mkKeyFreq "" 0 0).

#[global] Instance KeyFreq_eq_dec : EqDecision KeyFreq.
Proof. solve_decision. Defined.

(** A [*KeyFreq] is an address in the store.  Pointers in the program are
    only ever produced by [&KeyFreq{...}], so they always refer to an
    allocated record; [load] is total and reads the zero value elsewhere. *)
Abbreviation ptr := nat.
Abbreviation store := (list KeyFreq).

Definition load (st : store) (p : ptr) : KeyFreq := st !!! p.

Definition with_Index (i : Z) (r : KeyFreq) : KeyFreq :=
  mkKeyFreq (Key r) (Frequency r) i.
Definition with_Frequency (f : Z) (r : KeyFreq) : KeyFreq :=
  mkKeyFreq (Key r) f (Index r).

(** [p.Index = i] and [p.Frequency = f] *)
Definition set_Index (st : store) (p : ptr) (i : Z) : store :=
  alter (with_Index i) p st.
Definition set_Frequency (st : store) (p : ptr) (f : Z) : store :=
  alter (with_Frequency f) p st.

(** [&KeyFreq{...}]: the new record is placed at the next free address. *)
Definition alloc (st : store) (r : KeyFreq) : store * ptr :=
  (st ++ [r], length st).

(** ** [type MinHeap []*KeyFreq] *)

Abbreviation MinHeap := (list ptr).

Definition len {A} (l : list A) : Z := Z.of_nat (length l).

(** [h[i]], which panics outside [0 <= i < len(h)]. *)
Definition index {A} (h : list A) (i : Z) : result A :=
  if i <? 0 then Panic
  else match h !! Z.to_nat i with
       | Some p => Ok p
       | None => Panic
       end.

Definition MinHeap_Len (h : MinHeap) : Z := len h.

Definition MinHeap_Less (st : store) (h : MinHeap) (i j : Z) : result bool :=
  if (len h <=? i) || (len h <=? j) then Ok false
  else
    a <- index h i ;;
    b <- index h j ;;
    Ok (Frequency (load st a) <? Frequency (load st b)).

Definition MinHeap_Swap (st : store) (h : MinHeap) (i j : Z)
  : result (store * MinHeap) :=
  if (len h <=? i) || (len h <=? j) then Ok (st, h)
  else
    a <- index h i ;;
    b <- index h j ;;
    let h' := <[Z.to_nat j := a]> (<[Z.to_nat i := b]> h) in
    x <- index h' i ;;
    let st1 := set_Index st x i in
    y <- index h' j ;;
    let st2 := set_Index st1 y j in
    Ok (st2, h').

Definition MinHeap_Push (st : store) (h : MinHeap) (item : ptr)
  : result (store * MinHeap) :=
  let n := len h in
  let st1 := set_Index st item n in
  Ok (st1, h ++ [item]).

Definition MinHeap_Pop (st : store) (h : MinHeap)
  : result (store * MinHeap * ptr) :=
  let old := h in
  let n := len old in
  item <- index old (n - 1) ;;
  let st1 := set_Index st item (-1) in
  Ok (st1, take (Z.to_nat (n - 1)) old, item).

(** ** Go's [container/heap]

    The package is generic over [heap.Interface]; its functions are
    transcribed from the standard library.  [up] and [down] are loops whose
    index strictly decreases, respectively increases below [n], so the
    iteration bounds [j + 1] and [n + 1] are never reached. *)
(** [heap.Interface] (with [sort.Interface] inlined); the element type
    [any] is instantiated with [*KeyFreq]. *)
Class Interface (H : Type) : Type := {
  Len : H → Z;
  Less : H → Z → Z → result bool;
  Swap : H → Z → Z → result H;
  Push : H → ptr → result H;
  Pop : H → result (H * ptr)
}.

Module heap.

Section generic.
Context {H : Type} `{Interface H}.

Fixpoint up_loop (fuel : nat) (h : H) (j : Z) : result H :=
  match fuel with
  | O => OutOfFuel
  | S fuel' =>
      let i := Z.quot (j - 1) 2 in (* parent *)
      if i =? j then Ok h
      else
        lt <- Less h j i ;;
        if negb lt then Ok h
        else
          h' <- Swap h i j ;;
          up_loop fuel' h' i
  end.

Definition up (h : H) (j : Z) : result H :=
  up_loop (S (Z.to_nat j)) h j.

Fixpoint down_loop (fuel : nat) (h : H) (i0 i n : Z) : result (H * bool) :=
  match fuel with
  | O => OutOfFuel
  | S fuel' =>
      let j1 := 2 * i + 1 in
      if (n <=? j1) || (j1 <? 0) then Ok (h, i0 <? i)
      else
        let j2 := j1 + 1 in
        lt21 <- (if j2 <? n then Less h j2 j1 else Ok false) ;;
        let j := if lt21 then j2 else j1 in
        lt <- Less h j i ;;
        if negb lt then Ok (h, i0 <? i)
        else
          h' <- Swap h i j ;;
          down_loop fuel' h' i0 j n
  end.

Definition down (h : H) (i0 n : Z) : result (H * bool) :=
  down_loop (S (Z.to_nat n)) h i0 i0 n.

(** [for i := n/2 - 1; i >= 0; i-- { down(h, i, n) }], with [k = i + 1]. *)
Fixpoint Init_loop (k : nat) (h : H) (n : Z) : result H :=
  match k with
  | O => Ok h
  | S k' =>
      r <- down h (Z.of_nat k') n ;;
      Init_loop k' r.1 n
  end.

Definition Init (h : H) : result H :=
  let n := Len h in
  Init_loop (Z.to_nat (Z.quot n 2)) h n.

Definition Push (h : H) (x : ptr) : result H :=
  h1 <- Push h x ;;
  up h1 (Len h1 - 1).

Definition Pop (h : H) : result (H * ptr) :=
  let n := Len h - 1 in
  h1 <- Swap h 0 n ;;
  r <- down h1 0 n ;;
  Pop r.1.

Definition Fix (h : H) (i : Z) : result H :=
  r <- down h i (Len h) ;;
  if negb r.2 then up r.1 i else Ok r.1.

End generic.

End heap.

#[global] Instance MinHeap_Interface : Interface (store * MinHeap) := {|
  Len h := MinHeap_Len h.2;
  Less h i j := MinHeap_Less h.1 h.2 i j;
  Swap h i j := MinHeap_Swap h.1 h.2 i j;
  Push h x := MinHeap_Push h.1 h.2 x;
  Pop h := MinHeap_Pop h.1 h.2
|}.

(** ** [sync.RWMutex]

    Only the part of the lock that a single goroutine can observe is
    modelled: how many read locks are held and whether the write lock is
    held.  A goroutine that requests a lock which is not available waits;
    the calls below are made by one goroutine with no other goroutine
    holding the lock, so a wait never ends and the outcome is [Blocked]. *)
Record RWMutex : Type := mkRWMutex {
  readers : nat;
  writer : bool
}.

#[global] Instance RWMutex_eq_dec : EqDecision RWMutex.
Proof. solve_decision. Defined.

Definition unlocked : RWMutex := mkRWMutex 0 false.

Definition RLock (m : RWMutex) : result RWMutex :=
  if writer m then Blocked else Ok (mkRWMutex (S (readers m)) false).

Definition RUnlock (m : RWMutex) : result RWMutex :=
  match readers m with
  | O => Panic
  | S r => Ok (mkRWMutex r (writer m))
  end.

Definition Lock (m : RWMutex) : result RWMutex :=
  if writer m then Blocked
  else match readers m with
       | O => Ok (mkRWMutex 0 true)
       | S _ => Blocked
       end.

Definition Unlock (m : RWMutex) : result RWMutex :=
  if writer m then Ok (mkRWMutex (readers m) false) else Panic.

(** ** Shards *)

(** [type shard struct { topN int; minHeap MinHeap;
                         keyFreqs map[string]*KeyFreq; mu sync.RWMutex }] *)
Record shard : Type := mkShard {
  topN : Z;
  minHeap : MinHeap;
  keyFreqs : gmap string ptr;
  mu : RWMutex
}.

Definition set_mu (m : RWMutex) (s : shard) : shard :=
  mkShard (topN s) (minHeap s) (keyFreqs s) m.

(** [heap.Init] on the empty heap does nothing. *)
Definition NewShard (n : Z) : shard := mkShard n [] ∅ unlocked.

Definition processKeyFreq (st : store) (tShard : shard) (kf : ptr)
  : result (store * shard) :=
  if len (minHeap tShard) <? topN tShard then
    h1 <- heap.Push (st, minHeap tShard) kf ;;
    Ok (h1.1, mkShard (topN tShard) h1.2
                (<[Key (load h1.1 kf) := kf]> (keyFreqs tShard)) (mu tShard))
  else
    root <- index (minHeap tShard) 0 ;;
    if Frequency (load st root) <=? Frequency (load st kf) then
      r <- heap.Pop (st, minHeap tShard) ;;
      let minKey := r.2 in
      let kfs1 := delete (Key (load r.1.1 minKey)) (keyFreqs tShard) in
      h2 <- heap.Push r.1 kf ;;
      Ok (h2.1, mkShard (topN tShard) h2.2
                  (<[Key (load h2.1 kf) := kf]> kfs1) (mu tShard))
    else Ok (st, tShard).

(** [func (s *shard) RecordRequest(key string)] *)
Definition shard_RecordRequest (st : store) (s : shard) (key : string)
  : result (store * shard) :=
  m1 <- Lock (mu s) ;;
  let s := set_mu m1 s in
  r <- match keyFreqs s !! key with
       | Some kf =>
           let st1 := set_Frequency st kf (wrap_int (Frequency (load st kf) + 1)) in
           h1 <- heap.Fix (st1, minHeap s) (Index (load st1 kf)) ;;
           Ok (h1.1, mkShard (topN s) h1.2 (keyFreqs s) (mu s))
       | None =>
           let a := alloc st (mkKeyFreq key 1 0) in
           processKeyFreq a.1 s a.2
       end ;;
  m2 <- Unlock (mu r.2) ;;
  Ok (r.1, set_mu m2 r.2).

(** The loop of [GetHotspots]: [k] iterations remain, the next one writes
    [hotspots[i]]. *)
Fixpoint GetHotspots_loop (k : nat) (i : nat) (h : store * MinHeap)
    (hotspots : list string) : result (store * list string) :=
  match k with
  | O => Ok (h.1, hotspots)
  | S k' =>
      r <- heap.Pop h ;;
      let kf := r.2 in
      GetHotspots_loop k' (S i) r.1 (<[i := Key (load r.1.1 kf)]> hotspots)
  end.

(** [func (s *shard) GetHotspots() []string]. The copy of the heap is a copy
    of the slice of pointers; the records are not copied. *)
Definition shard_GetHotspots (st : store) (s : shard)
  : result (store * list string) :=
  let hotspots := replicate (length (minHeap s)) "" in
  let minHeapCopy := [] ++ minHeap s in
  h1 <- heap.Init (st, minHeapCopy) ;;
  GetHotspots_loop (length h1.2) 0 h1 hotspots.

(** [func (s *shard) IsHotspot(key string) bool] *)
Definition shard_IsHotspot (s : shard) (key : string) : result (shard * bool) :=
  m1 <- Lock (mu s) ;;
  let s := set_mu m1 s in
  let exists_ := bool_decide (is_Some (keyFreqs s !! key)) in
  m2 <- Unlock (mu s) ;;
  Ok (set_mu m2 s, exists_).

(** ** The tracker *)

(** A [chan struct{}] on which nothing is ever sent. *)
Inductive chan : Type := chan_nil | chan_open | chan_closed.

#[global] Instance chan_eq_dec : EqDecision chan.
Proof. solve_decision. Defined.

(** [close(c)] *)
Definition close (c : chan) : result chan :=
  match c with
  | chan_open => Ok chan_closed
  | chan_nil | chan_closed => Panic
  end.

(** [type HotspotTracker struct]; [cache] is a possibly nil [*shard]. *)
Record HotspotTracker : Type := mkHotspotTracker {
  ht_shards : list shard;
  ht_numShards : Z;
  ht_topN : Z;
  ht_cache : option shard;
  ht_mu : RWMutex;
  ht_update : bool;
  ht_stop : chan;
  ht_withCache : bool
}.

Definition set_shards (l : list shard) (ht : HotspotTracker) : HotspotTracker :=
  mkHotspotTracker l (ht_numShards ht) (ht_topN ht) (ht_cache ht) (ht_mu ht)
    (ht_update ht) (ht_stop ht) (ht_withCache ht).
Definition set_ht_mu (m : RWMutex) (ht : HotspotTracker) : HotspotTracker :=
  mkHotspotTracker (ht_shards ht) (ht_numShards ht) (ht_topN ht) (ht_cache ht) m
    (ht_update ht) (ht_stop ht) (ht_withCache ht).
Definition set_cache (c : option shard) (ht : HotspotTracker) : HotspotTracker :=
  mkHotspotTracker (ht_shards ht) (ht_numShards ht) (ht_topN ht) c (ht_mu ht)
    (ht_update ht) (ht_stop ht) (ht_withCache ht).
Definition set_update (b : bool) (ht : HotspotTracker) : HotspotTracker :=
  mkHotspotTracker (ht_shards ht) (ht_numShards ht) (ht_topN ht) (ht_cache ht)
    (ht_mu ht) b (ht_stop ht) (ht_withCache ht).

(** [func NewHotspotTracker(topN, numShards int) *HotspotTracker].
    [make([]*shard, numShards)] panics for a negative length; nothing else
    is checked. *)
Definition NewHotspotTracker (topN numShards : Z) : result HotspotTracker :=
  if numShards <? 0 then Panic
  else
    let shards := replicate (Z.to_nat numShards) (NewShard topN) in
    Ok (mkHotspotTracker shards numShards topN None unlocked false chan_nil false).

(** [func (ht *HotspotTracker) WithCache(interval time.Duration)].  The
    ticker goroutine it starts is the source of the [tick] steps below. *)
Definition WithCache (ht : HotspotTracker) : HotspotTracker :=
  mkHotspotTracker (ht_shards ht) (ht_numShards ht) (ht_topN ht)
    (Some (NewShard (ht_topN ht))) (ht_mu ht) true chan_open true.

(** One firing of the ticker: [case <-ticker.C: ht.update = true].  The
    goroutine runs from [WithCache] until [ht.stop] is closed. *)
Definition tick (ht : HotspotTracker) : HotspotTracker := set_update true ht.

(** [func (ht *HotspotTracker) Close()] *)
Definition Close (ht : HotspotTracker) : result HotspotTracker :=
  if ht_withCache ht then
    c <- close (ht_stop ht) ;;
    Ok (mkHotspotTracker (ht_shards ht) (ht_numShards ht) (ht_topN ht)
          (ht_cache ht) (ht_mu ht) (ht_update ht) c (ht_withCache ht))
  else Ok ht.

(** 32-bit FNV-1a of the bytes of the key. *)
Definition fnv32a (key : string) : Z :=
  fold_left
    (λ hash c, (Z.lxor hash (Z.of_N (Ascii.N_of_ascii c)) * 16777619) mod 2 ^ 32)
    (String.list_ascii_of_string key) 2166136261.

(** [int(hashValue) % ht.numShards] *)
Definition shardIndex (ht : HotspotTracker) (key : string) : result Z :=
  let hashValue := fnv32a key in
  if ht_numShards ht =? 0 then Panic
  else Ok (Z.rem hashValue (ht_numShards ht)).

(** [func (ht *HotspotTracker) RecordRequest(key string)] *)
Definition RecordRequest (st : store) (ht : HotspotTracker) (key : string)
  : result (store * HotspotTracker) :=
  i <- shardIndex ht key ;;
  s <- index (ht_shards ht) i ;;
  r <- shard_RecordRequest st s key ;;
  Ok (r.1, set_shards (<[Z.to_nat i := r.2]> (ht_shards ht)) ht).

(** [for _, kf := range shard.minHeap { processKeyFreq(tShard, kf) }] *)
Fixpoint aggregate_heap (st : store) (tShard : shard) (kfs : list ptr)
  : result (store * shard) :=
  match kfs with
  | [] => Ok (st, tShard)
  | kf :: kfs' =>
      r <- processKeyFreq st tShard kf ;;
      aggregate_heap r.1 r.2 kfs'
  end.

(** [for _, shard := range ht.shards { shard.mu.RLock(); ...;
    shard.mu.RUnlock() }].  The shards already visited are returned with
    the state their lock was left in. *)
Fixpoint aggregate_loop (st : store) (tShard : shard) (shards : list shard)
  : result (store * shard * list shard) :=
  match shards with
  | [] => Ok (st, tShard, [])
  | s :: shards' =>
      m1 <- RLock (mu s) ;;
      r <- aggregate_heap st tShard (minHeap s) ;;
      m2 <- RUnlock m1 ;;
      r' <- aggregate_loop r.1 r.2 shards' ;;
      Ok (r'.1.1, r'.1.2, set_mu m2 s :: r'.2)
  end.

(** [func (ht *HotspotTracker) aggregateShards() *shard] *)
Definition aggregateShards (st : store) (ht : HotspotTracker)
  : result (store * HotspotTracker * shard) :=
  let tShard := NewShard (ht_topN ht) in
  r <- aggregate_loop st tShard (ht_shards ht) ;;
  Ok (r.1.1, set_shards r.2 ht, r.1.2).

(** [func (ht *HotspotTracker) AggregateData() *shard].  The deferred
    unlocks run, in reverse order, when the function returns.  With the
    cache the returned pointer is [ht.cache] itself. *)
Definition AggregateData (st : store) (ht : HotspotTracker)
  : result (store * HotspotTracker * shard) :=
  m1 <- RLock (ht_mu ht) ;;
  let ht := set_ht_mu m1 ht in
  if ht_withCache ht then
    m2 <- Lock (ht_mu ht) ;;
    let ht := set_ht_mu m2 ht in
    r <- (if ht_update ht then
            a <- aggregateShards st ht ;;
            Ok (a.1.1, set_update false (set_cache (Some a.2) a.1.2))
          else Ok (st, ht)) ;;
    c <- match ht_cache r.2 with Some c => Ok c | None => Panic end ;;
    m3 <- Unlock (ht_mu r.2) ;;
    m4 <- RUnlock m3 ;;
    Ok (r.1, set_ht_mu m4 r.2, c)
  else
    a <- aggregateShards st ht ;;
    m2 <- RUnlock (ht_mu a.1.2) ;;
    Ok (a.1.1, set_ht_mu m2 a.1.2, a.2).

(** [func (ht *HotspotTracker) GetHotspots() []string] *)
Definition GetHotspots (st : store) (ht : HotspotTracker)
  : result (store * HotspotTracker * list string) :=
  a <- AggregateData st ht ;;
  let aggregateShard := a.2 in
  r <- shard_GetHotspots a.1.1 aggregateShard ;;
  Ok (r.1, a.1.2, r.2).

(** [func (ht *HotspotTracker) IsHotspot(key string) bool].  With the cache
    the shard whose lock is taken is [ht.cache]. *)
Definition IsHotspot (st : store) (ht : HotspotTracker) (key : string)
  : result (store * HotspotTracker * bool) :=
  a <- AggregateData st ht ;;
  let aggregateShard := a.2 in
  r <- shard_IsHotspot aggregateShard key ;;
  let ht' := if ht_withCache a.1.2 then set_cache (Some r.1) a.1.2 else a.1.2 in
  Ok (a.1.1, ht', r.2).

(** ** Runs of the public operations *)

Inductive op : Type :=
| OpRecordRequest (key : string)
| OpGetHotspots
| OpIsHotspot (key : string)
| OpWithCache
| OpTick
| OpClose.

Definition state : Type := store * HotspotTracker.

Definition step (σ : state) (o : op) : result state :=
  match o with
  | OpRecordRequest key => RecordRequest σ.1 σ.2 key
  | OpGetHotspots => r <- GetHotspots σ.1 σ.2 ;; Ok r.1
  | OpIsHotspot key => r <- IsHotspot σ.1 σ.2 key ;; Ok r.1
  | OpWithCache => Ok (σ.1, WithCache σ.2)
  | OpTick =>
      Ok (σ.1, if decide (ht_stop σ.2 = chan_open) then tick σ.2 else σ.2)
  | OpClose => ht <- Close σ.2 ;; Ok (σ.1, ht)
  end.

Fixpoint run (σ : state) (ops : list op) : result state :=
  match ops with
  | [] => Ok σ
  | o :: ops' => σ' <- step σ o ;; run σ' ops'
  end.

(** The states a program can bring a tracker into: construction with
    positive arguments followed by public operations that returned. *)
Inductive reachable : state → Prop :=
| reachable_new topN numShards ht :
    0 < topN → 0 < numShards →
    NewHotspotTracker topN numShards = Ok ht →
    reachable ([], ht)
| reachable_step σ o σ' :
    reachable σ → step σ o = Ok σ' → reachable σ'.

(** [Construct(topN, numShards)] followed by the operations [ops]. *)
Definition run_new (topN numShards : Z) (ops : list op) : result state :=
  ht <- NewHotspotTracker topN numShards ;;
  run ([], ht) ops.

(** * Vocabulary of the properties *)

(** ** Keys and frequencies *)

Definition key_of (st : store) (p : ptr) : string := Key (load st p).
Definition freq_of (st : store) (p : ptr) : Z := Frequency (load st p).

(** The frequency of the record at position [i] of the heap. *)
Definition fq (st : store) (h : MinHeap) (i : Z) : Z :=
  Frequency (load st (h !!! Z.to_nat i)).

(** The record under which [key] is tracked: the entry of [key] in the
    lookup table of the shard that [key] is routed to. *)
Definition tracked (σ : state) (key : string) : option ptr :=
  match shardIndex σ.2 key with
  | Ok i => s ← ht_shards σ.2 !! Z.to_nat i; keyFreqs s !! key
  | _ => None
  end.

(** The frequency recorded for [key], if it is tracked. *)
Definition frequency (σ : state) (key : string) : option Z :=
  freq_of σ.1 <$> tracked σ key.

(** The records held by the shards of a tracker. *)
Definition all_ptrs (shards : list shard) : list ptr :=
  concat (minHeap <$> shards).

(** ** What the heap operations leave alone

    [heap_frame st st']: every record of [st'] has the key and the frequency
    it has in [st]; only [Index] fields differ, and they stay above [-1]. *)
Definition heap_frame (st st' : store) : Prop :=
  length st' = length st ∧
  ∀ p, Key (load st' p) = Key (load st p) ∧
       Frequency (load st' p) = Frequency (load st p) ∧
       (-1 ≤ Index (load st p) → -1 ≤ Index (load st' p)).

(** [store_le st st']: [st'] has every record of [st], with the same key. *)
Definition store_le (st st' : store) : Prop :=
  (length st ≤ length st')%nat ∧
  ∀ p, (p < length st)%nat → key_of st' p = key_of st p.

(** [Index] never goes below [-1]. *)
Definition idx_ok (st : store) : Prop := ∀ p, -1 ≤ Index (load st p).

(** [same_data st st']: the records of [st] and [st'] differ at most in
    their [Index] fields. *)
Definition same_data (st st' : store) : Prop :=
  ∀ p, key_of st p = key_of st' p ∧ freq_of st p = freq_of st' p.

(** Two outcomes of the same kind, with related values if the calls
    return. *)
Definition result_rel {A B} (R : A → B → Prop) (r1 : result A) (r2 : result B)
  : Prop :=
  match r1, r2 with
  | Ok a, Ok b => R a b
  | Panic, Panic | Blocked, Blocked | OutOfFuel, OutOfFuel => True
  | _, _ => False
  end.

(** The same heap over stores with the same data. *)
Definition heap_sim (a b : store * MinHeap) : Prop :=
  same_data a.1 b.1 ∧ a.2 = b.2.

(** A call on the store: related stores in, the same value and related
    stores out. *)
Definition call_sim {A} (r1 r2 : result (store * A)) : Prop :=
  result_rel (λ x y, same_data x.1 y.1 ∧ x.2 = y.2) r1 r2.

(** The heap after [h[i], h[j] = h[j], h[i]]. *)
Definition swapZ (h : MinHeap) (i j : Z) : MinHeap :=
  <[Z.to_nat j := h !!! Z.to_nat i]> (<[Z.to_nat i := h !!! Z.to_nat j]> h).

(** ** Heap order

    [heap_from st h lo n]: among the first [n] positions, every position
    from [lo] on holds a frequency no larger than those of its children. *)
Definition heap_from (st : store) (h : MinHeap) (lo n : Z) : Prop :=
  ∀ i j, lo ≤ i → j = 2 * i + 1 ∨ j = 2 * i + 2 → j < n →
         fq st h i ≤ fq st h j.

(** The invariant of the loop of [down], at position [i]: every other
    position from [lo] on is in order, and the children of [i] are in order
    with the parent of [i]. *)
Definition down_inv (st : store) (h : MinHeap) (lo i n : Z) : Prop :=
  (∀ k j, lo ≤ k → k ≠ i → j = 2 * k + 1 ∨ j = 2 * k + 2 → j < n →
          fq st h k ≤ fq st h j) ∧
  (∀ k j, lo ≤ k → i = 2 * k + 1 ∨ i = 2 * k + 2 →
          j = 2 * i + 1 ∨ j = 2 * i + 2 → j < n →
          fq st h k ≤ fq st h j).

(** The invariant of the loop of [up], at position [j]: every position is
    in order with its children other than [j], and the children of [j] are
    in order with the parent of [j]. *)
Definition up_inv (st : store) (h : MinHeap) (j n : Z) : Prop :=
  (∀ k c, 0 ≤ k → c ≠ j → c = 2 * k + 1 ∨ c = 2 * k + 2 → c < n →
          fq st h k ≤ fq st h c) ∧
  (∀ k c, 0 ≤ k → j = 2 * k + 1 ∨ j = 2 * k + 2 →
          c = 2 * j + 1 ∨ c = 2 * j + 2 → c < n →
          fq st h k ≤ fq st h c).

(** In the heap of a shard on which no read has run, [Index] of each
    record is its position. *)
Definition index_ok (st : store) (h : MinHeap) : Prop :=
  NoDup h ∧
  ∀ i p, h !! i = Some p →
         (p < length st)%nat ∧ Index (load st p) = Z.of_nat i.

(** [outside h st st']: the records that [h] does not hold are the same in
    [st] and [st']. *)
Definition outside (h : MinHeap) (st st' : store) : Prop :=
  ∀ q, q ∉ h → load st' q = load st q.

(** What [heap.Fix] at position [i] starts from after the frequency at [i]
    has changed: every parent and child other than [i] are in order, and the
    children of [i] are in order with the parent of [i]. *)
Definition fix_pre (st : store) (h : MinHeap) (i n : Z) : Prop :=
  (∀ k c, 0 ≤ k → k ≠ i → c ≠ i → c = 2 * k + 1 ∨ c = 2 * k + 2 → c < n →
          fq st h k ≤ fq st h c) ∧
  (∀ k c, 0 ≤ k → i = 2 * k + 1 ∨ i = 2 * k + 2 →
          c = 2 * i + 1 ∨ c = 2 * i + 2 → c < n →
          fq st h k ≤ fq st h c).

(** ** Well-formed shards and trackers

    [table_ok]: the heap holds distinct allocated records and the lookup
    table maps exactly the key of each of them to it. *)
Definition table_ok (st : store) (h : MinHeap) (m : gmap string ptr) : Prop :=
  NoDup h ∧
  (∀ k p, m !! k = Some p ↔ p ∈ h ∧ key_of st p = k) ∧
  (∀ p, p ∈ h → (p < length st)%nat).

(** What every shard of a tracker satisfies whatever operations ran before:
    the table follows the heap, at most [topN] records are held, and the
    lock is free between calls.  Nothing is said about the order of the
    heap or about [Index]. *)
Record shard_wf (st : store) (s : shard) : Prop := {
  wf_nodup : NoDup (minHeap s);
  wf_map : ∀ k p, keyFreqs s !! k = Some p ↔ p ∈ minHeap s ∧ key_of st p = k;
  wf_alloc : ∀ p, p ∈ minHeap s → (p < length st)%nat;
  wf_size : len (minHeap s) ≤ topN s;
  wf_mu : mu s = unlocked
}.

(** Among the records of [U], keys identify records.  In a tracker [U] is
    the set of the records held by all the shards. *)
Definition key_inj (U : ptr → Prop) (st : store) : Prop :=
  ∀ p q, U p → U q → key_of st p = key_of st q → p = q.

(** A tracker built with positive arguments: every shard is well formed,
    has the capacity of the tracker, and holds only keys routed to it. *)
Record tracker_wf (σ : state) : Prop := {
  twf_topN : 0 < ht_topN σ.2;
  twf_numShards : 0 < ht_numShards σ.2;
  twf_len : ht_numShards σ.2 = len (ht_shards σ.2);
  twf_mu : ht_mu σ.2 = unlocked;
  twf_shard : ∀ i s, ht_shards σ.2 !! i = Some s →
     shard_wf σ.1 s ∧ topN s = ht_topN σ.2 ∧
     ∀ k p, keyFreqs s !! k = Some p →
            Z.rem (fnv32a k) (ht_numShards σ.2) = Z.of_nat i;
  twf_idx : idx_ok σ.1
}.

(** The shard invariant of the data model: the lookup table and the heap
    hold the same keys, one record per key; the heap holds at most [topN]
    records; the record at the root of the heap has the least frequency. *)
Definition shard_invariant (st : store) (s : shard) : Prop :=
  (∀ k, is_Some (keyFreqs s !! k) ↔ k ∈ key_of st <$> minHeap s) ∧
  NoDup (key_of st <$> minHeap s) ∧
  len (minHeap s) ≤ topN s ∧
  (∀ root p, minHeap s !! 0%nat = Some root → p ∈ minHeap s →
             freq_of st root ≤ freq_of st p).

(** The heap of a shard is in order and [Index] follows the positions. *)
Definition shard_ordered (st : store) (s : shard) : Prop :=
  heap_from st (minHeap s) 0 (len (minHeap s)) ∧ index_ok st (minHeap s).

Definition tracker_ordered (σ : state) : Prop :=
  ∀ i s, ht_shards σ.2 !! i = Some s → shard_ordered σ.1 s.

(** The operations that are reads. *)
Definition is_read (o : op) : bool :=
  match o with
  | OpGetHotspots | OpIsHotspot _ => true
  | _ => false
  end.

(** [top_of st n seen h]: the heap [h] holds records of [seen], all of
    them while it holds fewer than [n], and no record of [seen] that it
    does not hold has a larger frequency than one that it holds. *)
Definition top_of (st : store) (n : Z) (seen h : list ptr) : Prop :=
  (∀ p, p ∈ h → p ∈ seen) ∧
  (len h < n → ∀ p, p ∈ seen → p ∈ h) ∧
  (∀ p q, p ∈ seen → p ∉ h → q ∈ h → freq_of st p ≤ freq_of st q).

(** The keys of the requests of a sequence of operations, in order. *)
Definition requested (ops : list op) : list string :=
  omap (λ o, match o with OpRecordRequest k => Some k | _ => None end) ops.

(** How many times [key] occurs in [keys]. *)
Definition occurrences (key : string) (keys : list string) : Z :=
  len (filter (λ k, k = key) keys).

(** The operations on the cache, its ticker and its stop channel. *)
Definition is_cache_op (o : op) : bool :=
  match o with
  | OpWithCache | OpTick | OpClose => true
  | _ => false
  end.

(** [shut_out σ key]: [key] is not tracked, and the shard it is routed to
    is full with a frequency above 1 at the root of its heap. *)
Definition shut_out (σ : state) (key : string) : Prop :=
  ∃ i s root,
    shardIndex σ.2 key = Ok i ∧ ht_shards σ.2 !! Z.to_nat i = Some s ∧
    keyFreqs s !! key = None ∧ topN s ≤ len (minHeap s) ∧
    minHeap s !! 0%nat = Some root ∧ 1 < freq_of σ.1 root.

(** ** Scenario 1

    The requests of the example in [main] and of [TestHotspotTracker], and
    the state they lead to from [NewHotspotTracker(3, 1)]. *)
Definition scenario1_keys : list string :=
  ["a"; "b"; "c"; "a"; "a"; "b"; "d"; "d"; "d"; "d"; "e"; "f"; "e"]%string.

Definition scenario1_store : store :=
  [mkKeyFreq "a" 3 1; mkKeyFreq "b" 2 0; mkKeyFreq "c" 1 (-1);
   mkKeyFreq "d" 4 2; mkKeyFreq "e" 1 0; mkKeyFreq "f" 1 0;
   mkKeyFreq "e" 1 0].

Definition scenario1_shard : shard :=
  mkShard 3 [1; 0; 3]%nat
    (<["a" := 0%nat]> (<["b" := 1%nat]> (<["d" := 3%nat]> ∅))) unlocked.

Definition scenario1_tracker : HotspotTracker :=
  mkHotspotTracker [scenario1_shard] 1 3 None unlocked false chan_nil false.

(** * Properties *)

(** ** The result monad *)

Lemma bind_Ok {A B} (m : result A) (f : A → result B) (b : B) :
  bind m f = Ok b → ∃ a, m = Ok a ∧ f a = Ok b.
Proof. destruct m; simpl; intros; try discriminate. eauto. Qed.

(** ** Loads and stores *)

Lemma len_nonneg {A} (l : list A) : 0 ≤ len l.
Proof. unfold len. lia. Qed.

Lemma len_app {A} (l k : list A) : len (l ++ k) = len l + len k.
Proof. unfold len. rewrite length_app. lia. Qed.

Lemma len_cons {A} (x : A) (l : list A) : len (x :: l) = len l + 1.
Proof. unfold len. simpl. lia. Qed.

Lemma len_perm {A} (l k : list A) : l ≡ₚ k → len l = len k.
Proof. intros Hp. unfold len. by rewrite Hp. Qed.

Lemma index_Ok {A} `{Inhabited A} (h : list A) (i : Z) :
  0 ≤ i < len h → index h i = Ok (h !!! Z.to_nat i).
Proof.
  intros Hi. unfold index, len in *.
  destruct (Z.ltb_spec i 0); [lia|].
  destruct (h !! Z.to_nat i) eqn:E.
  - by rewrite (list_lookup_total_correct _ _ _ E).
  - apply lookup_ge_None in E. lia.
Qed.

Lemma load_alter (f : KeyFreq → KeyFreq) (st : store) (p q : ptr) :
  load (alter f p st) q =
  if decide (p = q ∧ (p < length st)%nat) then f (load st q) else load st q.
Proof.
  unfold load. rewrite list_lookup_total_alter.
  repeat case_decide; try done; try tauto.
  by replace p with q by (symmetry; tauto).
Qed.

Lemma load_app_l (st : store) (r : KeyFreq) (p : ptr) :
  (p < length st)%nat → load (st ++ [r]) p = load st p.
Proof. intros. unfold load. by rewrite lookup_total_app_l. Qed.

Lemma load_app_new (st : store) (r : KeyFreq) : load (st ++ [r]) (length st) = r.
Proof.
  unfold load. rewrite lookup_total_app_r; [|lia].
  by rewrite Nat.sub_diag.
Qed.

Lemma heap_frame_refl st : heap_frame st st.
Proof. split; [done|]. intros p. auto. Qed.

Lemma heap_frame_trans st1 st2 st3 :
  heap_frame st1 st2 → heap_frame st2 st3 → heap_frame st1 st3.
Proof.
  intros [L1 H1] [L2 H2]. split; [congruence|].
  intros p. destruct (H1 p) as (?&?&?), (H2 p) as (?&?&?).
  repeat split; try congruence. auto.
Qed.

Lemma heap_frame_set_Index st p i : -1 ≤ i → heap_frame st (set_Index st p i).
Proof.
  intros Hi. split; [apply length_alter|].
  intros q. unfold set_Index. rewrite load_alter.
  case_decide; simpl; auto.
Qed.

Create HintDb frame.
#[global] Hint Resolve heap_frame_refl heap_frame_set_Index : frame.

(** ** The methods of [MinHeap] inside their index range *)

Lemma MinHeap_Less_Ok st h i j :
  0 ≤ i < len h → 0 ≤ j < len h →
  MinHeap_Less st h i j = Ok (fq st h i <? fq st h j).
Proof.
  intros Hi Hj. unfold MinHeap_Less.
  destruct (Z.leb_spec (len h) i); [lia|].
  destruct (Z.leb_spec (len h) j); [lia|]. simpl.
  by rewrite !index_Ok.
Qed.

Lemma MinHeap_Less_out st h i j :
  len h ≤ i ∨ len h ≤ j → MinHeap_Less st h i j = Ok false.
Proof.
  intros Hij. unfold MinHeap_Less.
  destruct (Z.leb_spec (len h) i); [done|].
  destruct (Z.leb_spec (len h) j); [done|]. lia.
Qed.

Lemma len_swapZ h i j : len (swapZ h i j) = len h.
Proof. unfold swapZ, len. by rewrite !length_insert. Qed.

Lemma swapZ_perm h i j : 0 ≤ i < len h → 0 ≤ j < len h → swapZ h i j ≡ₚ h.
Proof.
  intros Hi Hj. unfold swapZ, len in *.
  apply Permutation_insert_swap; apply list_lookup_lookup_total_lt; lia.
Qed.

Lemma swapZ_lookup h i j k :
  0 ≤ i < len h → 0 ≤ j < len h → 0 ≤ k →
  swapZ h i j !!! Z.to_nat k =
  if decide (k = j) then h !!! Z.to_nat i
  else if decide (k = i) then h !!! Z.to_nat j
  else h !!! Z.to_nat k.
Proof.
  intros Hi Hj Hk. unfold swapZ, len in *.
  rewrite list_lookup_total_insert, length_insert.
  repeat case_decide; try done; try lia.
  - rewrite list_lookup_total_insert. repeat case_decide; try done; lia.
  - rewrite list_lookup_total_insert. repeat case_decide; try done; lia.
Qed.

Lemma MinHeap_Swap_Ok st h i j :
  0 ≤ i < len h → 0 ≤ j < len h →
  ∃ st', MinHeap_Swap st h i j = Ok (st', swapZ h i j) ∧ heap_frame st st'.
Proof.
  intros Hi Hj. unfold MinHeap_Swap.
  destruct (Z.leb_spec (len h) i); [lia|].
  destruct (Z.leb_spec (len h) j); [lia|]. simpl.
  rewrite !index_Ok by done. simpl. fold (swapZ h i j).
  rewrite !index_Ok by (rewrite len_swapZ; done). simpl.
  eexists. split; [done|].
  eapply heap_frame_trans; apply heap_frame_set_Index; lia.
Qed.

Lemma fq_frame st st' h i : heap_frame st st' → fq st' h i = fq st h i.
Proof. intros [_ Hf]. unfold fq. apply Hf. Qed.

#[global] Arguments MinHeap_Less : simpl never.
#[global] Arguments MinHeap_Swap : simpl never.
#[global] Arguments MinHeap_Push : simpl never.
#[global] Arguments MinHeap_Pop : simpl never.

(** Division by a constant in linear arithmetic. *)
Ltac Zify.zify_post_hook ::= Z.to_euclidean_division_equations.

(** ** [up], [down] and [Fix] permute the heap and touch only [Index]

    These hold for any heap contents, ordered or not, and any position
    from [-1] on, which is what [Index] can hold. *)
Lemma up_loop_frame fuel st h j :
  -1 ≤ j → (Z.to_nat j < fuel)%nat →
  ∃ st' h', heap.up_loop fuel (st, h) j = Ok (st', h') ∧
            heap_frame st st' ∧ h' ≡ₚ h.
Proof.
  revert st h j. induction fuel as [|fuel IH]; intros st h j Hj Hfuel; [lia|].
  simpl. destruct (Z.eqb_spec ((j - 1) `quot` 2) j) as [|Hne].
  { exists st, h. auto with frame. }
  assert (0 ≤ (j - 1) `quot` 2 < j) as Hi by lia.
  destruct (Z.le_gt_cases (len h) j) as [Hout|Hin].
  { rewrite MinHeap_Less_out by auto. simpl. exists st, h. auto with frame. }
  rewrite MinHeap_Less_Ok by lia. simpl.
  destruct (_ <? _); simpl; [|exists st, h; auto with frame].
  destruct (MinHeap_Swap_Ok st h ((j - 1) `quot` 2) j) as (st1 & -> & Hf1); [lia..|].
  simpl. destruct (IH st1 (swapZ h ((j - 1) `quot` 2) j) ((j - 1) `quot` 2))
    as (st2 & h2 & -> & Hf2 & Hp2); [lia..|].
  exists st2, h2. split_and!; [done|by eapply heap_frame_trans|].
  rewrite Hp2. apply swapZ_perm; lia.
Qed.

Lemma up_frame st h j :
  -1 ≤ j →
  ∃ st' h', heap.up (st, h) j = Ok (st', h') ∧ heap_frame st st' ∧ h' ≡ₚ h.
Proof. intros. apply up_loop_frame; lia. Qed.

Lemma down_loop_frame fuel st h i0 i n :
  n ≤ len h → (Z.to_nat (n - i) < fuel)%nat →
  ∃ st' h' b, heap.down_loop fuel (st, h) i0 i n = Ok (st', h', b) ∧
              heap_frame st st' ∧ h' ≡ₚ h ∧
              ∀ k, n ≤ k → h' !!! Z.to_nat k = h !!! Z.to_nat k.
Proof.
  revert st h i. induction fuel as [|fuel IH]; intros st h i Hn Hfuel; [lia|].
  simpl. destruct (Z.leb_spec n (2 * i + 1)); simpl.
  { exists st, h, (i0 <? i). auto with frame. }
  destruct (Z.ltb_spec (2 * i + 1) 0); simpl.
  { exists st, h, (i0 <? i). auto with frame. }
  assert (∀ j, 2 * i + 1 ≤ j < n →
    ∃ st' h' b,
      (lt <- MinHeap_Less st h j i ;;
       if negb lt then Ok (st, h, i0 <? i)
       else h' <- MinHeap_Swap st h i j ;; heap.down_loop fuel h' i0 j n)
      = Ok (st', h', b) ∧ heap_frame st st' ∧ h' ≡ₚ h ∧
      ∀ k, n ≤ k → h' !!! Z.to_nat k = h !!! Z.to_nat k) as Hstep.
  { intros j Hj. rewrite MinHeap_Less_Ok by lia. simpl.
    destruct (fq st h j <? fq st h i); simpl;
      [|exists st, h, (i0 <? i); auto with frame].
    destruct (MinHeap_Swap_Ok st h i j) as (st1 & -> & Hf1); [lia..|].
    simpl.
    destruct (IH st1 (swapZ h i j) j) as (st2 & h2 & b & -> & Hf2 & Hp2 & Hk2).
    { rewrite len_swapZ. lia. }
    { lia. }
    exists st2, h2, b. split_and!; [done|by eapply heap_frame_trans| |].
    - rewrite Hp2. apply swapZ_perm; lia.
    - intros k Hk. rewrite Hk2 by done.
      rewrite swapZ_lookup by lia. repeat case_decide; try lia; done. }
  destruct (Z.ltb_spec (2 * i + 1 + 1) n).
  - rewrite MinHeap_Less_Ok by lia. simpl.
    destruct (fq st h (2 * i + 1 + 1) <? fq st h (2 * i + 1)); apply Hstep; lia.
  - simpl. apply Hstep; lia.
Qed.

Lemma down_frame st h i0 n :
  n ≤ len h →
  ∃ st' h' b, heap.down (st, h) i0 n = Ok (st', h', b) ∧
              heap_frame st st' ∧ h' ≡ₚ h ∧
              ∀ k, n ≤ k → h' !!! Z.to_nat k = h !!! Z.to_nat k.
Proof.
  intros Hn. unfold heap.down.
  destruct (Z.le_gt_cases 0 i0).
  - apply down_loop_frame; [done|lia].
  - simpl. destruct (Z.leb_spec n (2 * i0 + 1)); simpl.
    { exists st, h, (i0 <? i0). auto with frame. }
    destruct (Z.ltb_spec (2 * i0 + 1) 0); [|lia]. simpl.
    exists st, h, (i0 <? i0). auto with frame.
Qed.

Lemma Fix_frame st h i :
  -1 ≤ i →
  ∃ st' h', heap.Fix (st, h) i = Ok (st', h') ∧ heap_frame st st' ∧ h' ≡ₚ h.
Proof.
  intros Hi. unfold heap.Fix.
  destruct (down_frame st h i (Len (st, h)))
    as (st1 & h1 & b & -> & Hf1 & Hp1 & _).
  { simpl. unfold MinHeap_Len. lia. }
  simpl. destruct b; simpl; [by exists st1, h1|].
  destruct (up_frame st1 h1 i) as (st2 & h2 & -> & Hf2 & Hp2); [done|].
  exists st2, h2. split_and!; [done|by eapply heap_frame_trans|by rewrite Hp2].
Qed.

Lemma Push_frame st h x :
  ∃ st' h', heap.Push (st, h) x = Ok (st', h') ∧ heap_frame st st' ∧
            h' ≡ₚ x :: h.
Proof.
  unfold heap.Push. simpl.
  destruct (up_frame (set_Index st x (len h)) (h ++ [x])
              (MinHeap_Len (h ++ [x]) - 1)) as (st2 & h2 & -> & Hf2 & Hp2).
  { unfold MinHeap_Len. pose proof (len_nonneg (h ++ [x])). lia. }
  exists st2, h2. split_and!; [done| |].
  - eapply heap_frame_trans; [|done]. apply heap_frame_set_Index.
    pose proof (len_nonneg h). lia.
  - rewrite Hp2. by rewrite Permutation_app_comm.
Qed.

Lemma heap_from_frame st st' h lo n :
  heap_frame st st' → heap_from st h lo n → heap_from st' h lo n.
Proof.
  intros Hf Hh i j ???. rewrite !(fq_frame st st') by done. by apply Hh.
Qed.

Lemma fq_swapZ st h i j k :
  0 ≤ i < len h → 0 ≤ j < len h → 0 ≤ k →
  fq st (swapZ h i j) k =
  if decide (k = j) then fq st h i
  else if decide (k = i) then fq st h j
  else fq st h k.
Proof.
  intros. unfold fq. rewrite swapZ_lookup by done.
  repeat case_decide; done.
Qed.

Lemma down_loop_heap fuel st h lo i0 i n :
  0 ≤ lo ≤ i → n ≤ len h → (Z.to_nat (n - i) < fuel)%nat →
  down_inv st h lo i n →
  ∃ st' h' b, heap.down_loop fuel (st, h) i0 i n = Ok (st', h', b) ∧
              heap_frame st st' ∧ heap_from st' h' lo n ∧ len h' = len h ∧
              ∀ k, 0 ≤ k → k < lo ∨ n ≤ k →
                   h' !!! Z.to_nat k = h !!! Z.to_nat k.
Proof.
  revert st h i.
  induction fuel as [|fuel IH]; intros st h i Hi Hn Hfuel [Ha Hb]; [lia|].
  simpl. destruct (Z.leb_spec n (2 * i + 1)); simpl.
  { exists st, h, (i0 <? i). split_and!; auto with frame.
    intros k j ? ? ?. apply Ha; lia. }
  destruct (Z.ltb_spec (2 * i + 1) 0); [lia|]. simpl.
  assert (∀ j, j = 2 * i + 1 ∨ j = 2 * i + 2 → j < n →
    (∀ c, c = 2 * i + 1 ∨ c = 2 * i + 2 → c < n → fq st h j ≤ fq st h c) →
    ∃ st' h' b,
      (lt <- MinHeap_Less st h j i ;;
       if negb lt then Ok (st, h, i0 <? i)
       else h' <- MinHeap_Swap st h i j ;; heap.down_loop fuel h' i0 j n)
      = Ok (st', h', b) ∧
      heap_frame st st' ∧ heap_from st' h' lo n ∧ len h' = len h ∧
      ∀ k, 0 ≤ k → k < lo ∨ n ≤ k →
           h' !!! Z.to_nat k = h !!! Z.to_nat k) as Hstep.
  { intros j Hj Hjn Hmin. rewrite MinHeap_Less_Ok by lia. simpl.
    destruct (Z.ltb_spec (fq st h j) (fq st h i)) as [Hlt|Hge]; simpl.
    - destruct (MinHeap_Swap_Ok st h i j) as (st1 & -> & Hf1); [lia..|].
      simpl.
      destruct (IH st1 (swapZ h i j) j)
        as (st2 & h2 & b & -> & Hf2 & Hh2 & Hl2 & Hk2).
      { lia. }
      { rewrite len_swapZ. lia. }
      { lia. }
      { split.
        - intros k c Hk Hkj Hc Hcn.
          rewrite !(fq_frame st st1) by done.
          rewrite !fq_swapZ by lia.
          repeat case_decide; try lia.
          + apply Hmin; lia.
          + apply (Hb k j); lia.
          + apply Ha; lia.
        - intros k c Hk Hkj Hc Hcn.
          rewrite !(fq_frame st st1) by done.
          rewrite !fq_swapZ by lia.
          repeat case_decide; try lia.
          apply Ha; lia. }
      exists st2, h2, b. split_and!; [done|by eapply heap_frame_trans|done| |].
      + by rewrite Hl2, len_swapZ.
      + intros k Hk0 Hk. rewrite Hk2 by done.
        rewrite swapZ_lookup by lia. repeat case_decide; try lia; done.
    - exists st, h, (i0 <? i). split_and!; auto with frame.
      intros k c Hk Hc Hcn. destruct (decide (k = i)) as [->|Hne].
      + specialize (Hmin c Hc Hcn). lia.
      + apply Ha; lia. }
  destruct (Z.ltb_spec (2 * i + 1 + 1) n).
  - rewrite MinHeap_Less_Ok by lia. simpl.
    destruct (Z.ltb_spec (fq st h (2 * i + 1 + 1)) (fq st h (2 * i + 1)));
      apply Hstep; try lia.
    + intros c [-> | ->] ?; [lia|]. replace (2 * i + 2) with (2 * i + 1 + 1); lia.
    + intros c [-> | ->] ?; [lia|]. replace (2 * i + 2) with (2 * i + 1 + 1); lia.
  - simpl. apply Hstep; try lia.
    intros c [-> | ->] ?; lia.
Qed.

Lemma down_heap st h i0 n :
  0 ≤ i0 → n ≤ len h → heap_from st h (i0 + 1) n →
  ∃ st' h' b, heap.down (st, h) i0 n = Ok (st', h', b) ∧
              heap_frame st st' ∧ heap_from st' h' i0 n ∧ len h' = len h ∧
              ∀ k, 0 ≤ k → k < i0 ∨ n ≤ k →
                   h' !!! Z.to_nat k = h !!! Z.to_nat k.
Proof.
  intros Hi Hn Hh. apply (down_loop_heap _ st h i0); [lia..|].
  split.
  - intros k j ? ? ? ?. apply Hh; lia.
  - intros k j ? ? ? ?. lia.
Qed.

Lemma up_loop_heap fuel st h j :
  0 ≤ j < len h → (Z.to_nat j < fuel)%nat → up_inv st h j (len h) →
  ∃ st' h', heap.up_loop fuel (st, h) j = Ok (st', h') ∧
            heap_frame st st' ∧ heap_from st' h' 0 (len h) ∧ len h' = len h.
Proof.
  revert st h j.
  induction fuel as [|fuel IH]; intros st h j Hj Hfuel [Ha Hb]; [lia|].
  simpl. destruct (Z.eqb_spec ((j - 1) `quot` 2) j) as [Hj0|Hne].
  { exists st, h. split_and!; auto with frame.
    intros k c Hk Hc Hcn. apply Ha; lia. }
  set (i := (j - 1) `quot` 2) in *.
  assert (0 ≤ i < j ∧ (j = 2 * i + 1 ∨ j = 2 * i + 2)) as [Hi Hij]
    by (unfold i; lia).
  clearbody i. rewrite MinHeap_Less_Ok by lia. simpl.
  destruct (Z.ltb_spec (fq st h j) (fq st h i)) as [Hlt|Hge]; simpl.
  - destruct (MinHeap_Swap_Ok st h i j) as (st1 & -> & Hf1); [lia..|].
    simpl.
    destruct (IH st1 (swapZ h i j) i) as (st2 & h2 & -> & Hf2 & Hh2 & Hl2).
    { rewrite len_swapZ. lia. }
    { lia. }
    { rewrite len_swapZ. split.
      - intros k c Hk Hci Hc Hcn.
        rewrite !(fq_frame st st1) by done.
        rewrite !fq_swapZ by lia.
        repeat case_decide; try lia.
        + apply (Hb i c); lia.
        + pose proof (Ha i c). lia.
        + apply Ha; lia.
      - intros k c Hk Hki Hc Hcn.
        rewrite !(fq_frame st st1) by done.
        rewrite !fq_swapZ by lia.
        repeat case_decide; try lia.
        + apply (Ha k i); lia.
        + pose proof (Ha k i). pose proof (Ha i c). lia. }
    rewrite len_swapZ in *.
    exists st2, h2. split_and!; [done|by eapply heap_frame_trans|done|done].
  - exists st, h. split_and!; auto with frame.
    intros k c Hk Hc Hcn. destruct (decide (c = j)) as [->|Hcj].
    + assert (k = i) as -> by lia. lia.
    + apply Ha; lia.
Qed.

(** [heap.Push] on a heap leaves a heap. *)
Lemma Push_heap st h x :
  heap_from st h 0 (len h) →
  ∃ st' h', heap.Push (st, h) x = Ok (st', h') ∧ heap_frame st st' ∧
            heap_from st' h' 0 (len h') ∧ h' ≡ₚ x :: h.
Proof.
  intros Hh.
  destruct (Push_frame st h x) as (st' & h' & HP & Hf & Hp).
  exists st', h'. split_and!; try done.
  revert HP. unfold heap.Push. simpl. unfold MinHeap_Len.
  pose proof (len_nonneg h) as Hl.
  assert (heap_frame st (set_Index st x (len h))) as Hf0.
  { apply heap_frame_set_Index. lia. }
  assert (len (h ++ [x]) = len h + 1) as Hlx.
  { rewrite len_app. unfold len at 2. simpl. lia. }
  rewrite Hlx.
  destruct (up_loop_heap (S (Z.to_nat (len h + 1 - 1)))
              (set_Index st x (len h)) (h ++ [x]) (len h + 1 - 1))
    as (st2 & h2 & HU & Hf2 & Hh2 & Hl2).
  { rewrite Hlx. lia. }
  { lia. }
  { rewrite Hlx.
    assert (∀ k, 0 ≤ k < len h →
                 fq (set_Index st x (len h)) (h ++ [x]) k = fq st h k) as Hfq.
    { intros k Hk. rewrite (fq_frame st) by done. unfold fq.
      rewrite lookup_total_app_l; [done|]. unfold len in Hk. lia. }
    split.
    - intros k c Hk Hcj Hc Hcn. rewrite !Hfq by lia. apply Hh; lia.
    - intros k c Hk Hkj Hc Hcn. lia. }
  rewrite Hlx in *.
  unfold heap.up. rewrite HU. intros [= <- <-].
  rewrite Hl2. done.
Qed.

(** In a heap the root holds the least frequency. *)
Lemma heap_from_root st h n k :
  heap_from st h 0 n → 0 ≤ k < n → fq st h 0 ≤ fq st h k.
Proof.
  intros Hh [Hk0 Hkn]. revert Hk0 Hkn.
  induction k as [k IH] using (well_founded_induction (Z.lt_wf 0)).
  intros Hk0 Hkn.
  destruct (decide (k = 0)) as [->|Hne]; [lia|].
  assert (0 ≤ (k - 1) / 2 < k) as Hp by lia.
  transitivity (fq st h ((k - 1) / 2)).
  - apply IH; lia.
  - apply Hh; lia.
Qed.

Lemma Init_loop_heap k st h n :
  n = len h → heap_from st h (Z.of_nat k) n →
  ∃ st' h', heap.Init_loop k (st, h) n = Ok (st', h') ∧
            heap_frame st st' ∧ heap_from st' h' 0 n ∧ h' ≡ₚ h.
Proof.
  revert st h. induction k as [|k IH]; intros st h Hn Hh.
  { exists st, h. simpl. auto with frame. }
  simpl.
  destruct (down_heap st h (Z.of_nat k) n)
    as (st1 & h1 & b & Hd & Hf1 & Hh1 & Hl1 & _); [lia..| |].
  { intros i j ???. apply Hh; lia. }
  destruct (down_frame st h (Z.of_nat k) n)
    as (? & ? & ? & Hd' & _ & Hp1 & _); [lia|].
  rewrite Hd in Hd'. injection Hd' as <- <- <-.
  rewrite Hd. simpl.
  destruct (IH st1 h1) as (st2 & h2 & -> & Hf2 & Hh2 & Hp2); [lia|done|].
  exists st2, h2. split_and!; [done|by eapply heap_frame_trans|done|].
  by rewrite Hp2.
Qed.

Lemma Init_heap st h :
  ∃ st' h', heap.Init (st, h) = Ok (st', h') ∧
            heap_frame st st' ∧ heap_from st' h' 0 (len h') ∧ h' ≡ₚ h.
Proof.
  unfold heap.Init. simpl. unfold MinHeap_Len.
  pose proof (len_nonneg h) as Hl.
  destruct (Init_loop_heap (Z.to_nat (len h `quot` 2)) st h (len h))
    as (st1 & h1 & -> & Hf1 & Hh1 & Hp1); [done| |].
  { intros i j ???. lia. }
  exists st1, h1. split_and!; try done.
  by rewrite (len_perm h1 h).
Qed.

(** [heap.Pop] removes and returns the record at the root, whatever the
    order of the heap; on a heap it leaves a heap. *)
Lemma Pop_frame st h :
  0 < len h →
  ∃ st' h', heap.Pop (st, h) = Ok (st', h', h !!! 0%nat) ∧
            heap_frame st st' ∧ h ≡ₚ h !!! 0%nat :: h'.
Proof.
  intros Hl. unfold heap.Pop. simpl. unfold MinHeap_Len.
  destruct (MinHeap_Swap_Ok st h 0 (len h - 1)) as (st1 & -> & Hf1); [lia..|].
  simpl.
  destruct (down_frame st1 (swapZ h 0 (len h - 1)) 0 (len h - 1))
    as (st2 & h2 & b & -> & Hf2 & Hp2 & Hk2).
  { rewrite len_swapZ. lia. }
  simpl. unfold MinHeap_Pop.
  assert (len h2 = len h) as Hl2.
  { rewrite (len_perm _ _ Hp2). apply len_swapZ. }
  assert (h2 !!! Z.to_nat (len h - 1) = h !!! 0%nat) as Hlast.
  { rewrite Hk2 by lia. rewrite swapZ_lookup by lia.
    rewrite decide_True by done. done. }
  rewrite Hl2, index_Ok by lia. simpl. rewrite Hlast.
  eexists _, _. split_and!; [done| |].
  - eapply heap_frame_trans; [done|]. eapply heap_frame_trans; [done|].
    apply heap_frame_set_Index. lia.
  - transitivity (swapZ h 0 (len h - 1)); [symmetry; apply swapZ_perm; lia|].
    transitivity h2; [by symmetry|].
    rewrite <- (take_drop (Z.to_nat (len h - 1)) h2) at 1.
    rewrite Permutation_app_comm.
    assert (drop (Z.to_nat (len h - 1)) h2 = [h !!! 0%nat]) as ->; [|done].
    rewrite <- Hlast.
    apply list_eq. intros [|i]; simpl.
    + rewrite lookup_drop, Nat.add_0_r.
      apply list_lookup_lookup_total_lt. unfold len in *. lia.
    + rewrite lookup_drop. apply lookup_ge_None. unfold len in *. lia.
Qed.

Lemma Pop_heap st h :
  0 < len h → heap_from st h 0 (len h) →
  ∃ st' h', heap.Pop (st, h) = Ok (st', h', h !!! 0%nat) ∧
            heap_frame st st' ∧ heap_from st' h' 0 (len h') ∧
            h ≡ₚ h !!! 0%nat :: h'.
Proof.
  intros Hl Hh.
  destruct (Pop_frame st h Hl) as (st' & h' & HP & Hf & Hp).
  exists st', h'. split_and!; try done.
  revert HP. unfold heap.Pop. simpl. unfold MinHeap_Len.
  destruct (MinHeap_Swap_Ok st h 0 (len h - 1)) as (st1 & -> & Hf1); [lia..|].
  simpl.
  destruct (down_heap st1 (swapZ h 0 (len h - 1)) 0 (len h - 1))
    as (st2 & h2 & b & -> & Hf2 & Hh2 & Hl2 & _).
  { lia. }
  { rewrite len_swapZ. lia. }
  { intros i j ???. rewrite !(fq_frame st st1) by done.
    rewrite !fq_swapZ by lia. repeat case_decide; try lia. apply Hh; lia. }
  simpl. unfold MinHeap_Pop. rewrite len_swapZ in Hl2.
  rewrite Hl2, index_Ok by lia. simpl. intros [= <- <-].
  assert (len (take (Z.to_nat (len h - 1)) h2) = len h - 1) as ->.
  { unfold len in *. rewrite length_take. lia. }
  apply (heap_from_frame st2); [apply heap_frame_set_Index; lia|].
  intros i j ???. unfold fq.
  rewrite !lookup_total_take. rewrite !decide_True by lia.
  apply Hh2; lia.
Qed.

Lemma MinHeap_Swap_out st h i j :
  len h ≤ i ∨ len h ≤ j → MinHeap_Swap st h i j = Ok (st, h).
Proof.
  intros Hij. unfold MinHeap_Swap.
  destruct (Z.leb_spec (len h) i); [done|].
  destruct (Z.leb_spec (len h) j); [done|]. lia.
Qed.

(** ** Invariants of the heap package

    Whatever [Swap] preserves, the loops of [up] and [down] preserve. *)
Section heap_inv.
Context {H : Type} `{I : Interface H}.
Variable P : H → Prop.
Hypothesis P_Swap : ∀ h i j h', P h → Swap h i j = Ok h' → P h'.

Lemma up_loop_inv fuel h j h' :
  P h → heap.up_loop fuel h j = Ok h' → P h'.
Proof.
  revert h j. induction fuel as [|fuel IH]; intros h j HP; simpl; [done|].
  destruct (_ =? _); [by intros [= <-]|].
  intros (lt & _ & Hrest)%bind_Ok. destruct lt; simpl in Hrest.
  - apply bind_Ok in Hrest as (h1 & HS & Hrest).
    eapply IH; [|done]. by eapply P_Swap.
  - by injection Hrest as <-.
Qed.

Lemma down_loop_inv fuel h i0 i n r :
  P h → heap.down_loop fuel h i0 i n = Ok r → P r.1.
Proof.
  revert h i. induction fuel as [|fuel IH]; intros h i HP; simpl; [done|].
  destruct (_ || _); [by intros [= <-]|].
  intros (lt21 & _ & Hrest)%bind_Ok.
  apply bind_Ok in Hrest as (lt & _ & Hrest). destruct lt; simpl in Hrest.
  - apply bind_Ok in Hrest as (h1 & HS & Hrest).
    eapply IH; [|done]. by eapply P_Swap.
  - by injection Hrest as <-.
Qed.

End heap_inv.

(** [MinHeap.Swap] inside the index range, in full. *)
Lemma MinHeap_Swap_eq st h i j :
  0 ≤ i < len h → 0 ≤ j < len h →
  MinHeap_Swap st h i j
  = Ok (set_Index (set_Index st (swapZ h i j !!! Z.to_nat i) i)
          (swapZ h i j !!! Z.to_nat j) j,
        swapZ h i j).
Proof.
  intros Hi Hj. unfold MinHeap_Swap.
  destruct (Z.leb_spec (len h) i); [lia|].
  destruct (Z.leb_spec (len h) j); [lia|]. simpl.
  rewrite !index_Ok by done. simpl. fold (swapZ h i j).
  by rewrite !index_Ok by (rewrite len_swapZ; done).
Qed.

Lemma MinHeap_Swap_inv st h i j st' h' :
  MinHeap_Swap st h i j = Ok (st', h') →
  (st' = st ∧ h' = h) ∨
  (0 ≤ i < len h ∧ 0 ≤ j < len h ∧ h' = swapZ h i j ∧
   st' = set_Index (set_Index st (swapZ h i j !!! Z.to_nat i) i)
           (swapZ h i j !!! Z.to_nat j) j).
Proof.
  destruct (Z.le_gt_cases (len h) i) as [Hi|Hi].
  { rewrite MinHeap_Swap_out by auto. intros [= <- <-]. by left. }
  destruct (Z.le_gt_cases (len h) j) as [Hj|Hj].
  { rewrite MinHeap_Swap_out by auto. intros [= <- <-]. by left. }
  destruct (Z.lt_ge_cases i 0) as [Hi0|Hi0].
  { unfold MinHeap_Swap, index.
    destruct (Z.leb_spec (len h) i); [lia|].
    destruct (Z.leb_spec (len h) j); [lia|]. simpl.
    destruct (Z.ltb_spec i 0); [done|lia]. }
  destruct (Z.lt_ge_cases j 0) as [Hj0|Hj0].
  { unfold MinHeap_Swap.
    destruct (Z.leb_spec (len h) i); [lia|].
    destruct (Z.leb_spec (len h) j); [lia|]. simpl.
    rewrite index_Ok by lia. simpl. unfold index at 1.
    destruct (Z.ltb_spec j 0); [done|lia]. }
  rewrite MinHeap_Swap_eq by lia. intros [= <- <-]. right. by split_and!.
Qed.

Lemma load_set_Index st p i q :
  load (set_Index st p i) q =
  if decide (p = q ∧ (p < length st)%nat)
  then with_Index i (load st q) else load st q.
Proof. apply load_alter. Qed.

Lemma length_set_Index st p i : length (set_Index st p i) = length st.
Proof. apply length_alter. Qed.

Lemma swapZ_lookup_Some h i j k p :
  0 ≤ i < len h → 0 ≤ j < len h →
  swapZ h i j !! k = Some p →
  p = swapZ h i j !!! k ∧ (k < length h)%nat.
Proof.
  intros Hi Hj Hk. apply lookup_lt_Some in Hk as Hlt.
  apply list_lookup_total_correct in Hk. split; [done|].
  unfold swapZ in Hlt. by rewrite !length_insert in Hlt.
Qed.

Lemma index_ok_Swap st h i j st' h' :
  index_ok st h → MinHeap_Swap st h i j = Ok (st', h') → index_ok st' h'.
Proof.
  intros [Hnd Hidx] [[-> ->]|(Hi & Hj & -> & ->)]%MinHeap_Swap_inv; [done|].
  assert (NoDup (swapZ h i j)) as Hnd'.
  { by rewrite swapZ_perm. }
  split; [done|]. intros k p Hk.
  destruct (swapZ_lookup_Some h i j k p Hi Hj Hk) as [Hp Hklt].
  assert (p ∈ h) as Hin.
  { rewrite <- (swapZ_perm h i j) by done. by eapply list_elem_of_lookup_2. }
  apply list_elem_of_lookup in Hin as [k0 Hk0].
  destruct (Hidx k0 p Hk0) as [Hal Hi0].
  rewrite !length_set_Index. split; [done|].
  rewrite !load_set_Index, !length_set_Index.
  assert (swapZ h i j !! Z.to_nat i = Some (swapZ h i j !!! Z.to_nat i)) as Hxi.
  { apply list_lookup_lookup_total_lt. rewrite <- (Nat2Z.id (length _)).
    fold (len (swapZ h i j)). rewrite len_swapZ. lia. }
  assert (swapZ h i j !! Z.to_nat j = Some (swapZ h i j !!! Z.to_nat j)) as Hxj.
  { apply list_lookup_lookup_total_lt. rewrite <- (Nat2Z.id (length _)).
    fold (len (swapZ h i j)). rewrite len_swapZ. lia. }
  set (x := swapZ h i j !!! Z.to_nat i) in *.
  set (y := swapZ h i j !!! Z.to_nat j) in *.
  destruct (decide (k = Z.to_nat j)) as [->|Hkj].
  { assert (y = p) as -> by congruence.
    case_decide as Hd; [simpl; lia|]. exfalso. by apply Hd. }
  assert (y ≠ p) as Hyp.
  { intros <-. apply Hkj. by eapply NoDup_lookup. }
  case_decide as Hd; [by destruct Hd|]. clear Hd.
  destruct (decide (k = Z.to_nat i)) as [->|Hki].
  { assert (x = p) as -> by congruence.
    case_decide as Hd; [simpl; lia|]. exfalso. by apply Hd. }
  assert (x ≠ p) as Hxp.
  { intros <-. apply Hki. by eapply NoDup_lookup. }
  case_decide as Hd; [by destruct Hd|]. clear Hd.
  assert (h !! k = Some p) as Hk'.
  { unfold swapZ in Hk.
    rewrite list_lookup_insert_ne in Hk by done.
    by rewrite list_lookup_insert_ne in Hk by done. }
  assert (k0 = k) as -> by exact (NoDup_lookup h k0 k p Hnd Hk0 Hk').
  done.
Qed.

(** [Swap] keeps [Index] in step with the positions and writes only to
    records of the heap; so do the loops of [up] and [down]. *)
Lemma MinHeap_Swap_local st0 h0 (x : store * MinHeap) i j x' :
  index_ok x.1 x.2 ∧ x.2 ≡ₚ h0 ∧ outside h0 st0 x.1 →
  Swap x i j = Ok x' →
  index_ok x'.1 x'.2 ∧ x'.2 ≡ₚ h0 ∧ outside h0 st0 x'.1.
Proof.
  destruct x as [st h], x' as [st' h']. simpl. intros (Hi & Hp & Ho) HS.
  change (MinHeap_Swap st h i j = Ok (st', h')) in HS.
  split; [exact (index_ok_Swap _ _ _ _ _ _ Hi HS)|].
  apply MinHeap_Swap_inv in HS as [[-> ->]|(Hi' & Hj' & -> & ->)]; [done|].
  assert (swapZ h i j ≡ₚ h0) as Hp' by (by rewrite swapZ_perm).
  split; [done|]. intros q Hq.
  assert (∀ k, (k < length h)%nat → swapZ h i j !!! k ≠ q) as Hne.
  { intros k Hk <-. apply Hq. rewrite <- Hp'.
    apply list_elem_of_lookup_total_2. unfold swapZ.
    by rewrite !length_insert. }
  rewrite !load_set_Index.
  unfold len in *.
  case_decide as Hd; [destruct Hd as [Hd _]; by apply Hne in Hd; [|lia]|].
  case_decide as Hd'; [destruct Hd' as [Hd' _]; by apply Hne in Hd'; [|lia]|].
  by apply Ho.
Qed.

Lemma up_index_ok st h j st' h' :
  index_ok st h → heap.up (st, h) j = Ok (st', h') →
  index_ok st' h' ∧ h' ≡ₚ h ∧ outside h st st'.
Proof.
  intros Hi HU.
  pose proof (up_loop_inv
    (λ x, index_ok x.1 x.2 ∧ x.2 ≡ₚ h ∧ outside h st x.1)
    (MinHeap_Swap_local st h)) as Hinv.
  apply (Hinv (S (Z.to_nat j)) (st, h) j (st', h')); [|exact HU].
  simpl. split_and!; [done|done|by intros ??].
Qed.

Lemma down_index_ok st h i0 n st' h' b :
  index_ok st h → heap.down (st, h) i0 n = Ok (st', h', b) →
  index_ok st' h' ∧ h' ≡ₚ h ∧ outside h st st'.
Proof.
  intros Hi HD.
  pose proof (down_loop_inv
    (λ x, index_ok x.1 x.2 ∧ x.2 ≡ₚ h ∧ outside h st x.1)
    (MinHeap_Swap_local st h)) as Hinv.
  apply (Hinv (S (Z.to_nat n)) (st, h) i0 i0 n (st', h', b)); [|exact HD].
  simpl. split_and!; [done|done|by intros ??].
Qed.

Lemma outside_trans h h' st1 st2 st3 :
  h' ≡ₚ h → outside h st1 st2 → outside h' st2 st3 → outside h st1 st3.
Proof.
  intros Hp H1 H2 q Hq. rewrite H2, H1; [done..|]. by rewrite Hp.
Qed.

Lemma Fix_index_ok st h i st' h' :
  index_ok st h → heap.Fix (st, h) i = Ok (st', h') →
  index_ok st' h' ∧ h' ≡ₚ h ∧ outside h st st'.
Proof.
  intros Hi. unfold heap.Fix.
  intros ([[st1 h1] b] & HD & HU)%bind_Ok. simpl in HU.
  destruct (down_index_ok _ _ _ _ _ _ _ Hi HD) as (Hi1 & Hp1 & Ho1).
  destruct b; simpl in HU; [by injection HU as <- <-|].
  destruct (up_index_ok _ _ _ _ _ Hi1 HU) as (Hi2 & Hp2 & Ho2).
  split_and!; [done|by rewrite Hp2|by eapply outside_trans].
Qed.

Lemma index_ok_Push st h x :
  index_ok st h → x ∉ h → (x < length st)%nat →
  index_ok (set_Index st x (len h)) (h ++ [x]).
Proof.
  intros [Hnd Hidx] Hx Hal. split.
  { apply NoDup_app. split_and!; [done| |apply NoDup_singleton].
    intros y Hy ->%list_elem_of_singleton. done. }
  intros i p Hip. rewrite length_set_Index, load_set_Index.
  apply lookup_app_Some in Hip as [Hip|[Hge Hip]].
  - destruct (Hidx i p Hip) as [Hp1 Hp2]. split; [done|].
    case_decide as Hd; [|done]. destruct Hd as [-> _].
    exfalso. apply Hx. by eapply list_elem_of_lookup_2.
  - apply list_lookup_singleton_Some in Hip as [Hi0 <-].
    split; [done|]. rewrite decide_True by done. simpl. unfold len. lia.
Qed.

Lemma Push_index_ok st h x st' h' :
  index_ok st h → x ∉ h → (x < length st)%nat →
  heap.Push (st, h) x = Ok (st', h') →
  index_ok st' h' ∧ outside (x :: h) st st'.
Proof.
  intros Hi Hx Hal. unfold heap.Push. simpl. unfold MinHeap_Push. simpl.
  intros HU.
  destruct (up_index_ok _ _ _ _ _ (index_ok_Push st h x Hi Hx Hal) HU)
    as (Hi2 & Hp2 & Ho2).
  split; [done|]. intros q Hq. rewrite Ho2.
  - rewrite load_set_Index. case_decide as Hd; [|done].
    destruct Hd as [-> _]. exfalso. apply Hq. apply list_elem_of_here.
  - intros Hin. apply Hq. apply elem_of_app in Hin as [Hin|Hin].
    + by apply list_elem_of_further.
    + apply list_elem_of_singleton in Hin as ->. apply list_elem_of_here.
Qed.

Lemma Pop_index_ok st h st' h' p :
  index_ok st h → heap.Pop (st, h) = Ok (st', h', p) →
  index_ok st' h' ∧ outside h st st'.
Proof.
  intros Hi. unfold heap.Pop. simpl. unfold MinHeap_Len.
  intros ([st1 h1] & HS & Hrest)%bind_Ok.
  apply bind_Ok in Hrest as ([[st2 h2] b] & HD & HP). simpl in HP.
  assert (index_ok st1 h1 ∧ h1 ≡ₚ h ∧ outside h st st1) as (Hi1 & Hp1 & Ho1).
  { apply (MinHeap_Swap_local st h (st, h) 0 (len h - 1) (st1, h1)); [|done].
    simpl. split_and!; [done|done|by intros ??]. }
  destruct (down_index_ok _ _ _ _ _ _ _ Hi1 HD) as (Hi2 & Hp2 & Ho2).
  unfold MinHeap_Pop in HP.
  apply bind_Ok in HP as (item & Hitem & HP). injection HP as <- <- <-.
  unfold index in Hitem. destruct (_ <? _); [done|].
  destruct (h2 !! Z.to_nat (len h2 - 1)) as [it|] eqn:Eit; [|done].
  injection Hitem as <-.
  destruct Hi2 as [Hnd2 Hidx2]. split.
  - split.
    { rewrite <- (take_drop (Z.to_nat (len h2 - 1)) h2) in Hnd2.
      by apply NoDup_app in Hnd2 as (? & _). }
    intros i q Hiq. apply lookup_take_Some in Hiq as [Hiq Hlt].
    rewrite length_set_Index, load_set_Index.
    destruct (Hidx2 i q Hiq) as [Hq1 Hq2]. split; [done|].
    case_decide as Hd; [|done]. destruct Hd as [-> _].
    assert (Z.to_nat (len h2 - 1) = i) by exact (NoDup_lookup _ _ _ _ Hnd2 Eit Hiq).
    lia.
  - intros q Hq. rewrite load_set_Index. case_decide as Hd.
    + destruct Hd as [-> _]. exfalso. apply Hq.
      rewrite <- Hp1, <- Hp2. by eapply list_elem_of_lookup_2.
    + rewrite Ho2, Ho1; [done..|]. by rewrite Hp1.
Qed.

(** [down] at a position that is in order with its children moves
    nothing. *)
Lemma down_noop st h i n :
  0 ≤ i → n ≤ len h →
  (∀ c, c = 2 * i + 1 ∨ c = 2 * i + 2 → c < n → fq st h i ≤ fq st h c) →
  heap.down (st, h) i n = Ok (st, h, false).
Proof.
  intros Hi Hn Hc. unfold heap.down. simpl. rewrite Z.ltb_irrefl.
  destruct (Z.leb_spec n (2 * i + 1)); simpl; [done|].
  destruct (Z.ltb_spec (2 * i + 1) 0); [lia|]. simpl.
  assert (∀ c, c = 2 * i + 1 ∨ c = 2 * i + 2 → c < n →
    (lt <- MinHeap_Less st h c i ;;
     if negb lt then Ok (st, h, false)
     else h' <- MinHeap_Swap st h i c ;;
          heap.down_loop (Z.to_nat n) h' i c n) = Ok (st, h, false)) as Hstep.
  { intros c Hci Hcn. rewrite MinHeap_Less_Ok by lia. simpl.
    destruct (Z.ltb_spec (fq st h c) (fq st h i)); [|done].
    specialize (Hc c Hci Hcn). lia. }
  destruct (Z.ltb_spec (2 * i + 1 + 1) n).
  - rewrite MinHeap_Less_Ok by lia. simpl.
    destruct (_ <? _); apply Hstep; lia.
  - simpl. apply Hstep; lia.
Qed.

(** [heap.Fix] at the position whose frequency changed restores the order
    of the heap, whichever way the frequency moved. *)
Lemma Fix_heap st h i :
  0 ≤ i < len h → fix_pre st h i (len h) →
  ∃ st' h', heap.Fix (st, h) i = Ok (st', h') ∧ heap_frame st st' ∧
            heap_from st' h' 0 (len h') ∧ h' ≡ₚ h.
Proof.
  intros Hi [Ha Hb].
  destruct (Fix_frame st h i) as (st' & h' & HF & Hf & Hp); [lia|].
  exists st', h'. split_and!; try done.
  rewrite (len_perm _ _ Hp).
  revert HF. unfold heap.Fix. simpl. unfold MinHeap_Len.
  set (k0 := (i - 1) `quot` 2).
  assert ((i = 0 ∨ fq st h k0 ≤ fq st h i) ∨
          (0 < i ∧ fq st h i < fq st h k0)) as [Hord|[Hi0 Hlt]] by lia.
  - destruct (down_loop_heap (S (Z.to_nat (len h))) st h 0 i i (len h))
      as (st1 & h1 & b & HD & Hf1 & Hh1 & Hl1 & _); [lia..| |].
    { split; [|exact Hb].
      intros k c Hk Hki Hc Hcn. destruct (decide (c = i)) as [->|Hci].
      - assert (k = k0) as -> by (unfold k0; lia). destruct Hord; [lia|done].
      - apply Ha; lia. }
    unfold heap.down. rewrite HD. simpl. destruct b; simpl.
    + by intros [= <- <-].
    + destruct (up_loop_heap (S (Z.to_nat i)) st1 h1 i)
        as (st2 & h2 & HU & Hf2 & Hh2 & Hl2); [lia..| |].
      { rewrite Hl1. split.
        - intros k c Hk Hci Hc Hcn. apply Hh1; lia.
        - intros k c Hk Hik Hc Hcn.
          transitivity (fq st1 h1 i); apply Hh1; lia. }
      unfold heap.up. rewrite HU. intros [= <- <-]. by rewrite <- Hl1.
  - assert (0 ≤ k0 ∧ (i = 2 * k0 + 1 ∨ i = 2 * k0 + 2)) as [Hk0 Hik0]
      by (unfold k0; lia).
    clearbody k0.
    rewrite down_noop; [|lia|lia|].
    2:{ intros c Hc Hcn. pose proof (Hb k0 c). lia. }
    simpl.
    destruct (up_loop_heap (S (Z.to_nat i)) st h i)
      as (st2 & h2 & HU & Hf2 & Hh2 & Hl2); [lia..| |].
    { split; [|exact Hb].
      intros k c Hk Hci Hc Hcn. destruct (decide (k = i)) as [->|Hki].
      - pose proof (Hb k0 c). lia.
      - apply Ha; lia. }
    unfold heap.up. rewrite HU. by intros [= <- <-].
Qed.

(** ** [shard.GetHotspots] *)

Lemma key_of_frame st st' p : heap_frame st st' → key_of st' p = key_of st p.
Proof. intros [_ Hf]. apply Hf. Qed.

Lemma freq_of_frame st st' p : heap_frame st st' → freq_of st' p = freq_of st p.
Proof. intros [_ Hf]. apply Hf. Qed.

Lemma heap_from_min st h p :
  heap_from st h 0 (len h) → p ∈ h → freq_of st (h !!! 0%nat) ≤ freq_of st p.
Proof.
  intros Hh Hp. apply list_elem_of_lookup in Hp as [i Hi].
  apply lookup_lt_Some in Hi as Hlt.
  apply list_lookup_total_correct in Hi as <-.
  pose proof (heap_from_root st h (len h) (Z.of_nat i) Hh) as Hr.
  unfold fq in Hr. rewrite Nat2Z.id in Hr. apply Hr. unfold len. lia.
Qed.

Lemma StronglySorted_impl {A} (R R' : A → A → Prop) (l : list A) :
  (∀ x y, R x y → R' x y) → StronglySorted R l → StronglySorted R' l.
Proof.
  intros HR. induction 1 as [|x l Hs IH Hx]; constructor; [done|].
  eapply Forall_impl; [exact Hx|]. intros y. apply HR.
Qed.

Lemma GetHotspots_loop_spec k i st h hotspots :
  k = length h → length hotspots = (i + k)%nat →
  heap_from st h 0 (len h) →
  ∃ st' ps,
    GetHotspots_loop k i (st, h) hotspots
      = Ok (st', take i hotspots ++ (key_of st <$> ps)) ∧
    heap_frame st st' ∧ ps ≡ₚ h ∧
    StronglySorted (λ p q, freq_of st p ≤ freq_of st q) ps.
Proof.
  revert i st h hotspots.
  induction k as [|k IH]; intros i st h hotspots Hk Hlen Hh.
  { exists st, []. simpl. destruct h; [|done].
    rewrite app_nil_r, take_ge by lia.
    split_and!; auto with frame. constructor. }
  simpl.
  destruct (Pop_heap st h) as (st1 & h1 & -> & Hf1 & Hh1 & Hp1); [unfold len; lia|done|].
  simpl.
  assert (length h1 = k) as Hk1.
  { apply Permutation_length in Hp1. simpl in Hp1. lia. }
  destruct (IH (S i) st1 h1 (<[i:=Key (load st1 (h !!! 0%nat))]> hotspots))
    as (st2 & ps & -> & Hf2 & Hp2 & Hs2); [done|rewrite length_insert; lia|done|].
  exists st2, (h !!! 0%nat :: ps). split_and!.
  - f_equal. f_equal.
    rewrite (take_S_r _ _ (Key (load st1 (h !!! 0%nat))))
      by (apply list_lookup_insert_eq; lia).
    rewrite take_insert_ge by lia. rewrite <- app_assoc. simpl.
    f_equal. f_equal.
    + apply (key_of_frame st st1); done.
    + apply list_fmap_ext. intros ? p _. by apply key_of_frame.
  - by eapply heap_frame_trans.
  - rewrite Hp2. by symmetry.
  - constructor.
    + eapply StronglySorted_impl; [|exact Hs2].
      intros p q. simpl. rewrite !(freq_of_frame st st1) by done. done.
    + apply Forall_forall. intros p Hin.
      apply heap_from_min; [done|].
      eapply elem_of_Permutation_proper; [exact Hp1|].
      apply list_elem_of_further.
      eapply elem_of_Permutation_proper; [symmetry; exact Hp2|done].
Qed.

(** [shard.GetHotspots] returns, on every shard and whatever the order of
    its heap, the keys of a permutation of the heap in ascending order of
    frequency. *)
Lemma shard_GetHotspots_spec st s :
  ∃ st' ps,
    shard_GetHotspots st s = Ok (st', key_of st <$> ps) ∧
    heap_frame st st' ∧ ps ≡ₚ minHeap s ∧
    StronglySorted (λ p q, freq_of st p ≤ freq_of st q) ps.
Proof.
  unfold shard_GetHotspots. simpl.
  destruct (Init_heap st (minHeap s)) as (st1 & h1 & -> & Hf1 & Hh1 & Hp1).
  simpl.
  destruct (GetHotspots_loop_spec (length h1) 0 st1 h1
              (replicate (length (minHeap s)) ""))
    as (st2 & ps & -> & Hf2 & Hp2 & Hs2); [done| |done|].
  { rewrite length_replicate. by rewrite Hp1. }
  exists st2, ps. split_and!.
  - simpl. f_equal. f_equal.
    apply list_fmap_ext. intros ? p _. by apply key_of_frame.
  - by eapply heap_frame_trans.
  - by rewrite Hp2.
  - eapply StronglySorted_impl; [|exact Hs2].
    intros p q. simpl. rewrite !(freq_of_frame st st1) by done. done.
Qed.

Lemma store_le_refl st : store_le st st.
Proof. by split. Qed.

Lemma store_le_trans st1 st2 st3 :
  store_le st1 st2 → store_le st2 st3 → store_le st1 st3.
Proof.
  intros [L1 H1] [L2 H2]. split; [lia|].
  intros p Hp. rewrite H2 by lia. by apply H1.
Qed.

Lemma heap_frame_store_le st st' : heap_frame st st' → store_le st st'.
Proof. intros [L H]. split; [lia|]. intros p _. apply H. Qed.

Lemma store_le_alloc st r : store_le st (st ++ [r]).
Proof.
  split; [rewrite length_app; lia|].
  intros p Hp. unfold key_of. by rewrite load_app_l.
Qed.

Lemma store_le_set_Frequency st p f : store_le st (set_Frequency st p f).
Proof.
  split; [unfold set_Frequency; rewrite length_alter; lia|].
  intros q _. unfold key_of, set_Frequency. rewrite load_alter.
  by case_decide.
Qed.

Lemma shard_wf_store_le st st' s :
  store_le st st' → shard_wf st s → shard_wf st' s.
Proof.
  intros [L H] [W1 W2 W3 W4 W5]. split; try done.
  - intros k p. rewrite W2. split; intros [Hin Hk]; (split; [done|]).
    + rewrite H; [done|]. by apply W3.
    + rewrite <- H; [done|]. by apply W3.
  - intros p Hp. specialize (W3 p Hp). lia.
Qed.

Lemma shard_wf_NewShard st n : 0 ≤ n → shard_wf st (NewShard n).
Proof.
  intros Hn. split; simpl; try done.
  - constructor.
  - intros k p. rewrite lookup_empty. split; [done|].
    intros [Hin _]. by apply elem_of_nil in Hin.
  - intros p Hin. by apply elem_of_nil in Hin.
Qed.

(** ** [processKeyFreq], case by case *)

Lemma processKeyFreq_room st t kf :
  len (minHeap t) < topN t →
  ∃ st' h',
    processKeyFreq st t kf
      = Ok (st', mkShard (topN t) h'
                   (<[key_of st kf := kf]> (keyFreqs t)) (mu t)) ∧
    heap_frame st st' ∧ h' ≡ₚ kf :: minHeap t.
Proof.
  intros Hlt. unfold processKeyFreq.
  destruct (Z.ltb_spec (len (minHeap t)) (topN t)); [|lia].
  destruct (Push_frame st (minHeap t) kf) as (st1 & h1 & -> & Hf1 & Hp1).
  simpl. exists st1, h1. split_and!; try done.
  change (Key (load st1 kf)) with (key_of st1 kf).
  by rewrite (key_of_frame st st1).
Qed.

Lemma processKeyFreq_evict st t kf :
  topN t ≤ len (minHeap t) → 0 < len (minHeap t) →
  freq_of st (minHeap t !!! 0%nat) ≤ freq_of st kf →
  ∃ st' h1 h',
    processKeyFreq st t kf
      = Ok (st', mkShard (topN t) h'
                   (<[key_of st kf := kf]>
                      (delete (key_of st (minHeap t !!! 0%nat)) (keyFreqs t)))
                   (mu t)) ∧
    heap_frame st st' ∧ minHeap t ≡ₚ minHeap t !!! 0%nat :: h1 ∧
    h' ≡ₚ kf :: h1.
Proof.
  intros Hfull Hne Hle. unfold processKeyFreq.
  destruct (Z.ltb_spec (len (minHeap t)) (topN t)); [lia|].
  rewrite index_Ok by lia. simpl. change (Z.to_nat 0) with 0%nat.
  unfold freq_of in Hle.
  destruct (Z.leb_spec (Frequency (load st (minHeap t !!! 0%nat)))
              (Frequency (load st kf))); [|lia].
  destruct (Pop_frame st (minHeap t) Hne) as (st1 & h1 & -> & Hf1 & Hp1).
  simpl.
  destruct (Push_frame st1 h1 kf) as (st2 & h2 & -> & Hf2 & Hp2).
  simpl. exists st2, h1, h2.
  assert (heap_frame st st2) as Hf by (by eapply heap_frame_trans).
  split_and!; try done.
  change (Key (load st2 kf)) with (key_of st2 kf).
  fold (key_of st1 (minHeap t !!! 0%nat)).
  by rewrite (key_of_frame st st2), (key_of_frame st st1).
Qed.

Lemma processKeyFreq_drop st t kf :
  topN t ≤ len (minHeap t) → 0 < len (minHeap t) →
  freq_of st kf < freq_of st (minHeap t !!! 0%nat) →
  processKeyFreq st t kf = Ok (st, t).
Proof.
  intros Hfull Hne Hlt. unfold processKeyFreq.
  destruct (Z.ltb_spec (len (minHeap t)) (topN t)); [lia|].
  rewrite index_Ok by lia. simpl. change (Z.to_nat 0) with 0%nat.
  unfold freq_of in Hlt.
  destruct (Z.leb_spec (Frequency (load st (minHeap t !!! 0%nat)))
              (Frequency (load st kf))); [lia|done].
Qed.

Lemma processKeyFreq_empty st t kf :
  topN t ≤ 0 → minHeap t = [] → processKeyFreq st t kf = Panic.
Proof.
  intros Hn He. unfold processKeyFreq. rewrite He. simpl.
  destruct (Z.ltb_spec (len (@nil ptr)) (topN t)); [unfold len in *; simpl in *; lia|].
  done.
Qed.

(** ** The lookup table follows the heap *)

Lemma shard_wf_table st s : shard_wf st s → table_ok st (minHeap s) (keyFreqs s).
Proof. intros [W1 W2 W3 _ _]. by split_and!. Qed.

Lemma table_ok_perm st h h' m : h' ≡ₚ h → table_ok st h m → table_ok st h' m.
Proof.
  intros Hp (T1 & T2 & T3). split_and!.
  - by rewrite Hp.
  - intros k p. rewrite T2. by rewrite Hp.
  - intros p. rewrite Hp. apply T3.
Qed.

Lemma table_ok_frame st st' h m :
  heap_frame st st' → table_ok st h m → table_ok st' h m.
Proof.
  intros Hf (T1 & T2 & T3). split_and!; [done| |].
  - intros k p. rewrite T2. by rewrite (key_of_frame st st').
  - intros p Hp. destruct Hf as [-> _]. by apply T3.
Qed.

Lemma table_ok_insert st h h' m kf :
  table_ok st h m → (kf < length st)%nat → m !! key_of st kf = None →
  h' ≡ₚ kf :: h → table_ok st h' (<[key_of st kf := kf]> m).
Proof.
  intros (T1 & T2 & T3) Hkf Hnone Hp.
  assert (kf ∉ h) as Hnin.
  { intros Hin. assert (m !! key_of st kf = Some kf) by (by apply T2).
    congruence. }
  apply (table_ok_perm st (kf :: h)); [done|]. split_and!.
  - by constructor.
  - intros k p. rewrite lookup_insert. case_decide as Hk.
    + subst k. rewrite elem_of_cons. split.
      * intros [= <-]. auto.
      * intros [[->|Hin] Hkp]; [done|].
        assert (m !! key_of st kf = Some p) by (by apply T2). congruence.
    + rewrite T2, elem_of_cons. split; [intros [? ?]; auto|].
      intros [[->|Hin] Hkp]; [done|auto].
  - intros p [->|Hin]%elem_of_cons; auto.
Qed.

Lemma table_ok_delete st h h1 m r :
  table_ok st h m → h ≡ₚ r :: h1 → table_ok st h1 (delete (key_of st r) m).
Proof.
  intros T Hp. apply (table_ok_perm st h (r :: h1)) in T; [|by symmetry].
  destruct T as (T1 & T2 & T3). apply NoDup_cons in T1 as [Hr T1].
  split_and!; [done| |].
  - intros k p. rewrite lookup_delete. case_decide as Hk.
    + subst k. split; [done|]. intros [Hin Hkp].
      assert (m !! key_of st r = Some p) as H1.
      { apply T2. split; [by apply list_elem_of_further|done]. }
      assert (m !! key_of st r = Some r) as H2.
      { apply T2. split; [by apply list_elem_of_here|done]. }
      assert (p = r) by congruence. by subst.
    + rewrite T2, elem_of_cons. split; [|intros [? ?]; auto].
      intros [[->|Hin] Hkp]; [done|auto].
  - intros p Hin. apply T3. by apply list_elem_of_further.
Qed.

(** [processKeyFreq] on a well-formed shard with room for a positive number
    of records and a record whose key the shard does not hold. *)
Lemma processKeyFreq_wf st t kf :
  shard_wf st t → 0 < topN t → (kf < length st)%nat →
  keyFreqs t !! key_of st kf = None →
  ∃ st' t',
    processKeyFreq st t kf = Ok (st', t') ∧ heap_frame st st' ∧
    shard_wf st' t' ∧ topN t' = topN t ∧
    (∀ p, p ∈ minHeap t' → p = kf ∨ p ∈ minHeap t) ∧
    (∀ k p, keyFreqs t' !! k = Some p →
            k = key_of st kf ∨ keyFreqs t !! k = Some p).
Proof.
  intros W Hn Hkf Hnone. pose proof (shard_wf_table _ _ W) as T.
  destruct (Z.lt_ge_cases (len (minHeap t)) (topN t)) as [Hroom|Hfull].
  - destruct (processKeyFreq_room st t kf Hroom) as (st' & h' & -> & Hf & Hp).
    eexists _, _. split_and!; [done|done| |done| |]; simpl.
    + pose proof (table_ok_frame _ _ _ _ Hf
        (table_ok_insert _ _ _ _ _ T Hkf Hnone Hp)) as (T1 & T2 & T3).
      split; simpl; try done.
      * rewrite (len_perm _ _ Hp). pose proof (len_app [kf] (minHeap t)) as Hl.
        simpl in Hl. unfold len in *. simpl in *. lia.
      * apply (wf_mu _ _ W).
    + intros p. rewrite Hp. by intros [->|?]%elem_of_cons; auto.
    + intros k p. rewrite lookup_insert. case_decide; auto.
  - assert (0 < len (minHeap t)) as Hne by lia.
    destruct (Z.le_gt_cases (freq_of st (minHeap t !!! 0%nat)) (freq_of st kf))
      as [Hle|Hgt].
    + destruct (processKeyFreq_evict st t kf Hfull Hne Hle)
        as (st' & h1 & h' & -> & Hf & Hp1 & Hp).
      eexists _, _. split_and!; [done|done| |done| |]; simpl.
      * pose proof (table_ok_delete _ _ _ _ _ T Hp1) as Td.
        assert (delete (key_of st (minHeap t !!! 0%nat)) (keyFreqs t)
                  !! key_of st kf = None) as Hnone'.
        { rewrite lookup_delete. by case_decide. }
        pose proof (table_ok_frame _ _ _ _ Hf
          (table_ok_insert _ _ _ _ _ Td Hkf Hnone' Hp)) as (T1 & T2 & T3).
        split; simpl; try done.
        -- rewrite (len_perm _ _ Hp). pose proof (wf_size _ _ W) as Hs.
           rewrite (len_perm _ _ Hp1) in Hs. unfold len in *. simpl in *. lia.
        -- apply (wf_mu _ _ W).
      * intros p. rewrite Hp, Hp1. rewrite !elem_of_cons. intros [->|?]; auto.
      * intros k p. rewrite lookup_insert. case_decide; [auto|].
        rewrite lookup_delete. case_decide; [done|auto].
    + rewrite (processKeyFreq_drop st t kf Hfull Hne Hgt).
      exists st, t. split_and!; auto with frame.
Qed.

(** ** [shard.RecordRequest] *)

Lemma load_set_Frequency st kf f p :
  load (set_Frequency st kf f) p =
  if decide (kf = p ∧ (kf < length st)%nat)
  then with_Frequency f (load st p) else load st p.
Proof. apply load_alter. Qed.

Lemma idx_ok_frame st st' : heap_frame st st' → idx_ok st → idx_ok st'.
Proof. intros [_ Hf] Hi p. apply Hf, Hi. Qed.

Lemma idx_ok_set_Frequency st kf f : idx_ok st → idx_ok (set_Frequency st kf f).
Proof.
  intros Hi p. rewrite load_set_Frequency. case_decide; simpl; apply Hi.
Qed.

Lemma idx_ok_alloc st k f : idx_ok st → idx_ok (st ++ [mkKeyFreq k f 0]).
Proof.
  intros Hi p. destruct (Nat.lt_trichotomy p (length st)) as [Hlt|[->|Hgt]].
  - rewrite load_app_l by done. apply Hi.
  - by rewrite load_app_new.
  - unfold load. rewrite lookup_total_app_r by lia.
    destruct (p - length st)%nat as [|n] eqn:E; [lia|]. done.
Qed.

(** The record of a tracked key gets its frequency incremented, the heap is
    permuted, and nothing else changes but [Index] fields. *)
Lemma RecordRequest_hit_spec st s key kf :
  mu s = unlocked → keyFreqs s !! key = Some kf →
  (kf < length st)%nat → -1 ≤ Index (load st kf) →
  ∃ st' h',
    shard_RecordRequest st s key
      = Ok (st', mkShard (topN s) h' (keyFreqs s) (mu s)) ∧
    h' ≡ₚ minHeap s ∧
    heap_frame (set_Frequency st kf (wrap_int (freq_of st kf + 1))) st'.
Proof.
  intros Hmu Hkf Hal Hidx. unfold shard_RecordRequest.
  rewrite Hmu. simpl. rewrite Hkf.
  set (st1 := set_Frequency st kf _).
  assert (Index (load st1 kf) = Index (load st kf)) as Hi1.
  { unfold st1. rewrite load_set_Frequency. by case_decide. }
  destruct (Fix_frame st1 (minHeap s) (Index (load st1 kf)))
    as (st2 & h2 & -> & Hf2 & Hp2); [lia|].
  simpl. by exists st2, h2.
Qed.

Lemma RecordRequest_miss_unfold st s key :
  mu s = unlocked → keyFreqs s !! key = None →
  shard_RecordRequest st s key =
    (r <- processKeyFreq (st ++ [mkKeyFreq key 1 0])
            (set_mu (mkRWMutex 0 true) s) (length st) ;;
     m2 <- Unlock (mu r.2) ;;
     Ok (r.1, set_mu m2 r.2)).
Proof.
  intros Hmu Hkf. unfold shard_RecordRequest. rewrite Hmu. simpl.
  by rewrite Hkf.
Qed.

Lemma key_of_alloc st key f i : key_of (st ++ [mkKeyFreq key f i]) (length st) = key.
Proof. unfold key_of. by rewrite load_app_new. Qed.

Lemma freq_of_alloc st key f i : freq_of (st ++ [mkKeyFreq key f i]) (length st) = f.
Proof. unfold freq_of. by rewrite load_app_new. Qed.

Lemma freq_of_alloc_old st r p :
  (p < length st)%nat → freq_of (st ++ [r]) p = freq_of st p.
Proof. intros. unfold freq_of. by rewrite load_app_l. Qed.

Lemma key_of_alloc_old st r p :
  (p < length st)%nat → key_of (st ++ [r]) p = key_of st p.
Proof. intros. unfold key_of. by rewrite load_app_l. Qed.

(** Any request on a well-formed shard of positive capacity returns and
    leaves a well-formed shard. *)
Lemma shard_RecordRequest_wf st s key :
  shard_wf st s → 0 < topN s → idx_ok st →
  ∃ st' s',
    shard_RecordRequest st s key = Ok (st', s') ∧
    store_le st st' ∧ shard_wf st' s' ∧ topN s' = topN s ∧ idx_ok st' ∧
    (∀ k p, keyFreqs s' !! k = Some p → k = key ∨ keyFreqs s !! k = Some p).
Proof.
  intros W Hn Hi. destruct (keyFreqs s !! key) as [kf|] eqn:Hkf.
  - assert (kf ∈ minHeap s ∧ key_of st kf = key) as [Hin Hk].
    { by apply (wf_map _ _ W). }
    destruct (RecordRequest_hit_spec st s key kf)
      as (st' & h' & -> & Hp & Hf); [apply W|done|by apply W|apply Hi|].
    eexists _, _. split; [done|].
    assert (store_le st st') as Hle.
    { eapply store_le_trans; [apply store_le_set_Frequency|].
      by apply heap_frame_store_le. }
    split_and!; simpl; auto.
    + apply (shard_wf_store_le st); [done|].
      destruct W as [W1 W2 W3 W4 W5]. split; simpl; try done.
      * by rewrite Hp.
      * intros k p. rewrite W2. by rewrite Hp.
      * intros p. rewrite Hp. apply W3.
      * by rewrite (len_perm _ _ Hp).
    + eapply idx_ok_frame; [done|]. by apply idx_ok_set_Frequency.
  - rewrite RecordRequest_miss_unfold by (done || apply W).
    set (st0 := st ++ [mkKeyFreq key 1 0]).
    set (t := set_mu (mkRWMutex 0 true) s).
    assert (topN t = topN s) as Et1 by done.
    assert (len (minHeap t) = len (minHeap s)) as Et2 by done.
    assert (table_ok st0 (minHeap s) (keyFreqs s)) as T0.
    { apply shard_wf_table. apply (shard_wf_store_le st); [|done].
      apply store_le_alloc. }
    destruct (Z.lt_ge_cases (len (minHeap t)) (topN t)) as [Hroom|Hfull].
    + destruct (processKeyFreq_room st0 t (length st) Hroom)
        as (st' & h' & -> & Hf & Hp).
      simpl. eexists _, _. split; [done|].
      unfold st0 in *. rewrite key_of_alloc in *.
      split_and!; simpl; auto.
      * eapply store_le_trans; [apply store_le_alloc|].
        by apply heap_frame_store_le.
      * pose proof (table_ok_frame _ _ _ _ Hf
          (table_ok_insert _ _ _ (keyFreqs s) (length st) T0
             ltac:(rewrite length_app; simpl; lia)
             ltac:(by rewrite key_of_alloc)
             Hp)) as (T1 & T2 & T3).
        rewrite key_of_alloc in T2.
        split; simpl; try done.
        rewrite (len_perm _ _ Hp), len_cons. lia.
      * eapply idx_ok_frame; [done|]. by apply idx_ok_alloc.
      * intros k p. rewrite lookup_insert. case_decide; auto.
    + assert (0 < len (minHeap t)) as Hne by lia.
      destruct (Z.le_gt_cases (freq_of st0 (minHeap t !!! 0%nat))
                  (freq_of st0 (length st))) as [Hle|Hgt].
      * destruct (processKeyFreq_evict st0 t (length st) Hfull Hne Hle)
          as (st' & h1 & h' & -> & Hf & Hp1 & Hp).
        simpl. eexists _, _. split; [done|].
        unfold st0 in *. rewrite key_of_alloc in *.
        split_and!; simpl; auto.
        -- eapply store_le_trans; [apply store_le_alloc|].
           by apply heap_frame_store_le.
        -- pose proof (table_ok_delete _ _ _ _ _ T0 Hp1) as Td.
           pose proof (table_ok_frame _ _ _ _ Hf
             (table_ok_insert _ _ _ _ (length st) Td
                ltac:(rewrite length_app; simpl; lia)
                ltac:(rewrite key_of_alloc, lookup_delete; by case_decide)
                Hp)) as (T1 & T2 & T3).
           rewrite key_of_alloc in T2.
           split; simpl; try done.
           rewrite (len_perm _ _ Hp). pose proof (wf_size _ _ W) as Hs.
           rewrite <- Et2, (len_perm _ _ Hp1) in Hs.
           rewrite len_cons in *. lia.
        -- eapply idx_ok_frame; [done|]. by apply idx_ok_alloc.
        -- intros k p. rewrite lookup_insert. case_decide; [auto|].
           rewrite lookup_delete. case_decide; [done|auto].
      * rewrite (processKeyFreq_drop st0 t (length st) Hfull Hne Hgt).
        simpl. eexists _, _. split; [done|].
        split_and!; simpl; auto.
        -- apply store_le_alloc.
        -- apply (shard_wf_store_le st); [apply store_le_alloc|].
           by destruct s, W.
        -- by apply idx_ok_alloc.
Qed.

(** ** Requests keep the heap of a shard in order

    As long as [Index] follows the positions of the heap, a request leaves
    the heap in order, and leaves alone the records that the shard does not
    hold. *)
Lemma length_set_Frequency st p f : length (set_Frequency st p f) = length st.
Proof. apply length_alter. Qed.

Lemma shard_ordered_agree st st' s :
  (length st ≤ length st')%nat →
  (∀ q, q ∈ minHeap s → load st' q = load st q) →
  shard_ordered st s → shard_ordered st' s.
Proof.
  intros Hlen Hag [Hh [Hnd Hidx]].
  assert (∀ k, 0 ≤ k < len (minHeap s) →
               fq st' (minHeap s) k = fq st (minHeap s) k) as Hfq.
  { intros k Hk. unfold fq. rewrite Hag; [done|].
    apply list_elem_of_lookup_total_2. unfold len in Hk. lia. }
  split.
  - intros i j Hi Hj Hjn. rewrite !Hfq by lia. by apply Hh.
  - split; [done|]. intros i p Hip. destruct (Hidx i p Hip) as [Hal HI].
    rewrite Hag by (by eapply list_elem_of_lookup_2). split; [lia|done].
Qed.

Lemma shard_RecordRequest_hit_ordered st s key kf st' s' :
  shard_wf st s → shard_ordered st s → keyFreqs s !! key = Some kf →
  shard_RecordRequest st s key = Ok (st', s') →
  shard_ordered st' s' ∧
  ∀ q, (q < length st)%nat → q ∉ minHeap s → load st' q = load st q.
Proof.
  intros W [Hh [Hnd Hidx]] Hkf.
  assert (kf ∈ minHeap s ∧ key_of st kf = key) as [Hin _]
    by (by apply (wf_map _ _ W)).
  apply list_elem_of_lookup in Hin as [i Hikf].
  destruct (Hidx i kf Hikf) as [Hal HI].
  apply lookup_lt_Some in Hikf as Hilt.
  unfold shard_RecordRequest. rewrite (wf_mu _ _ W). simpl. rewrite Hkf.
  set (st1 := set_Frequency st kf _).
  assert (Index (load st1 kf) = Z.of_nat i) as ->.
  { unfold st1. rewrite load_set_Frequency. by case_decide. }
  assert (index_ok st1 (minHeap s)) as Hi1.
  { split; [done|]. intros j p Hjp. destruct (Hidx j p Hjp). unfold st1.
    rewrite load_set_Frequency, length_set_Frequency.
    split; [done|]. by case_decide. }
  assert (∀ k, 0 ≤ k < len (minHeap s) → k ≠ Z.of_nat i →
               fq st1 (minHeap s) k = fq st (minHeap s) k) as Hfq.
  { intros k Hk Hne. unfold fq, st1. rewrite load_set_Frequency.
    case_decide as Hd; [|done]. destruct Hd as [Hd _]. exfalso. apply Hne.
    assert (minHeap s !! Z.to_nat k = Some kf) as Hk'.
    { rewrite Hd. apply list_lookup_lookup_total_lt. unfold len in Hk. lia. }
    pose proof (NoDup_lookup _ _ _ _ Hnd Hk' Hikf). lia. }
  assert (0 ≤ Z.of_nat i < len (minHeap s)) as Hi by (unfold len; lia).
  destruct (Fix_heap st1 (minHeap s) (Z.of_nat i))
    as (st2 & h2 & HF & Hf2 & Hh2 & Hp2); [done| |].
  { split.
    - intros k c Hk Hki Hci Hc Hcn. rewrite !Hfq by lia. apply Hh; lia.
    - intros k c Hk Hik Hc Hcn. rewrite !Hfq by lia.
      transitivity (fq st (minHeap s) (Z.of_nat i)); apply Hh; lia. }
  rewrite HF. simpl. intros [= <- <-]. simpl.
  destruct (Fix_index_ok _ _ _ _ _ Hi1 HF) as (Hi2 & _ & Ho2).
  split; [by split|].
  intros q Hq Hqh. rewrite Ho2 by done. unfold st1.
  rewrite load_set_Frequency. case_decide as Hd; [|done].
  destruct Hd as [-> _]. exfalso. apply Hqh. by eapply list_elem_of_lookup_2.
Qed.

Lemma shard_RecordRequest_miss_ordered st s key st' s' :
  shard_wf st s → shard_ordered st s → keyFreqs s !! key = None →
  shard_RecordRequest st s key = Ok (st', s') →
  shard_ordered st' s' ∧
  ∀ q, (q < length st)%nat → q ∉ minHeap s → load st' q = load st q.
Proof.
  intros W Hord Hkf.
  rewrite RecordRequest_miss_unfold by (done || apply W).
  set (st0 := st ++ [mkKeyFreq key 1 0]).
  set (t := set_mu (mkRWMutex 0 true) s).
  assert (length st0 = S (length st)) as Hl0.
  { unfold st0. rewrite length_app. simpl. lia. }
  assert (shard_ordered st0 s) as [Hh0 Hi0].
  { apply (shard_ordered_agree st); [lia| |done].
    intros q Hq. apply load_app_l. by apply (wf_alloc _ _ W). }
  assert (length st ∉ minHeap s) as Hfresh.
  { intros Hin. apply (wf_alloc _ _ W) in Hin. lia. }
  assert (∀ q, (q < length st)%nat → load st0 q = load st q) as Hold.
  { intros q Hq. by apply load_app_l. }
  intros (r & HP & Hrest)%bind_Ok. revert HP. unfold processKeyFreq.
  change (minHeap t) with (minHeap s). change (topN t) with (topN s).
  destruct (Z.ltb_spec (len (minHeap s)) (topN s)).
  - intros ([st1 h1] & HPush & HP)%bind_Ok. injection HP as <-.
    simpl in Hrest. injection Hrest as <- <-. simpl.
    destruct (Push_heap st0 (minHeap s) (length st) Hh0)
      as (st1' & h1' & HPush' & _ & Hh1 & _).
    rewrite HPush' in HPush. injection HPush as -> ->.
    destruct (Push_index_ok _ _ _ _ _ Hi0 Hfresh ltac:(lia) HPush')
      as [Hi1 Ho1].
    split; [by split|]. intros q Hq Hqh. rewrite Ho1; [by apply Hold|].
    intros [->|Hin]%elem_of_cons; [lia|done].
  - intros (root & Hroot & HP)%bind_Ok.
    assert (0 < len (minHeap s)) as Hne.
    { unfold index in Hroot. simpl in Hroot.
      change (Z.to_nat 0) with 0%nat in Hroot.
      destruct (minHeap s !! 0%nat) eqn:E0; [|done].
      apply lookup_lt_Some in E0. unfold len. lia. }
    destruct (_ <=? _).
    + apply bind_Ok in HP as ([[st1 h1] minKey] & HPop & HP). simpl in HP.
      apply bind_Ok in HP as ([st2 h2] & HPush & HP). injection HP as <-.
      simpl in Hrest. injection Hrest as <- <-. simpl.
      destruct (Pop_heap st0 (minHeap s) Hne Hh0)
        as (st1' & h1' & HPop' & Hf1 & Hh1 & Hp1).
      rewrite HPop' in HPop. injection HPop as -> -> _.
      destruct (Pop_index_ok _ _ _ _ _ Hi0 HPop') as [Hi1 Ho1].
      assert (∀ q, q ∈ h1 → q ∈ minHeap s) as Hsub.
      { intros q Hq. rewrite Hp1. by apply list_elem_of_further. }
      destruct (Push_heap st1 h1 (length st) Hh1)
        as (st2' & h2' & HPush' & _ & Hh2 & _).
      rewrite HPush' in HPush. injection HPush as -> ->.
      destruct (Push_index_ok st1 h1 (length st) st2 h2 Hi1) as [Hi2 Ho2].
      { intros Hin. by apply Hfresh, Hsub. }
      { destruct Hf1 as [-> _]. lia. }
      { done. }
      split; [by split|]. intros q Hq Hqh.
      rewrite Ho2, Ho1; [by apply Hold|done|].
      intros [->|Hin]%elem_of_cons; [lia|]. by apply Hqh, Hsub.
    + injection HP as <-. simpl in Hrest. injection Hrest as <- <-.
      split; [by split|]. intros q Hq _. by apply Hold.
Qed.

(** ** Aggregation *)

Section aggregate.
Variable U : ptr → Prop.

Lemma key_inj_frame st st' :
  heap_frame st st' → key_inj U st → key_inj U st'.
Proof.
  intros Hf Hk p q Hp Hq. rewrite !(key_of_frame st st') by done.
  by apply Hk.
Qed.

Lemma aggregate_heap_wf st t kfs :
  shard_wf st t → 0 < topN t → key_inj U st →
  NoDup kfs → (∀ p, p ∈ kfs → (p < length st)%nat ∧ U p) →
  (∀ p, p ∈ minHeap t → U p ∧ p ∉ kfs) →
  ∃ st' t',
    aggregate_heap st t kfs = Ok (st', t') ∧ heap_frame st st' ∧
    shard_wf st' t' ∧ topN t' = topN t ∧
    (∀ p, p ∈ minHeap t' → p ∈ minHeap t ∨ p ∈ kfs).
Proof.
  revert st t. induction kfs as [|kf kfs IH]; intros st t W Hn HU Hnd Hk Ht.
  { exists st, t. simpl. split_and!; auto with frame. }
  simpl. apply NoDup_cons in Hnd as [Hkf Hnd].
  destruct (Hk kf) as [Hal HUkf]; [by apply list_elem_of_here|].
  assert (keyFreqs t !! key_of st kf = None) as Hnone.
  { destruct (keyFreqs t !! key_of st kf) as [p|] eqn:E; [|done].
    apply (wf_map _ _ W) in E as [Hin Hkey].
    destruct (Ht p Hin) as [HUp Hnin].
    assert (p = kf) by (by apply HU). subst p.
    exfalso. apply Hnin. by apply list_elem_of_here. }
  destruct (processKeyFreq_wf st t kf W Hn Hal Hnone)
    as (st1 & t1 & -> & Hf1 & W1 & Hn1 & Hsub1 & _).
  simpl.
  destruct (IH st1 t1) as (st2 & t2 & -> & Hf2 & W2 & Hn2 & Hsub2);
    [done|lia|by eapply key_inj_frame|done| | |].
  { intros p Hp. destruct (Hk p) as [? ?]; [by apply list_elem_of_further|].
    destruct Hf1 as [-> _]. done. }
  { intros p Hp. destruct (Hsub1 p Hp) as [->|Hin]; [done|].
    destruct (Ht p Hin) as [? Hnin]. split; [done|].
    intros ?. apply Hnin. by apply list_elem_of_further. }
  exists st2, t2. split_and!; [done|by eapply heap_frame_trans|done|lia|].
  intros p Hp. rewrite elem_of_cons.
  destruct (Hsub2 p Hp) as [Hin|Hin]; [|auto].
  destruct (Hsub1 p Hin); auto.
Qed.

Lemma aggregate_loop_wf st t shards :
  shard_wf st t → 0 < topN t → key_inj U st →
  (∀ s, s ∈ shards → mu s = unlocked) →
  NoDup (concat (minHeap <$> shards)) →
  (∀ p, p ∈ concat (minHeap <$> shards) → (p < length st)%nat ∧ U p) →
  (∀ p, p ∈ minHeap t → U p ∧ p ∉ concat (minHeap <$> shards)) →
  ∃ st' t',
    aggregate_loop st t shards = Ok (st', t', shards) ∧ heap_frame st st' ∧
    shard_wf st' t' ∧ topN t' = topN t ∧
    (∀ p, p ∈ minHeap t' →
          p ∈ minHeap t ∨ p ∈ concat (minHeap <$> shards)).
Proof.
  revert st t.
  induction shards as [|s shards IH]; intros st t W Hn HU Hmu Hnd Hk Ht.
  { exists st, t. simpl. split_and!; auto with frame. }
  simpl in *. rewrite (Hmu s) by apply list_elem_of_here. simpl.
  apply NoDup_app in Hnd as (Hnd1 & Hdisj & Hnd2).
  destruct (aggregate_heap_wf st t (minHeap s))
    as (st1 & t1 & -> & Hf1 & W1 & Hn1 & Hsub1); [done..| | |].
  { intros p Hp. apply Hk. apply elem_of_app. auto. }
  { intros p Hp. destruct (Ht p Hp) as [? Hnin]. split; [done|].
    intros ?. apply Hnin. apply elem_of_app. auto. }
  simpl.
  destruct (IH st1 t1) as (st2 & t2 & -> & Hf2 & W2 & Hn2 & Hsub2);
    [done|lia|by eapply key_inj_frame| |done| | |].
  { intros s' Hs'. apply Hmu. by apply list_elem_of_further. }
  { intros p Hp. destruct (Hk p) as [? ?]; [apply elem_of_app; auto|].
    destruct Hf1 as [-> _]. done. }
  { intros p Hp. destruct (Hsub1 p Hp) as [Hin|Hin].
    - destruct (Ht p Hin) as [? Hnin]. split; [done|].
      intros ?. apply Hnin. apply elem_of_app. auto.
    - split; [apply Hk; apply elem_of_app; auto|]. by apply Hdisj. }
  simpl. exists st2, t2. split_and!.
  - do 3 f_equal. destruct s as [n h m mu0]. simpl.
    unfold set_mu. simpl. f_equal. symmetry.
    apply (Hmu (mkShard n h m mu0)). apply list_elem_of_here.
  - by eapply heap_frame_trans.
  - done.
  - lia.
  - intros p Hp. rewrite elem_of_app.
    destruct (Hsub2 p Hp) as [Hin|Hin]; [|auto].
    destruct (Hsub1 p Hin); auto.
Qed.

End aggregate.

(** ** Well-formed trackers *)

Lemma elem_of_concat {A} (ls : list (list A)) (x : A) :
  x ∈ concat ls ↔ ∃ l, x ∈ l ∧ l ∈ ls.
Proof.
  induction ls as [|l ls IH]; simpl.
  - split; [by intros ?%elem_of_nil|]. by intros (l & _ & ?%elem_of_nil).
  - rewrite elem_of_app, IH. split.
    + intros [Hx|(l' & Hx & Hl')].
      * exists l. split; [done|]. apply list_elem_of_here.
      * exists l'. split; [done|]. by apply list_elem_of_further.
    + intros (l' & Hx & [->|Hl']%elem_of_cons); eauto.
Qed.

Lemma elem_of_all_ptrs shards p :
  p ∈ all_ptrs shards ↔ ∃ i s, shards !! i = Some s ∧ p ∈ minHeap s.
Proof.
  unfold all_ptrs. rewrite elem_of_concat. split.
  - intros (h & Hp & Hh). apply list_elem_of_fmap in Hh as (s & -> & Hs).
    apply list_elem_of_lookup in Hs as [i Hi]. eauto.
  - intros (i & s & Hi & Hp). exists (minHeap s). split; [done|].
    apply list_elem_of_fmap. exists s. split; [done|].
    by eapply list_elem_of_lookup_2.
Qed.

Lemma NoDup_concat_index {A} (ls : list (list A)) :
  (∀ i l, ls !! i = Some l → NoDup l) →
  (∀ i j l l' x, ls !! i = Some l → ls !! j = Some l' →
                 x ∈ l → x ∈ l' → i = j) →
  NoDup (concat ls).
Proof.
  induction ls as [|l ls IH]; intros Hnd Hdisj; simpl; [constructor|].
  apply NoDup_app. split_and!.
  - by apply (Hnd 0%nat).
  - intros x Hx Hin. apply elem_of_concat in Hin as (l' & Hx' & Hl').
    apply list_elem_of_lookup in Hl' as [j Hj].
    by specialize (Hdisj 0%nat (S j) l l' x eq_refl Hj Hx Hx').
  - apply IH.
    + intros i l' Hi. by apply (Hnd (S i)).
    + intros i j l1 l2 x Hi Hj H1 H2.
      by specialize (Hdisj (S i) (S j) l1 l2 x Hi Hj H1 H2) as [= ->].
Qed.

Section tracker_facts.
Context (st : store) (ht : HotspotTracker) (W : tracker_wf (st, ht)).

Lemma twf_same_shard i j s s' p q :
  ht_shards ht !! i = Some s → ht_shards ht !! j = Some s' →
  p ∈ minHeap s → q ∈ minHeap s' → key_of st p = key_of st q →
  i = j ∧ p = q.
Proof.
  intros Hi Hj Hp Hq Hk.
  destruct (twf_shard _ W i s Hi) as (Ws & _ & Hr).
  destruct (twf_shard _ W j s' Hj) as (Ws' & _ & Hr').
  assert (keyFreqs s !! key_of st p = Some p) as H1.
  { by apply (wf_map _ _ Ws). }
  assert (keyFreqs s' !! key_of st p = Some q) as H2.
  { by apply (wf_map _ _ Ws'). }
  apply Hr in H1 as E1. apply Hr' in H2 as E2. simpl in *.
  assert (i = j) by lia. subst j. split; [done|].
  congruence.
Qed.

Lemma twf_key_inj : key_inj (λ p, p ∈ all_ptrs (ht_shards ht)) st.
Proof.
  intros p q (i & s & Hi & Hp)%elem_of_all_ptrs
    (j & s' & Hj & Hq)%elem_of_all_ptrs Hk.
  by destruct (twf_same_shard i j s s' p q).
Qed.

Lemma twf_NoDup : NoDup (all_ptrs (ht_shards ht)).
Proof.
  apply NoDup_concat_index.
  - intros i l (s & -> & Hs)%list_lookup_fmap_Some.
    destruct (twf_shard _ W i s Hs) as (Ws & _). apply Ws.
  - intros i j l l' x (s & -> & Hs)%list_lookup_fmap_Some
      (s' & -> & Hs')%list_lookup_fmap_Some Hx Hx'.
    by destruct (twf_same_shard i j s s' x x).
Qed.

Lemma twf_alloc p : p ∈ all_ptrs (ht_shards ht) → (p < length st)%nat.
Proof.
  intros (i & s & Hi & Hp)%elem_of_all_ptrs.
  destruct (twf_shard _ W i s Hi) as (Ws & _). by apply Ws.
Qed.

(** The key held by a record of some shard is tracked by the shard the
    key is routed to. *)
Lemma twf_route p :
  p ∈ all_ptrs (ht_shards ht) →
  ∃ s, ht_shards ht !! Z.to_nat (Z.rem (fnv32a (key_of st p)) (ht_numShards ht))
         = Some s ∧
       keyFreqs s !! key_of st p = Some p.
Proof.
  intros (i & s & Hi & Hp)%elem_of_all_ptrs.
  destruct (twf_shard _ W i s Hi) as (Ws & _ & Hr).
  assert (keyFreqs s !! key_of st p = Some p) as H1.
  { by apply (wf_map _ _ Ws). }
  specialize (Hr _ _ H1). simpl in Hr. rewrite Hr, Nat2Z.id. eauto.
Qed.

End tracker_facts.

Lemma set_shards_id ht : set_shards (ht_shards ht) ht = ht.
Proof. by destruct ht. Qed.

Lemma aggregateShards_set_ht_mu st ht m :
  aggregateShards st (set_ht_mu m ht) =
  (r <- aggregateShards st ht ;; Ok (r.1.1, set_ht_mu m r.1.2, r.2)).
Proof.
  unfold aggregateShards. simpl.
  by destruct (aggregate_loop st (NewShard (ht_topN ht)) (ht_shards ht)).
Qed.

Lemma aggregateShards_wf st ht :
  tracker_wf (st, ht) →
  ∃ st' agg,
    aggregateShards st ht = Ok (st', ht, agg) ∧ heap_frame st st' ∧
    shard_wf st' agg ∧ topN agg = ht_topN ht ∧
    (∀ p, p ∈ minHeap agg → p ∈ all_ptrs (ht_shards ht)).
Proof.
  intros W. unfold aggregateShards.
  destruct (aggregate_loop_wf (λ p, p ∈ all_ptrs (ht_shards ht))
              st (NewShard (ht_topN ht)) (ht_shards ht))
    as (st' & agg & -> & Hf & Wa & Hn & Hsub).
  - apply shard_wf_NewShard. pose proof (twf_topN _ W). simpl in *. lia.
  - apply (twf_topN _ W).
  - apply (twf_key_inj st ht W).
  - intros s (i & Hi)%list_elem_of_lookup.
    destruct (twf_shard _ W i s Hi) as (Ws & _). apply Ws.
  - apply (twf_NoDup st ht W).
  - intros p Hp. split; [by apply (twf_alloc st ht W)|done].
  - intros p Hp. simpl in Hp. by apply elem_of_nil in Hp.
  - simpl. rewrite set_shards_id. exists st', agg. split_and!; try done.
    intros p Hp. destruct (Hsub p Hp) as [Hin|Hin]; [|done].
    simpl in Hin. by apply elem_of_nil in Hin.
Qed.

(** Without the cache [AggregateData] is [aggregateShards] between
    [RLock] and [RUnlock]; with the cache the write lock is requested while
    the read lock taken two lines earlier is still held. *)
Lemma AggregateData_nocache st ht :
  tracker_wf (st, ht) → ht_withCache ht = false →
  ∃ st' agg,
    AggregateData st ht = Ok (st', ht, agg) ∧ heap_frame st st' ∧
    shard_wf st' agg ∧ topN agg = ht_topN ht ∧
    (∀ p, p ∈ minHeap agg → p ∈ all_ptrs (ht_shards ht)).
Proof.
  intros W Hc. unfold AggregateData.
  pose proof (twf_mu _ W) as Hmu. simpl in Hmu. rewrite Hmu. simpl.
  rewrite Hc. rewrite aggregateShards_set_ht_mu.
  destruct (aggregateShards_wf st ht W) as (st' & agg & -> & Hf & Wa & Hn & Hs).
  simpl. exists st', agg. split_and!; try done.
  do 3 f_equal. destruct ht. simpl in *. by subst.
Qed.

Lemma AggregateData_cache st ht :
  ht_withCache ht = true → AggregateData st ht = Blocked.
Proof.
  intros Hc. unfold AggregateData, RLock.
  destruct (writer (ht_mu ht)); [done|]. simpl. by rewrite Hc.
Qed.

(** ** The tracker-level reads *)

Lemma reads_spec st ht :
  tracker_wf (st, ht) → ht_withCache ht = false →
  ∃ st1 st2 agg ps,
    AggregateData st ht = Ok (st1, ht, agg) ∧
    GetHotspots st ht = Ok (st2, ht, key_of st <$> ps) ∧
    (∀ key, IsHotspot st ht key
            = Ok (st1, ht, bool_decide (is_Some (keyFreqs agg !! key)))) ∧
    heap_frame st st1 ∧ heap_frame st st2 ∧
    shard_wf st1 agg ∧ topN agg = ht_topN ht ∧ ps ≡ₚ minHeap agg ∧
    (∀ p, p ∈ ps → p ∈ all_ptrs (ht_shards ht)) ∧
    StronglySorted (λ p q, freq_of st p ≤ freq_of st q) ps.
Proof.
  intros W Hc.
  destruct (AggregateData_nocache st ht W Hc)
    as (st1 & agg & HA & Hf1 & Wa & Hn & Hsub).
  destruct (shard_GetHotspots_spec st1 agg) as (st2 & ps & HG & Hf2 & Hp & Hs).
  exists st1, st2, agg, ps. split_and!; try done.
  - unfold GetHotspots. rewrite HA. simpl. rewrite HG. simpl.
    do 2 f_equal. apply list_fmap_ext. intros ? p _. by apply key_of_frame.
  - intros key. unfold IsHotspot. rewrite HA. simpl.
    unfold shard_IsHotspot. rewrite (wf_mu _ _ Wa). simpl. by rewrite Hc.
  - by eapply heap_frame_trans.
  - intros p Hin. apply Hsub. by rewrite <- Hp.
  - eapply StronglySorted_impl; [|exact Hs].
    intros p q. simpl. by rewrite !(freq_of_frame st st1).
Qed.

Lemma tracker_wf_store st st' ht :
  store_le st st' → idx_ok st' → tracker_wf (st, ht) → tracker_wf (st', ht).
Proof.
  intros Hle Hi [W1 W2 W3 W4 W5 W6]. split; simpl in *; try done.
  intros i s Hs. destruct (W5 i s Hs) as (Ws & ? & ?).
  split_and!; try done. by apply (shard_wf_store_le st).
Qed.

Lemma tracker_wf_frame st st' ht :
  heap_frame st st' → tracker_wf (st, ht) → tracker_wf (st', ht).
Proof.
  intros Hf W. apply (tracker_wf_store st); [by apply heap_frame_store_le| |done].
  eapply idx_ok_frame; [done|]. apply (twf_idx _ W).
Qed.

Lemma tracker_wf_new topN numShards ht :
  0 < topN → 0 < numShards →
  NewHotspotTracker topN numShards = Ok ht → tracker_wf ([], ht).
Proof.
  intros Hn Hs. unfold NewHotspotTracker.
  destruct (Z.ltb_spec numShards 0); [lia|]. intros [= <-].
  split; simpl; try done.
  - unfold len. rewrite length_replicate. lia.
  - intros i s [-> _]%lookup_replicate. split_and!; [|done|].
    + apply shard_wf_NewShard. lia.
    + intros k p. simpl. by rewrite lookup_empty.
Qed.

Lemma fnv32a_range key : 0 ≤ fnv32a key < 2 ^ 32.
Proof.
  unfold fnv32a.
  assert (∀ l h, 0 ≤ h < 2 ^ 32 →
    0 ≤ fold_left
          (λ hash c, (Z.lxor hash (Z.of_N (Ascii.N_of_ascii c)) * 16777619)
                       mod 2 ^ 32) l h < 2 ^ 32) as Hfold.
  { induction l as [|c l IH]; intros h Hh; simpl; [done|].
    apply IH. apply Z.mod_pos_bound. lia. }
  apply Hfold. lia.
Qed.

Lemma shardIndex_wf st ht key :
  tracker_wf (st, ht) →
  ∃ s, shardIndex ht key = Ok (Z.rem (fnv32a key) (ht_numShards ht)) ∧
       index (ht_shards ht) (Z.rem (fnv32a key) (ht_numShards ht)) = Ok s ∧
       ht_shards ht !! Z.to_nat (Z.rem (fnv32a key) (ht_numShards ht)) = Some s.
Proof.
  intros W. pose proof (twf_numShards _ W) as Hn. pose proof (twf_len _ W) as Hl.
  simpl in *. pose proof (fnv32a_range key) as Hr.
  assert (0 ≤ Z.rem (fnv32a key) (ht_numShards ht) < ht_numShards ht) as Hi.
  { apply Z.rem_bound_pos; lia. }
  destruct (ht_shards ht !! Z.to_nat (Z.rem (fnv32a key) (ht_numShards ht)))
    as [s|] eqn:E.
  - exists s. split_and!; [| |done].
    + unfold shardIndex. destruct (Z.eqb_spec (ht_numShards ht) 0); [lia|done].
    + unfold index. destruct (Z.ltb_spec (Z.rem (fnv32a key) (ht_numShards ht)) 0);
        [lia|]. by rewrite E.
  - apply lookup_ge_None in E. unfold len in *. lia.
Qed.

Lemma RecordRequest_wf st ht key :
  tracker_wf (st, ht) →
  ∃ st' ht',
    RecordRequest st ht key = Ok (st', ht') ∧ tracker_wf (st', ht') ∧
    store_le st st' ∧ ht_withCache ht' = ht_withCache ht.
Proof.
  intros W. destruct (shardIndex_wf st ht key W) as (s & Hsi & Hidx & Hs).
  destruct (twf_shard _ W _ s Hs) as (Ws & Hn & Hroute). simpl in *.
  destruct (shard_RecordRequest_wf st s key Ws)
    as (st' & s' & HR & Hle & Ws' & Hn' & Hi' & Hkeys).
  { rewrite Hn. apply (twf_topN _ W). }
  { apply (twf_idx _ W). }
  unfold RecordRequest. rewrite Hsi. simpl. rewrite Hidx. simpl.
  rewrite HR. simpl. eexists _, _. split; [done|]. split_and!; [|done|done].
  destruct W as [W1 W2 W3 W4 W5 W6]. split; simpl in *; try done.
  - unfold len in *. by rewrite length_insert.
  - intros j sj Hj.
    destruct (decide (j = Z.to_nat (Z.rem (fnv32a key) (ht_numShards ht))))
      as [->|Hne].
    + rewrite list_lookup_insert_eq in Hj by (by eapply lookup_lt_Some).
      injection Hj as <-. split_and!; [done|congruence|].
      intros k p Hk. destruct (Hkeys k p Hk) as [->|Hold].
      * pose proof (fnv32a_range key).
        rewrite Z2Nat.id; [done|]. apply Z.rem_bound_pos; lia.
      * rewrite (Hroute k p Hold). done.
    + rewrite list_lookup_insert_ne in Hj by done.
      destruct (W5 j sj Hj) as (Wj & ? & ?). split_and!; try done.
      by apply (shard_wf_store_le st).
Qed.

Lemma shard_RecordRequest_ordered st s key st' s' :
  shard_wf st s → shard_ordered st s →
  shard_RecordRequest st s key = Ok (st', s') →
  shard_ordered st' s' ∧
  ∀ q, (q < length st)%nat → q ∉ minHeap s → load st' q = load st q.
Proof.
  destruct (keyFreqs s !! key) as [kf|] eqn:Hkf.
  - intros W Ho. by apply (shard_RecordRequest_hit_ordered st s key kf).
  - intros W Ho. by apply shard_RecordRequest_miss_ordered.
Qed.

(** A request writes to the records of one shard only, so the heaps of
    all shards stay in order. *)
Lemma RecordRequest_ordered st ht key st' ht' :
  tracker_wf (st, ht) → tracker_ordered (st, ht) →
  RecordRequest st ht key = Ok (st', ht') → tracker_ordered (st', ht').
Proof.
  intros W Hord.
  destruct (shardIndex_wf st ht key W) as (s & Hsi & Hidx & Hs).
  destruct (twf_shard _ W _ s Hs) as (Ws & Hn & Hroute). simpl in *.
  unfold RecordRequest. rewrite Hsi. simpl. rewrite Hidx. simpl.
  intros ([st1 s1] & HR & Hret)%bind_Ok. injection Hret as <- <-.
  destruct (shard_RecordRequest_ordered st s key st1 s1 Ws (Hord _ s Hs) HR)
    as [Hs1 Hout].
  destruct (shard_RecordRequest_wf st s key Ws)
    as (st1' & s1' & HR' & Hle & _).
  { rewrite Hn. apply (twf_topN _ W). }
  { apply (twf_idx _ W). }
  rewrite HR in HR'. injection HR' as <- <-.
  intros j sj Hj. simpl in *.
  destruct (decide (j = Z.to_nat (Z.rem (fnv32a key) (ht_numShards ht))))
    as [->|Hne].
  - rewrite list_lookup_insert_eq in Hj by (by eapply lookup_lt_Some).
    by injection Hj as <-.
  - rewrite list_lookup_insert_ne in Hj by done.
    apply (shard_ordered_agree st); [apply Hle| |by apply (Hord j)].
    intros q Hq. apply Hout.
    + destruct (twf_shard _ W j sj Hj) as (Wj & _). by apply (wf_alloc _ _ Wj).
    + intros Hqs.
      destruct (twf_same_shard st ht W _ j s sj q q Hs Hj Hqs Hq eq_refl)
        as [Hij _].
      by apply Hne.
Qed.

Lemma tracker_ordered_new topN numShards ht :
  NewHotspotTracker topN numShards = Ok ht → tracker_ordered ([], ht).
Proof.
  unfold NewHotspotTracker. destruct (_ <? _); [done|]. intros [= <-].
  intros i s [-> _]%lookup_replicate. split; simpl.
  - intros k c Hk Hc Hcn. unfold len in Hcn. simpl in Hcn. lia.
  - split; [constructor|]. intros k p Hkp. by rewrite lookup_nil in Hkp.
Qed.

(** Every reachable state is well formed. *)
Lemma reachable_wf σ : reachable σ → tracker_wf σ.
Proof.
  induction 1 as [n numShards ht Hn Hs Hnew|σ o σ' Hr IH Hstep].
  { exact (tracker_wf_new _ _ _ Hn Hs Hnew). }
  destruct σ as [st ht]. destruct o; simpl in Hstep.
  - destruct (RecordRequest_wf st ht key IH) as (st' & ht' & HR & W' & _).
    rewrite HR in Hstep. by injection Hstep as <-.
  - destruct (ht_withCache ht) eqn:Hc.
    + unfold GetHotspots in Hstep. by rewrite AggregateData_cache in Hstep.
    + destruct (reads_spec st ht IH Hc)
        as (st1 & st2 & agg & ps & _ & HG & _ & _ & Hf2 & _).
      rewrite HG in Hstep. simpl in Hstep. injection Hstep as <-.
      by apply (tracker_wf_frame st).
  - destruct (ht_withCache ht) eqn:Hc.
    + unfold IsHotspot in Hstep. by rewrite AggregateData_cache in Hstep.
    + destruct (reads_spec st ht IH Hc)
        as (st1 & st2 & agg & ps & _ & _ & HI & Hf1 & _).
      rewrite HI in Hstep. simpl in Hstep. injection Hstep as <-.
      by apply (tracker_wf_frame st).
  - injection Hstep as <-. by destruct IH.
  - injection Hstep as <-. case_decide; [|done]. by destruct IH.
  - unfold Close in Hstep. destruct (ht_withCache ht).
    + destruct (close (ht_stop ht)); simpl in Hstep; try done.
      injection Hstep as <-. by destruct IH.
    + simpl in Hstep. by injection Hstep as <-.
Qed.

(** ** The reads do not depend on [Index]

    Two stores with the same keys and frequencies are indistinguishable to
    the reads: run from either, [GetHotspots] and [IsHotspot] have the same
    outcome and return the same value.  The functions of [container/heap]
    are generic, and so is the argument: related heaps stay related. *)

Lemma result_rel_bind {A1 A2 B1 B2} (RA : A1 → A2 → Prop) (RB : B1 → B2 → Prop)
    (m1 : result A1) (m2 : result A2) (f1 : A1 → result B1) (f2 : A2 → result B2) :
  result_rel RA m1 m2 →
  (∀ a1 a2, RA a1 a2 → result_rel RB (f1 a1) (f2 a2)) →
  result_rel RB (bind m1 f1) (bind m2 f2).
Proof. destruct m1, m2; simpl; try done. intros HR Hf. by apply Hf. Qed.

Lemma result_rel_Ok {A1 A2} (R : A1 → A2 → Prop) m1 m2 a :
  result_rel R m1 m2 → m1 = Ok a → ∃ b, m2 = Ok b ∧ R a b.
Proof. intros HR ->. destruct m2; simpl in HR; try done. eauto. Qed.

Section heap_rel.
Context {H1 H2 : Type} `{I1 : Interface H1} `{I2 : Interface H2}.
Variable R : H1 → H2 → Prop.
Hypothesis R_Len : ∀ a b, R a b → Len a = Len b.
Hypothesis R_Less : ∀ a b i j, R a b → Less a i j = Less b i j.
Hypothesis R_Swap : ∀ a b i j, R a b → result_rel R (Swap a i j) (Swap b i j).
Hypothesis R_Push : ∀ a b x, R a b → result_rel R (Push a x) (Push b x).
Hypothesis R_Pop :
  ∀ a b, R a b → result_rel (λ r1 r2, R r1.1 r2.1 ∧ r1.2 = r2.2) (Pop a) (Pop b).

Lemma up_loop_rel fuel a b j :
  R a b → result_rel R (heap.up_loop fuel a j) (heap.up_loop fuel b j).
Proof.
  revert a b j. induction fuel as [|fuel IH]; intros a b j HR; simpl; [done|].
  destruct (_ =? _); [done|]. rewrite (R_Less a b) by done.
  destruct (Less b j _) as [lt| | |]; simpl; try done.
  destruct lt; simpl; [|done].
  eapply result_rel_bind; [by apply R_Swap|]. intros a1 b1 HR1. by apply IH.
Qed.

Lemma down_loop_rel fuel a b i0 i n :
  R a b →
  result_rel (λ r1 r2, R r1.1 r2.1 ∧ r1.2 = r2.2)
    (heap.down_loop fuel a i0 i n) (heap.down_loop fuel b i0 i n).
Proof.
  revert a b i. induction fuel as [|fuel IH]; intros a b i HR; simpl; [done|].
  destruct (_ || _); [done|].
  rewrite (R_Less a b) by done.
  destruct (if 2 * i + 1 + 1 <? n then Less b (2 * i + 1 + 1) (2 * i + 1)
            else Ok false) as [lt21| | |]; simpl; try done.
  rewrite (R_Less a b) by done.
  destruct (Less b (if lt21 then 2 * i + 1 + 1 else 2 * i + 1) i)
    as [lt| | |]; simpl; try done.
  destruct lt; simpl; [|done].
  eapply result_rel_bind; [by apply R_Swap|]. intros a1 b1 HR1. by apply IH.
Qed.

Lemma Init_rel a b : R a b → result_rel R (heap.Init a) (heap.Init b).
Proof.
  intros HR. unfold heap.Init. rewrite (R_Len a b) by done.
  generalize (Len b). intros n.
  generalize (Z.to_nat (n `quot` 2)). intros k. revert a b HR.
  induction k as [|k IH]; intros a b HR; simpl; [done|].
  eapply result_rel_bind; [by apply down_loop_rel|].
  intros r1 r2 [HR1 _]. by apply IH.
Qed.

Lemma Push_rel a b x : R a b → result_rel R (heap.Push a x) (heap.Push b x).
Proof.
  intros HR. unfold heap.Push.
  eapply result_rel_bind; [by apply R_Push|]. intros a1 b1 HR1.
  rewrite (R_Len a1 b1) by done. by apply up_loop_rel.
Qed.

Lemma Pop_rel a b :
  R a b →
  result_rel (λ r1 r2, R r1.1 r2.1 ∧ r1.2 = r2.2) (heap.Pop a) (heap.Pop b).
Proof.
  intros HR. unfold heap.Pop. rewrite (R_Len a b) by done.
  eapply result_rel_bind; [by apply R_Swap|]. intros a1 b1 HR1.
  eapply result_rel_bind; [by apply down_loop_rel|]. intros r1 r2 [HR2 _].
  by apply R_Pop.
Qed.

End heap_rel.

Lemma same_data_refl st : same_data st st.
Proof. by intros p. Qed.

Lemma same_data_sym st st' : same_data st st' → same_data st' st.
Proof. intros H p. by destruct (H p). Qed.

Lemma same_data_trans st1 st2 st3 :
  same_data st1 st2 → same_data st2 st3 → same_data st1 st3.
Proof.
  intros H1 H2 p. destruct (H1 p), (H2 p). split; congruence.
Qed.

Lemma heap_frame_same_data st st' : heap_frame st st' → same_data st st'.
Proof. intros [_ Hf] p. unfold key_of, freq_of. by destruct (Hf p) as (-> & -> & _). Qed.

Lemma same_data_set_Index st st' p q i j :
  same_data st st' → same_data (set_Index st p i) (set_Index st' q j).
Proof.
  intros H r. unfold key_of, freq_of, set_Index. rewrite !load_alter.
  destruct (H r). by repeat case_decide.
Qed.

(** The methods of [MinHeap] respect [heap_sim]. *)
Lemma MinHeap_Len_sim a b : heap_sim a b → Len a = Len b.
Proof. intros [_ Hh]. simpl. by rewrite Hh. Qed.

Lemma MinHeap_Less_sim a b i j : heap_sim a b → Less a i j = Less b i j.
Proof.
  destruct a as [st h], b as [st' h']. intros [Hd Hh]. simpl in *. subst h'.
  unfold MinHeap_Less. destruct (_ || _); [done|].
  destruct (index h i) as [x| | |]; simpl; try done.
  destruct (index h j) as [y| | |]; simpl; try done.
  destruct (Hd x) as [_ Hx], (Hd y) as [_ Hy]. unfold freq_of in *.
  by rewrite Hx, Hy.
Qed.

Lemma MinHeap_Swap_sim a b i j :
  heap_sim a b → result_rel heap_sim (Swap a i j) (Swap b i j).
Proof.
  destruct a as [st h], b as [st' h']. intros [Hd Hh]. simpl in *. subst h'.
  unfold MinHeap_Swap. destruct (_ || _); [done|].
  destruct (index h i) as [x| | |]; simpl; try done.
  destruct (index h j) as [y| | |]; simpl; try done.
  destruct (index _ i) as [x'| | |]; simpl; try done.
  destruct (index _ j) as [y'| | |]; simpl; try done.
  split; [|done]. simpl. by do 2 apply same_data_set_Index.
Qed.

Lemma MinHeap_Push_sim a b x :
  heap_sim a b → result_rel heap_sim (Push a x) (Push b x).
Proof.
  destruct a as [st h], b as [st' h']. intros [Hd Hh]. simpl in *. subst h'.
  split; [|done]. simpl. by apply same_data_set_Index.
Qed.

Lemma MinHeap_Pop_sim a b :
  heap_sim a b →
  result_rel (λ r1 r2, heap_sim r1.1 r2.1 ∧ r1.2 = r2.2) (Pop a) (Pop b).
Proof.
  destruct a as [st h], b as [st' h']. intros [Hd Hh]. simpl in *. subst h'.
  unfold MinHeap_Pop. destruct (index h _) as [x| | |]; simpl; try done.
  split; [|done]. split; [|done]. simpl. by apply same_data_set_Index.
Qed.

Lemma heap_Push_sim a b x :
  heap_sim a b → result_rel heap_sim (heap.Push a x) (heap.Push b x).
Proof.
  apply Push_rel.
  - apply MinHeap_Len_sim.
  - apply MinHeap_Less_sim.
  - apply MinHeap_Swap_sim.
  - apply MinHeap_Push_sim.
Qed.

Lemma heap_Pop_sim a b :
  heap_sim a b →
  result_rel (λ r1 r2, heap_sim r1.1 r2.1 ∧ r1.2 = r2.2)
    (heap.Pop a) (heap.Pop b).
Proof.
  apply Pop_rel.
  - apply MinHeap_Len_sim.
  - apply MinHeap_Less_sim.
  - apply MinHeap_Swap_sim.
  - apply MinHeap_Pop_sim.
Qed.

Lemma heap_Init_sim a b :
  heap_sim a b → result_rel heap_sim (heap.Init a) (heap.Init b).
Proof.
  apply Init_rel.
  - apply MinHeap_Len_sim.
  - apply MinHeap_Less_sim.
  - apply MinHeap_Swap_sim.
Qed.

Lemma processKeyFreq_sim st st' t kf :
  same_data st st' →
  call_sim (processKeyFreq st t kf) (processKeyFreq st' t kf).
Proof.
  intros Hd. unfold processKeyFreq, call_sim. destruct (_ <? _).
  - eapply result_rel_bind; [by apply (heap_Push_sim (st, _) (st', _))|].
    intros [s1 h1] [s2 h2] [Hd' Hh']. simpl in *. subst h2.
    split; [done|]. destruct (Hd' kf) as [Hk _]. unfold key_of in Hk.
    by rewrite Hk.
  - destruct (index (minHeap t) 0) as [root| | |]; simpl; try done.
    destruct (Hd root) as [_ Hr], (Hd kf) as [_ Hk]. unfold freq_of in *.
    rewrite Hr, Hk. destruct (_ <=? _); [|done].
    eapply result_rel_bind; [by apply (heap_Pop_sim (st, _) (st', _))|].
    intros [[s1 h1] m1] [[s2 h2] m2] [[Hd1 Hh1] Hm]. simpl in *. subst h2 m2.
    eapply result_rel_bind; [by apply (heap_Push_sim (s1, _) (s2, _))|].
    intros [s3 h3] [s4 h4] [Hd3 Hh3]. simpl in *. subst h4.
    split; [done|].
    destruct (Hd3 kf) as [Hk3 _], (Hd1 m1) as [Hk1 _]. unfold key_of in *.
    by rewrite Hk3, Hk1.
Qed.

Lemma aggregate_heap_sim st st' t kfs :
  same_data st st' →
  call_sim (aggregate_heap st t kfs) (aggregate_heap st' t kfs).
Proof.
  revert st st' t. induction kfs as [|kf kfs IH]; intros st st' t Hd; simpl.
  { by split. }
  eapply result_rel_bind; [by apply processKeyFreq_sim|].
  intros [s1 t1] [s2 t2] [Hd1 Ht]. simpl in *. subst t2. by apply IH.
Qed.

Lemma aggregate_loop_sim st st' t shards :
  same_data st st' →
  result_rel (λ x y, same_data x.1.1 y.1.1 ∧ x.1.2 = y.1.2 ∧ x.2 = y.2)
    (aggregate_loop st t shards) (aggregate_loop st' t shards).
Proof.
  revert st st' t. induction shards as [|s shards IH]; intros st st' t Hd; simpl.
  { by split_and!. }
  destruct (RLock (mu s)) as [m1| | |]; simpl; try done.
  eapply result_rel_bind; [by apply aggregate_heap_sim|].
  intros [s1 t1] [s2 t2] [Hd1 Ht]. simpl in *. subst t2.
  destruct (RUnlock m1) as [m2| | |]; simpl; try done.
  eapply result_rel_bind; [by apply IH|].
  intros [[s3 t3] l3] [[s4 t4] l4] (Hd3 & Ht3 & Hl3). simpl in *. subst.
  by split_and!.
Qed.

Lemma aggregateShards_sim st st' ht :
  same_data st st' →
  result_rel (λ x y, same_data x.1.1 y.1.1 ∧ x.1.2 = y.1.2 ∧ x.2 = y.2)
    (aggregateShards st ht) (aggregateShards st' ht).
Proof.
  intros Hd. unfold aggregateShards.
  eapply result_rel_bind; [by apply aggregate_loop_sim|].
  intros [[s3 t3] l3] [[s4 t4] l4] (Hd3 & Ht3 & Hl3). simpl in *. subst.
  by split_and!.
Qed.

Lemma AggregateData_sim st st' ht :
  same_data st st' →
  result_rel (λ x y, same_data x.1.1 y.1.1 ∧ x.1.2 = y.1.2 ∧ x.2 = y.2)
    (AggregateData st ht) (AggregateData st' ht).
Proof.
  intros Hd. unfold AggregateData.
  destruct (RLock (ht_mu ht)) as [m1| | |]; simpl; try done.
  destruct (ht_withCache ht).
  - destruct (Lock m1) as [m2| | |]; simpl; try done.
    eapply (result_rel_bind (λ x y, same_data x.1 y.1 ∧ x.2 = y.2)).
    + destruct (ht_update ht); [|by split].
      eapply result_rel_bind; [by apply aggregateShards_sim|].
      intros [[s3 t3] l3] [[s4 t4] l4] (Hd3 & Ht3 & Hl3). simpl in *. subst.
      by split.
    + intros [s1 h1] [s2 h2] [Hd1 Hh]. simpl in *. subst h2.
      destruct (ht_cache h1) as [c|]; simpl; [|done].
      destruct (Unlock (ht_mu h1)) as [m3| | |]; simpl; try done.
      destruct (RUnlock m3) as [m4| | |]; simpl; try done.
  - eapply result_rel_bind; [by apply aggregateShards_sim|].
    intros [[s3 t3] l3] [[s4 t4] l4] (Hd3 & Ht3 & Hl3). simpl in *. subst.
    destruct (RUnlock (ht_mu t4)) as [m2| | |]; simpl; try done.
Qed.

Lemma GetHotspots_loop_sim k i a b hotspots :
  heap_sim a b →
  call_sim (GetHotspots_loop k i a hotspots) (GetHotspots_loop k i b hotspots).
Proof.
  revert i a b hotspots. induction k as [|k IH]; intros i a b hotspots HR; simpl.
  { destruct HR. by split. }
  eapply result_rel_bind; [by apply heap_Pop_sim|].
  intros [[s1 h1] m1] [[s2 h2] m2] [[Hd1 Hh1] Hm]. simpl in *. subst h2 m2.
  destruct (Hd1 m1) as [Hk _]. unfold key_of in Hk. rewrite Hk.
  apply IH. by split.
Qed.

Lemma shard_GetHotspots_sim st st' s :
  same_data st st' →
  call_sim (shard_GetHotspots st s) (shard_GetHotspots st' s).
Proof.
  intros Hd. unfold shard_GetHotspots.
  eapply result_rel_bind; [by apply (heap_Init_sim (st, _) (st', _))|].
  intros [s1 h1] [s2 h2] [Hd1 Hh]. simpl in *. subst h2.
  by apply GetHotspots_loop_sim.
Qed.

Lemma GetHotspots_sim st st' ht :
  same_data st st' →
  result_rel (λ x y, same_data x.1.1 y.1.1 ∧ x.1.2 = y.1.2 ∧ x.2 = y.2)
    (GetHotspots st ht) (GetHotspots st' ht).
Proof.
  intros Hd. unfold GetHotspots.
  eapply result_rel_bind; [by apply AggregateData_sim|].
  intros [[s1 t1] a1] [[s2 t2] a2] (Hd1 & Ht & Ha). simpl in *. subst.
  eapply result_rel_bind; [by apply shard_GetHotspots_sim|].
  intros [s3 k3] [s4 k4] [Hd3 Hk]. simpl in *. subst. by split_and!.
Qed.

Lemma IsHotspot_sim st st' ht key :
  same_data st st' →
  result_rel (λ x y, same_data x.1.1 y.1.1 ∧ x.1.2 = y.1.2 ∧ x.2 = y.2)
    (IsHotspot st ht key) (IsHotspot st' ht key).
Proof.
  intros Hd. unfold IsHotspot.
  eapply result_rel_bind; [by apply AggregateData_sim|].
  intros [[s1 t1] a1] [[s2 t2] a2] (Hd1 & Ht & Ha). simpl in *. subst.
  destruct (shard_IsHotspot a2 key) as [[c b]| | |]; simpl; try done.
Qed.

(** ** What a tracker tracks *)

Lemma tracked_of_ptr st ht p :
  tracker_wf (st, ht) → p ∈ all_ptrs (ht_shards ht) →
  tracked (st, ht) (key_of st p) = Some p.
Proof.
  intros W Hp. unfold tracked. simpl.
  destruct (shardIndex_wf st ht (key_of st p) W) as (s & -> & _ & Hs).
  destruct (twf_route st ht W p Hp) as (s' & Hs' & Hk).
  rewrite Hs in Hs'. injection Hs' as <-. rewrite Hs. simpl. done.
Qed.

Lemma StronglySorted_lookup {A} (R : A → A → Prop) (l : list A) i j x y :
  StronglySorted R l → l !! i = Some x → l !! j = Some y → (i < j)%nat →
  R x y.
Proof.
  intros Hs. revert i j. induction Hs as [|a l Hs IH Ha]; intros i j Hi Hj Hlt.
  { by rewrite lookup_nil in Hi. }
  destruct j as [|j]; [lia|]. simpl in Hj. destruct i as [|i].
  - injection Hi as <-. rewrite Forall_forall in Ha. apply Ha.
    by eapply list_elem_of_lookup_2.
  - simpl in Hi. apply (IH i j); [done..|lia].
Qed.

Lemma run_reachable σ ops σ' : reachable σ → run σ ops = Ok σ' → reachable σ'.
Proof.
  revert σ. induction ops as [|o ops IH]; intros σ Hr; simpl.
  - by intros [= <-].
  - intros (σ1 & Hstep & Hrun)%bind_Ok. apply (IH σ1); [|done].
    by eapply reachable_step.
Qed.

(** * The claims *)

(** ** Shared facts *)

Lemma wrap_int_id z : int_min ≤ z ≤ int_max → wrap_int z = z.
Proof.
  unfold wrap_int, int_min, int_max. intros Hz.
  rewrite Z.mod_small; lia.
Qed.

Lemma run_new_reachable topN numShards ops σ :
  0 < topN → 0 < numShards → run_new topN numShards ops = Ok σ → reachable σ.
Proof.
  intros Hn Hs (ht & Hnew & Hrun)%bind_Ok.
  eapply run_reachable; [|done]. exact (reachable_new _ _ _ Hn Hs Hnew).
Qed.

Lemma scenario1_run :
  run_new 3 1 (OpRecordRequest <$> scenario1_keys)
  = Ok (scenario1_store, scenario1_tracker).
Proof. vm_compute. reflexivity. Qed.

Lemma scenario1_reachable : reachable (scenario1_store, scenario1_tracker).
Proof. apply (run_new_reachable 3 1 _ _ eq_refl eq_refl scenario1_run). Qed.

Lemma scenario1_shard_wf : shard_wf scenario1_store scenario1_shard.
Proof.
  exact (proj1 (twf_shard _ (reachable_wf _ scenario1_reachable)
                  0%nat scenario1_shard eq_refl)).
Qed.

Lemma NewShard_RecordRequest_panics st n key :
  n ≤ 0 → shard_RecordRequest st (NewShard n) key = Panic.
Proof.
  intros Hn. rewrite RecordRequest_miss_unfold by done.
  rewrite processKeyFreq_empty; done.
Qed.

(** The first three parts hold in every shard of every reachable state. *)
Lemma reachable_keys_and_size σ i s :
  reachable σ → ht_shards σ.2 !! i = Some s →
  (∀ k, is_Some (keyFreqs s !! k) ↔ k ∈ key_of σ.1 <$> minHeap s) ∧
  NoDup (key_of σ.1 <$> minHeap s) ∧
  len (minHeap s) ≤ topN s.
Proof.
  intros Hr Hs. destruct (twf_shard _ (reachable_wf _ Hr) i s Hs) as (W & _).
  split_and!.
  - intros k. rewrite list_elem_of_fmap. split.
    + intros [p Hp]. apply (wf_map _ _ W) in Hp as [? ?]. eauto.
    + intros (p & -> & Hp). exists p. by apply (wf_map _ _ W).
  - apply NoDup_fmap_2_strong; [|apply W].
    intros p q Hp Hq Hk.
    assert (keyFreqs s !! key_of σ.1 p = Some p) as H1 by (by apply (wf_map _ _ W)).
    assert (keyFreqs s !! key_of σ.1 p = Some q) as H2 by (by apply (wf_map _ _ W)).
    congruence.
  - apply W.
Qed.

(** Operations other than the reads keep the heap of every shard in order
    with [Index] following it. *)
Lemma run_writes_ordered σ ops σ' :
  reachable σ → tracker_ordered σ → Forall (λ o, is_read o = false) ops →
  run σ ops = Ok σ' → tracker_ordered σ'.
Proof.
  revert σ. induction ops as [|o ops IH]; intros σ Hr Ho Hw; simpl.
  { by intros [= <-]. }
  apply Forall_cons in Hw as [Hw Hws].
  intros (σ1 & Hstep & Hrun)%bind_Ok.
  apply (IH σ1); [by eapply reachable_step| |done..].
  destruct σ as [st ht], σ1 as [st1 ht1]. destruct o; try done; simpl in Hstep.
  - exact (RecordRequest_ordered st ht key _ _ (reachable_wf _ Hr) Ho Hstep).
  - injection Hstep as <- <-. exact Ho.
  - injection Hstep as <- <-. case_decide; exact Ho.
  - apply bind_Ok in Hstep as (ht2 & HC & [= <- <-]). unfold Close in HC.
    destruct (ht_withCache ht).
    + apply bind_Ok in HC as (c & _ & [= <-]). exact Ho.
    + injection HC as <-. exact Ho.
Qed.

(** All four parts hold in every shard after any history without reads. *)
Lemma writes_shard_invariant topN numShards ops σ i s :
  0 < topN → 0 < numShards → Forall (λ o, is_read o = false) ops →
  run_new topN numShards ops = Ok σ → ht_shards σ.2 !! i = Some s →
  shard_invariant σ.1 s.
Proof.
  intros Hn Hs Hw Hrun Hi.
  pose proof (run_new_reachable _ _ _ _ Hn Hs Hrun) as Hreach.
  apply bind_Ok in Hrun as (ht & Hnew & Hrun).
  assert (tracker_ordered σ) as Hord.
  { eapply run_writes_ordered; [|by eapply tracker_ordered_new|done..].
    exact (reachable_new _ _ _ Hn Hs Hnew). }
  destruct (reachable_keys_and_size σ i s Hreach Hi) as (H1 & H2 & H3).
  split_and!; try done.
  intros root p Hroot Hp. destruct (Hord i s Hi) as [Hh _].
  apply list_lookup_total_correct in Hroot as <-.
  by apply heap_from_min.
Qed.

(** Without the cache the reads return, leave the tracker (its shards,
    their heaps and lookup tables) as it is, and change nothing in the
    store but [Index] fields; a second [GetHotspots] returns the same
    sequence. *)
Lemma reads_keep_all_but_Index σ key :
  reachable σ → ht_withCache σ.2 = false →
  ∃ st1 st2 st3 keys b,
    GetHotspots σ.1 σ.2 = Ok (st1, σ.2, keys) ∧
    IsHotspot σ.1 σ.2 key = Ok (st2, σ.2, b) ∧
    heap_frame σ.1 st1 ∧ heap_frame σ.1 st2 ∧
    GetHotspots st1 σ.2 = Ok (st3, σ.2, keys).
Proof.
  intros Hr Hc. destruct σ as [st ht]. simpl in *.
  destruct (reads_spec st ht (reachable_wf _ Hr) Hc)
    as (st1 & st2 & agg & ps & _ & HG & HI & Hf1 & Hf2 & _).
  pose proof (GetHotspots_sim st st2 ht (heap_frame_same_data _ _ Hf2)) as Hsim.
  destruct (result_rel_Ok _ _ _ _ Hsim HG)
    as ([[st3 ht3] keys] & HG2 & _ & Hht & Hk).
  simpl in *. subst. by eexists st2, st1, st3, _, _.
Qed.

(** ** The shard invariant (C1) *)

(** C1 fails on the code: after requests for a and b, a call of
    [GetHotspots] and one more request for a, the heap of the only shard
    is [a; b] with frequencies 2 and 1, so its root is not a minimum. *)
Theorem reachable_root_not_minimum :
  ∃ σ s,
    run_new 3 1 [OpRecordRequest "a"; OpRecordRequest "b"; OpGetHotspots;
                 OpRecordRequest "a"] = Ok σ ∧
    reachable σ ∧
    ht_shards σ.2 = [s] ∧ minHeap s = [0; 1]%nat ∧
    freq_of σ.1 0%nat = 2 ∧ freq_of σ.1 1%nat = 1 ∧
    ¬ shard_invariant σ.1 s.
Proof.
  assert (∃ σ, run_new 3 1 [OpRecordRequest "a"; OpRecordRequest "b";
                            OpGetHotspots; OpRecordRequest "a"] = Ok σ)
    as [[st ht] Hrun].
  { eexists. vm_compute. reflexivity. }
  pose proof (run_new_reachable 3 1 _ _ eq_refl eq_refl Hrun) as Hreach.
  vm_compute in Hrun. injection Hrun as <- <-.
  eexists (_, _), _. split; [vm_compute; reflexivity|].
  split; [exact Hreach|].
  simpl. split; [reflexivity|]. split; [reflexivity|].
  split; [reflexivity|]. split; [reflexivity|].
  intros (_ & _ & _ & Hmin).
  specialize (Hmin 0%nat 1%nat eq_refl). simpl in Hmin.
  assert (2 ≤ 1) as Habs; [|lia].
  apply Hmin. apply list_elem_of_further, list_elem_of_here.
Qed.

(** ** Admission of an untracked key (C2) *)

(** What the code does.  On a well-formed shard, [RecordRequest] of a key
    that the shard does not track allocates a candidate record of frequency
    1 and then: with fewer than [topN] records held, inserts the candidate
    into the heap and the lookup table; with the heap full and the frequency
    at its root at most 1, removes the root from the heap and its key from
    the lookup table and inserts the candidate; with the heap full and a
    larger frequency at the root, returns with the shard as it was (the
    candidate is dropped).  The case is decided by the root, which holds the
    least frequency only when the heap is ordered. *)
Lemma shard_RecordRequest_untracked (st : store) (s : shard) (key : string) :
  shard_wf st s → keyFreqs s !! key = None →
  let kf := length st in
  let st0 := st ++ [mkKeyFreq key 1 0] in
  (len (minHeap s) < topN s →
   ∃ st' h',
     shard_RecordRequest st s key
       = Ok (st', mkShard (topN s) h' (<[key := kf]> (keyFreqs s)) (mu s)) ∧
     h' ≡ₚ kf :: minHeap s ∧ heap_frame st0 st' ∧
     key_of st' kf = key ∧ freq_of st' kf = 1) ∧
  (∀ root, topN s ≤ len (minHeap s) → minHeap s !! 0%nat = Some root →
     (heap_from st (minHeap s) 0 (len (minHeap s)) →
      ∀ p, p ∈ minHeap s → freq_of st root ≤ freq_of st p) ∧
     (freq_of st root ≤ 1 →
      ∃ st' h1 h',
        shard_RecordRequest st s key
          = Ok (st', mkShard (topN s) h'
                       (<[key := kf]> (delete (key_of st root) (keyFreqs s)))
                       (mu s)) ∧
        minHeap s ≡ₚ root :: h1 ∧ h' ≡ₚ kf :: h1 ∧ (root ∉ h') ∧
        heap_frame st0 st' ∧ key_of st' kf = key ∧ freq_of st' kf = 1) ∧
     (1 < freq_of st root → shard_RecordRequest st s key = Ok (st0, s))).
Proof.
  intros W Hnone. cbv zeta.
  pose proof (wf_mu _ _ W) as Hmu.
  rewrite RecordRequest_miss_unfold by done.
  set (t := set_mu (mkRWMutex 0 true) s).
  set (st0 := st ++ [mkKeyFreq key 1 0]).
  set (kf := length st).
  assert (∀ st', heap_frame st0 st' →
                 key_of st' kf = key ∧ freq_of st' kf = 1) as Hnew.
  { intros st' Hf. rewrite (key_of_frame _ _ kf Hf), (freq_of_frame _ _ kf Hf).
    unfold st0, kf. by rewrite key_of_alloc, freq_of_alloc. }
  assert (key_of st0 kf = key) as Hk0 by apply key_of_alloc.
  split.
  - intros Hroom.
    destruct (processKeyFreq_room st0 t kf) as (st' & h' & -> & Hf & Hp); [done|].
    simpl. rewrite Hk0, Hmu.
    exists st', h'. destruct (Hnew st' Hf). by split_and!.
  - intros root Hfull Hroot.
    assert (0 < len (minHeap s)) as Hne.
    { apply lookup_lt_Some in Hroot. unfold len. lia. }
    assert (minHeap s !!! 0%nat = root) as Hroot'.
    { by apply list_lookup_total_correct. }
    assert (root ∈ minHeap s) as Hin by (by eapply list_elem_of_lookup_2).
    pose proof (wf_alloc _ _ W root Hin) as Hal.
    assert (freq_of st0 root = freq_of st root) as Hfr.
    { by apply freq_of_alloc_old. }
    assert (freq_of st0 kf = 1) as Hfk.
    { unfold st0, kf. apply freq_of_alloc. }
    split_and!.
    + intros Hh p Hp. rewrite <- Hroot'. by apply heap_from_min.
    + intros Hle.
      destruct (processKeyFreq_evict st0 t kf)
        as (st' & h1 & h' & -> & Hf & Hp1 & Hp); [done..| |].
      { simpl. rewrite Hroot'. lia. }
      simpl in *. rewrite Hroot' in *.
      rewrite Hk0, Hmu.
      assert (key_of st0 root = key_of st root) as ->
        by (by apply key_of_alloc_old).
      exists st', h1, h'. destruct (Hnew st' Hf). split_and!; try done.
      rewrite Hp. intros [->|Hr1]%elem_of_cons.
      * unfold kf in Hal. lia.
      * pose proof (wf_nodup _ _ W) as Hnd. rewrite Hp1 in Hnd.
        by apply NoDup_cons in Hnd as [? _].
    + intros Hgt. rewrite (processKeyFreq_drop st0 t kf); [| done..|].
      * simpl. unfold t, set_mu. simpl. fold unlocked. rewrite <- Hmu.
        by destruct s.
      * simpl. rewrite Hroot'. lia.
Qed.

(** Scenario 2: one more request for e after scenario 1 is dropped. *)
Lemma scenario2_request_dropped :
  shard_RecordRequest scenario1_store scenario1_shard "e"
  = Ok (scenario1_store ++ [mkKeyFreq "e" 1 0], scenario1_shard).
Proof.
  destruct (shard_RecordRequest_untracked scenario1_store scenario1_shard "e")
    as [_ Hfull].
  - exact scenario1_shard_wf.
  - reflexivity.
  - destruct (Hfull 1%nat) as (_ & _ & Hdrop).
    + vm_compute. discriminate.
    + reflexivity.
    + apply Hdrop. reflexivity.
Defined.

(** On an ordered heap, as every heap is after a history without reads
    ([writes_shard_invariant]), the case is decided by the least frequency
    tracked, as the admission algorithm says. *)
Lemma untracked_admission_ordered st s key :
  shard_wf st s → heap_from st (minHeap s) 0 (len (minHeap s)) →
  keyFreqs s !! key = None → topN s ≤ len (minHeap s) → 0 < len (minHeap s) →
  ((∃ p, p ∈ minHeap s ∧ freq_of st p ≤ 1) →
   ∃ st' s' root,
     shard_RecordRequest st s key = Ok (st', s') ∧
     minHeap s !! 0%nat = Some root ∧ (root ∉ minHeap s') ∧
     keyFreqs s' !! key = Some (length st) ∧ freq_of st' (length st) = 1) ∧
  ((∀ p, p ∈ minHeap s → 1 < freq_of st p) →
   shard_RecordRequest st s key = Ok (st ++ [mkKeyFreq key 1 0], s)).
Proof.
  intros W Hh Hnone Hfull Hne.
  assert (minHeap s !! 0%nat = Some (minHeap s !!! 0%nat)) as Hroot.
  { apply list_lookup_lookup_total_lt. unfold len in Hne. lia. }
  destruct (shard_RecordRequest_untracked st s key W Hnone) as [_ Hcases].
  destruct (Hcases _ Hfull Hroot) as (Hmin & Hevict & Hdrop).
  split.
  - intros (p & Hp & Hle).
    destruct Hevict as (st' & h1 & h' & HR & Hp1 & Hp' & Hnin & _ & _ & Hf).
    { specialize (Hmin Hh p Hp). lia. }
    eexists _, _, _. split; [exact HR|]. simpl.
    split_and!; [done|done| |done].
    by rewrite lookup_insert_eq.
  - intros Hall. apply Hdrop. apply Hall. by eapply list_elem_of_lookup_2.
Qed.

(** C2 fails on the code: a full heap whose least frequency is 1 does not
    always make room.  After requests for a and b on a tracker of capacity
    2, a call of [GetHotspots] and one more request for a, the heap is
    [a; b] with frequencies 2 and 1 (the read left -1 in [Index], so
    [heap.Fix] did not move a down).  The heap is full and the least
    frequency tracked, that of b, is 1; a request for the untracked key c
    compares its candidate with the root a, drops it, and leaves the shard
    and the tracker as they were. *)
Theorem full_heap_minimum_not_evicted :
  ∃ σ s,
    run_new 2 1 [OpRecordRequest "a"; OpRecordRequest "b"; OpGetHotspots;
                 OpRecordRequest "a"] = Ok σ ∧
    reachable σ ∧
    ht_shards σ.2 = [s] ∧ minHeap s = [0; 1]%nat ∧
    len (minHeap s) = topN s ∧ keyFreqs s !! "c" = None ∧
    freq_of σ.1 0%nat = 2 ∧ freq_of σ.1 1%nat = 1 ∧
    shard_RecordRequest σ.1 s "c" = Ok (σ.1 ++ [mkKeyFreq "c" 1 0], s) ∧
    RecordRequest σ.1 σ.2 "c" = Ok (σ.1 ++ [mkKeyFreq "c" 1 0], σ.2).
Proof.
  assert (∃ σ, run_new 2 1 [OpRecordRequest "a"; OpRecordRequest "b";
                            OpGetHotspots; OpRecordRequest "a"] = Ok σ)
    as [[st ht] Hrun].
  { eexists. vm_compute. reflexivity. }
  pose proof (run_new_reachable 2 1 _ _ eq_refl eq_refl Hrun) as Hreach.
  vm_compute in Hrun. injection Hrun as <- <-.
  eexists (_, _), _. split; [vm_compute; reflexivity|].
  split; [exact Hreach|].
  simpl. split; [reflexivity|]. split; [reflexivity|].
  split; [reflexivity|]. split; [reflexivity|].
  split; [reflexivity|]. split; [reflexivity|].
  split; vm_compute; reflexivity.
Qed.

(** ** What the reads change (C3) *)

(** C3 fails on the code: the reads write the [Index] fields of the records
    of the shards.  After requests for a and b on four shards (a goes to
    shard 0, b to shard 1), each with [Index] 0: [GetHotspots] leaves both
    at -1, [IsHotspot] leaves that of b at 1, and the shard-level
    [GetHotspots] of shard 0 leaves that of a at -1. *)
Theorem reads_write_Index :
  ∃ st ht s0 st1 st2 st3,
    run_new 3 4 [OpRecordRequest "a"; OpRecordRequest "b"] = Ok (st, ht) ∧
    ht_shards ht !! 0%nat = Some s0 ∧
    Index (load st 0%nat) = 0 ∧ Index (load st 1%nat) = 0 ∧
    GetHotspots st ht = Ok (st1, ht, ["a"; "b"]) ∧
    Index (load st1 0%nat) = -1 ∧ Index (load st1 1%nat) = -1 ∧
    IsHotspot st ht "a" = Ok (st2, ht, true) ∧
    Index (load st2 1%nat) = 1 ∧
    shard_GetHotspots st s0 = Ok (st3, ["a"]) ∧
    Index (load st3 0%nat) = -1.
Proof.
  eexists _, _, _, _, _, _.
  split; [vm_compute; reflexivity|].
  split; [reflexivity|].
  split; [reflexivity|]. split; [reflexivity|].
  split; [vm_compute; reflexivity|].
  split; [reflexivity|]. split; [reflexivity|].
  split; [vm_compute; reflexivity|].
  split; [reflexivity|].
  split; [vm_compute; reflexivity|].
  reflexivity.
Qed.

(** ** Construction with arguments that are not positive (C4) *)

(** C4, as the claim states it, fails: [Construct(0, 1)] returns a
    tracker. *)
Lemma construct_rejects_nonpositive_counterexample :
  ¬ (∀ topN numShards,
       topN ≤ 0 ∨ numShards ≤ 0 →
       ∀ ht, NewHotspotTracker topN numShards ≠ Ok ht).
Proof.
  intros H. apply (H 0 1 (or_introl (Z.le_refl 0)) _ eq_refl).
Qed.

(** C4, amended. For a pair of arguments of which one is not positive,
    construction fails exactly when [numShards] is negative; otherwise it
    returns a tracker of [numShards] empty shards of capacity [topN], and on
    that tracker every [RecordRequest] panics (nothing is dropped
    silently). *)
Theorem construct_nonpositive (topN numShards : Z) :
  topN ≤ 0 ∨ numShards ≤ 0 →
  (numShards < 0 ∧ NewHotspotTracker topN numShards = Panic) ∨
  (0 ≤ numShards ∧
   ∃ ht, NewHotspotTracker topN numShards = Ok ht ∧
         ht_shards ht = replicate (Z.to_nat numShards) (NewShard topN) ∧
         ht_withCache ht = false ∧
         ∀ st key, RecordRequest st ht key = Panic).
Proof.
  intros Hnp. unfold NewHotspotTracker.
  destruct (Z.ltb_spec numShards 0) as [Hneg|Hpos]; [by left|right].
  split; [done|]. eexists. split; [done|]. simpl. split_and!; try done.
  intros st key. unfold RecordRequest, shardIndex. simpl.
  destruct (Z.eqb_spec numShards 0) as [->|Hne]; [done|]. simpl.
  assert (topN ≤ 0) as Hn by lia.
  pose proof (fnv32a_range key) as Hr.
  assert (0 ≤ Z.rem (fnv32a key) numShards < numShards) as Hi.
  { apply Z.rem_bound_pos; lia. }
  unfold index. destruct (Z.ltb_spec (Z.rem (fnv32a key) numShards) 0); [lia|].
  rewrite lookup_replicate_2 by lia. simpl.
  by rewrite NewShard_RecordRequest_panics.
Qed.

Lemma construct_nonpositive_witness :
  ∃ ht, NewHotspotTracker 0 1 = Ok ht ∧
        ∀ st key, RecordRequest st ht key = Panic.
Proof.
  destruct (construct_nonpositive 0 1) as [[Hneg _]|[_ (ht & Hnew & _ & _ & Hp)]].
  - left. reflexivity.
  - vm_compute in Hneg. discriminate.
  - exists ht. split; [exact Hnew|exact Hp].
Defined.

(** ** The result of [GetHotspots] (C5) *)

(** C5. In every reachable state of a tracker, a call of [GetHotspots]
    that returns yields at most [topN] keys, and of two consecutive keys of
    the result the first has a frequency no larger than the second.  The
    call does return when the cache is not enabled. *)
Theorem GetHotspots_bounded_ascending (σ : state) :
  reachable σ →
  (ht_withCache σ.2 = false → ∃ r, GetHotspots σ.1 σ.2 = Ok r) ∧
  ∀ st' ht' keys,
    GetHotspots σ.1 σ.2 = Ok (st', ht', keys) →
    len keys ≤ ht_topN σ.2 ∧
    ∀ i k1 k2, keys !! i = Some k1 → keys !! S i = Some k2 →
      ∃ f1 f2, frequency σ k1 = Some f1 ∧ frequency σ k2 = Some f2 ∧ f1 ≤ f2.
Proof.
  intros Hr. pose proof (reachable_wf σ Hr) as W. destruct σ as [st ht].
  simpl. destruct (ht_withCache ht) eqn:Hc.
  { split; [done|]. intros st' ht' keys.
    unfold GetHotspots. by rewrite AggregateData_cache. }
  destruct (reads_spec st ht W Hc)
    as (st1 & st2 & agg & ps & _ & HG & _ & _ & _ & Wa & Hn & Hp & Hsub & Hs).
  split; [eauto|]. intros st' ht' keys. rewrite HG. intros [= <- <- <-].
  split.
  - unfold len. rewrite length_fmap, Hp, <- Hn. apply (wf_size _ _ Wa).
  - intros i k1 k2 H1 H2.
    apply list_lookup_fmap_Some in H1 as (p1 & -> & H1).
    apply list_lookup_fmap_Some in H2 as (p2 & -> & H2).
    exists (freq_of st p1), (freq_of st p2). unfold frequency. simpl.
    rewrite !tracked_of_ptr; try done.
    + split_and!; [done..|].
      apply (StronglySorted_lookup
               (λ p q, freq_of st p ≤ freq_of st q) ps i (S i)); [done..|lia].
    + apply Hsub. by eapply list_elem_of_lookup_2.
    + apply Hsub. by eapply list_elem_of_lookup_2.
Qed.

Lemma GetHotspots_bounded_ascending_witness :
  (∃ r, GetHotspots scenario1_store scenario1_tracker = Ok r) ∧
  ∀ st' ht' keys,
    GetHotspots scenario1_store scenario1_tracker = Ok (st', ht', keys) →
    len keys ≤ 3 ∧
    ∀ i k1 k2, keys !! i = Some k1 → keys !! S i = Some k2 →
      ∃ f1 f2, frequency (scenario1_store, scenario1_tracker) k1 = Some f1 ∧
               frequency (scenario1_store, scenario1_tracker) k2 = Some f2 ∧
               f1 ≤ f2.
Proof.
  destruct (GetHotspots_bounded_ascending
              (scenario1_store, scenario1_tracker) scenario1_reachable)
    as [Hret Hres].
  split; [apply Hret; reflexivity|exact Hres].
Defined.

(** ** Agreement of the two reads (C6) *)

(** C6. In every reachable state and for every key, when [IsHotspot] and
    [GetHotspots] are called with no write in between and return,
    [IsHotspot] answers [true] exactly when the key is among the keys that
    [GetHotspots] returns: for the two calls made in the same state, and
    for one made in the state the other leaves, in either order.  Both
    calls return when the cache is not enabled. *)
Theorem IsHotspot_iff_in_GetHotspots (σ : state) (key : string) :
  reachable σ →
  (ht_withCache σ.2 = false →
   ∃ r1 r2, IsHotspot σ.1 σ.2 key = Ok r1 ∧ GetHotspots σ.1 σ.2 = Ok r2) ∧
  (∀ st1 ht1 b st2 ht2 keys,
     IsHotspot σ.1 σ.2 key = Ok (st1, ht1, b) →
     GetHotspots σ.1 σ.2 = Ok (st2, ht2, keys) →
     (b = true ↔ key ∈ keys)) ∧
  (∀ st1 ht1 keys,
     GetHotspots σ.1 σ.2 = Ok (st1, ht1, keys) →
     ∃ st2 ht2 b,
       IsHotspot st1 ht1 key = Ok (st2, ht2, b) ∧ (b = true ↔ key ∈ keys)) ∧
  (∀ st1 ht1 b,
     IsHotspot σ.1 σ.2 key = Ok (st1, ht1, b) →
     ∃ st2 ht2 keys,
       GetHotspots st1 ht1 = Ok (st2, ht2, keys) ∧ (b = true ↔ key ∈ keys)).
Proof.
  intros Hr. pose proof (reachable_wf σ Hr) as W. destruct σ as [st ht].
  simpl. destruct (ht_withCache ht) eqn:Hc.
  { unfold IsHotspot, GetHotspots. rewrite AggregateData_cache by done.
    simpl. by split_and!. }
  destruct (reads_spec st ht W Hc)
    as (st1 & st2 & agg & ps & _ & HG & HI & Hf1 & Hf2 & Wa & _ & Hp & _ & _).
  assert (bool_decide (is_Some (keyFreqs agg !! key)) = true
          ↔ key ∈ key_of st <$> ps) as Hiff.
  { rewrite bool_decide_eq_true, list_elem_of_fmap. split.
    - intros [p Hk]. apply (wf_map _ _ Wa) in Hk as [Hin Hk].
      exists p. rewrite (key_of_frame st st1) in Hk by done.
      split; [done|]. by rewrite Hp.
    - intros (p & -> & Hin). exists p. apply (wf_map _ _ Wa).
      rewrite (key_of_frame st st1) by done. split; [|done]. by rewrite <- Hp. }
  split_and!.
  - eauto.
  - intros st1' ht1 b st2' ht2 keys. rewrite HG, HI.
    by intros [= <- <- <-] [= <- <- <-].
  - intros st' ht' keys. rewrite HG. intros [= <- <- <-].
    pose proof (IsHotspot_sim st st2 ht key (heap_frame_same_data _ _ Hf2))
      as Hsim.
    destruct (result_rel_Ok _ _ _ _ Hsim (HI key))
      as ([[st3 ht3] b] & -> & _ & Hht & Hb).
    simpl in *. subst. eauto.
  - intros st' ht' b. rewrite HI. intros [= <- <- <-].
    pose proof (GetHotspots_sim st st1 ht (heap_frame_same_data _ _ Hf1))
      as Hsim.
    destruct (result_rel_Ok _ _ _ _ Hsim HG)
      as ([[st3 ht3] keys] & -> & _ & Hht & Hk).
    simpl in *. subst. eauto.
Qed.

Lemma IsHotspot_iff_in_GetHotspots_witness :
  ∃ r1 r2,
    IsHotspot scenario1_store scenario1_tracker "d" = Ok r1 ∧
    GetHotspots scenario1_store scenario1_tracker = Ok r2 ∧
    (r1.2 = true ↔ "d" ∈ r2.2).
Proof.
  destruct (IsHotspot_iff_in_GetHotspots
              (scenario1_store, scenario1_tracker) "d" scenario1_reachable)
    as (Hret & Hiff & _).
  destruct Hret as ([[st1 ht1] b] & [[st2 ht2] keys] & HI & HG); [reflexivity|].
  exists (st1, ht1, b), (st2, ht2, keys).
  split; [exact HI|]. split; [exact HG|].
  exact (Hiff st1 ht1 b st2 ht2 keys HI HG).
Defined.

(** ** Reads through the cache (C7) *)

(** C7 fails on the code: with the cache enabled, [AggregateData] takes
    the read lock of [ht.mu] and then requests its write lock, which is not
    granted while a read lock is held; no read returns. *)
Theorem cached_read_never_returns :
  ∃ st ht,
    run_new 3 1 [OpWithCache; OpRecordRequest "a"] = Ok (st, ht) ∧
    ht_withCache ht = true ∧ ht_mu ht = unlocked ∧
    AggregateData st ht = Blocked ∧
    GetHotspots st ht = Blocked ∧
    IsHotspot st ht "a" = Blocked.
Proof.
  eexists _, _. split; [vm_compute; reflexivity|].
  split; [reflexivity|]. split; [reflexivity|].
  split; [reflexivity|]. split; reflexivity.
Qed.

(** ** Scenario 1 (C8) *)

(** C8. [Construct(3, 1)] followed by requests for a, b, c, a, a, b, d, d,
    d, d, e, f, e tracks exactly a, b and d, with frequencies 3, 2 and 4, and
    [IsHotspot("f")] answers [false]. *)
Theorem scenario1_tracked_set :
  ∃ st ht s,
    run_new 3 1 (OpRecordRequest <$> scenario1_keys) = Ok (st, ht) ∧
    ht_shards ht = [s] ∧
    dom (keyFreqs s) = {["a"; "b"; "d"]} ∧
    key_of st <$> minHeap s ≡ₚ ["a"; "b"; "d"] ∧
    frequency (st, ht) "a" = Some 3 ∧
    frequency (st, ht) "b" = Some 2 ∧
    frequency (st, ht) "d" = Some 4 ∧
    (∀ key, is_Some (tracked (st, ht) key) ↔ key ∈ ["a"; "b"; "d"]) ∧
    ∃ st', IsHotspot st ht "f" = Ok (st', ht, false).
Proof.
  exists scenario1_store, scenario1_tracker, scenario1_shard.
  split; [exact scenario1_run|]. split; [done|].
  split; [by vm_compute|].
  split; [vm_compute; by rewrite (Permutation_swap "b" "a")|].
  split; [by vm_compute|]. split; [by vm_compute|]. split; [by vm_compute|].
  split.
  - intros key. unfold tracked, shardIndex. simpl.
    rewrite Z.rem_1_r. simpl. unfold scenario1_shard. simpl.
    rewrite !elem_of_cons, elem_of_nil.
    destruct (decide (key = "a")) as [->|Ha].
    { rewrite lookup_insert_eq. split; [auto|by eexists]. }
    rewrite lookup_insert_ne by done.
    destruct (decide (key = "b")) as [->|Hb].
    { rewrite lookup_insert_eq. split; [auto|by eexists]. }
    rewrite lookup_insert_ne by done.
    destruct (decide (key = "d")) as [->|Hd].
    { rewrite lookup_insert_eq. split; [auto|by eexists]. }
    rewrite lookup_insert_ne by done. rewrite lookup_empty.
    split; [by intros [? ?]|]. by intros [?|[?|[?|[]]]].
  - eexists. vm_compute. reflexivity.
Qed.

(** ** Requests for a tracked key (C9) *)

(** C9. On a well-formed shard, [RecordRequest] of a key that the shard
    tracks returns; the lookup table is unchanged and the heap holds the
    same records (nothing is inserted or evicted); the frequency of the
    key's record is incremented by one (with the wrap-around of [int], which
    is the exact successor below the largest [int]); every other record of
    the store, hence every other tracked key of this and of any other
    shard, keeps its key and its frequency. *)
Theorem shard_RecordRequest_tracked (st : store) (s : shard) (key : string)
    (kf : ptr) :
  shard_wf st s → keyFreqs s !! key = Some kf → -1 ≤ Index (load st kf) →
  ∃ st' s',
    shard_RecordRequest st s key = Ok (st', s') ∧
    keyFreqs s' = keyFreqs s ∧ minHeap s' ≡ₚ minHeap s ∧
    topN s' = topN s ∧ mu s' = mu s ∧
    freq_of st' kf = wrap_int (freq_of st kf + 1) ∧
    (int_min ≤ freq_of st kf < int_max → freq_of st' kf = freq_of st kf + 1) ∧
    (∀ k p, k ≠ key → keyFreqs s !! k = Some p →
            freq_of st' p = freq_of st p) ∧
    (∀ p, p ≠ kf → freq_of st' p = freq_of st p) ∧
    (∀ p, key_of st' p = key_of st p) ∧
    length st' = length st.
Proof.
  intros W Hkf Hidx.
  assert (kf ∈ minHeap s ∧ key_of st kf = key) as [Hin Hk].
  { by apply (wf_map _ _ W). }
  pose proof (wf_alloc _ _ W kf Hin) as Hal.
  destruct (RecordRequest_hit_spec st s key kf)
    as (st' & h' & -> & Hp & Hf); [apply W|done..|].
  eexists _, _. split; [done|]. simpl.
  assert (∀ p, freq_of st' p =
               if decide (p = kf) then wrap_int (freq_of st kf + 1)
               else freq_of st p) as Hfreq.
  { intros p. rewrite (freq_of_frame _ _ p Hf). unfold freq_of at 1.
    rewrite load_set_Frequency.
    destruct (decide (p = kf)) as [->|Hne].
    - by rewrite decide_True.
    - rewrite decide_False; [done|]. intros [? _]. by apply Hne. }
  assert (freq_of st' kf = wrap_int (freq_of st kf + 1)) as Hnew.
  { rewrite Hfreq. by rewrite decide_True. }
  split_and!; try done.
  - intros Hrange. rewrite Hnew. apply wrap_int_id.
    unfold int_min, int_max in *. lia.
  - intros k p Hne Hp'. rewrite Hfreq. rewrite decide_False; [done|].
    intros ->. apply (wf_map _ _ W) in Hp' as [_ Hk']. congruence.
  - intros p Hne. rewrite Hfreq. by rewrite decide_False.
  - intros p. rewrite (key_of_frame _ _ p Hf). unfold key_of.
    rewrite load_set_Frequency. by case_decide.
  - destruct Hf as [-> _]. unfold set_Frequency. apply length_alter.
Qed.

Lemma shard_RecordRequest_tracked_witness :
  ∃ st' s',
    shard_RecordRequest scenario1_store scenario1_shard "a" = Ok (st', s') ∧
    keyFreqs s' = keyFreqs scenario1_shard ∧
    freq_of st' 0%nat = 4.
Proof.
  destruct (shard_RecordRequest_tracked scenario1_store scenario1_shard "a" 0%nat)
    as (st' & s' & HR & Hk & _ & _ & _ & _ & Hf & _).
  - exact scenario1_shard_wf.
  - reflexivity.
  - vm_compute. discriminate.
  - exists st', s'. split; [exact HR|]. split; [exact Hk|].
    apply Hf. vm_compute. split; [discriminate|reflexivity].
Defined.

(** ** [Close] without the cache (C10) *)

(** C10. On a tracker whose cache was never enabled, [Close] returns and
    leaves the tracker as it is: [close(ht.stop)] is not reached. *)
Theorem Close_without_cache (ht : HotspotTracker) :
  ht_withCache ht = false → Close ht = Ok ht.
Proof. intros Hc. unfold Close. by rewrite Hc. Qed.

Lemma Close_without_cache_witness :
  Close scenario1_tracker = Ok scenario1_tracker.
Proof. apply Close_without_cache. reflexivity. Defined.

(** * Further properties of the code *)

(** ** [MinHeap] under [container/heap] *)

(** The state scenario 1 ends in has its heap in order, with [Index]
    following the positions. *)
Lemma scenario1_ordered : shard_ordered scenario1_store scenario1_shard.
Proof.
  assert (tracker_ordered (scenario1_store, scenario1_tracker)) as Ho.
  { pose proof scenario1_run as Hrun.
    apply bind_Ok in Hrun as (ht & Hnew & Hrun).
    eapply run_writes_ordered; [|by eapply tracker_ordered_new| |exact Hrun].
    - exact (reachable_new 3 1 ht eq_refl eq_refl Hnew).
    - repeat constructor. }
  exact (Ho 0%nat scenario1_shard eq_refl).
Qed.

(** X1. [heap.Push] of a record that the heap does not hold, on a heap that
    is in order and whose records have their positions in [Index]: the call
    returns; the new heap holds the record and the old ones, is in order,
    and has the positions in [Index]; no key and no frequency changes, and
    no record outside the new heap is written. *)
Theorem heap_Push_keeps_order (st : store) (h : MinHeap) (x : ptr) :
  heap_from st h 0 (len h) → index_ok st h → x ∉ h → (x < length st)%nat →
  ∃ st' h',
    heap.Push (st, h) x = Ok (st', h') ∧ h' ≡ₚ x :: h ∧
    heap_from st' h' 0 (len h') ∧ index_ok st' h' ∧
    heap_frame st st' ∧ outside (x :: h) st st'.
Proof.
  intros Hh Hi Hx Hal.
  destruct (Push_heap st h x Hh) as (st' & h' & HP & Hf & Hh' & Hp).
  destruct (Push_index_ok _ _ _ _ _ Hi Hx Hal HP) as [Hi' Ho].
  exists st', h'. by split_and!.
Qed.

Lemma heap_Push_keeps_order_witness :
  ∃ st' h',
    heap.Push (scenario1_store, [1; 0]%nat) 3%nat
      = Ok (st', h') ∧
    h' ≡ₚ [3; 1; 0]%nat ∧ heap_from st' h' 0 (len h') ∧ index_ok st' h'.
Proof.
  destruct (heap_Push_keeps_order scenario1_store [1; 0]%nat 3%nat)
    as (st' & h' & HP & Hp & Hh & Hi & _).
  - intros i j Hi Hj Hjn. unfold len in Hjn. simpl in Hjn.
    assert (i = 0 ∧ j = 1) as [-> ->] by lia. vm_compute. discriminate.
  - split; [compute_done|].
    intros [|[|i]] p [= <-]; vm_compute; split; (lia || reflexivity).
  - compute_done.
  - vm_compute. lia.
  - exists st', h'. by split_and!.
Defined.

(** X2. [heap.Pop] on a heap that is not empty, is in order and has the
    positions in [Index]: the call returns the record at the root, whose
    frequency is the least of the heap, and leaves its [Index] at -1; the
    remaining records form a heap in order with the positions in [Index];
    no key and no frequency changes. *)
Theorem heap_Pop_returns_least (st : store) (h : MinHeap) :
  0 < len h → heap_from st h 0 (len h) → index_ok st h →
  ∃ st' h' root,
    heap.Pop (st, h) = Ok (st', h', root) ∧
    h !! 0%nat = Some root ∧ h ≡ₚ root :: h' ∧
    (∀ p, p ∈ h → freq_of st root ≤ freq_of st p) ∧
    Index (load st' root) = -1 ∧
    heap_from st' h' 0 (len h') ∧ index_ok st' h' ∧ heap_frame st st'.
Proof.
  intros Hne Hh Hi.
  destruct (Pop_heap st h Hne Hh) as (st' & h' & HP & Hf & Hh' & Hp).
  destruct (Pop_index_ok _ _ _ _ _ Hi HP) as [Hi' Ho].
  assert (h !! 0%nat = Some (h !!! 0%nat)) as Hroot.
  { apply list_lookup_lookup_total_lt. unfold len in Hne. lia. }
  exists st', h', (h !!! 0%nat). split_and!; try done.
  - intros p Hp'. by apply heap_from_min.
  - destruct Hi as [_ Hidx]. destruct (Hidx _ _ Hroot) as [Hal _].
    destruct Hf as [Hlen _]. clear -HP Hal Hlen. revert HP.
    unfold heap.Pop. simpl.
    intros (x1 & _ & Hrest)%bind_Ok.
    apply bind_Ok in Hrest as (r & _ & HPop). unfold MinHeap_Pop in HPop.
    apply bind_Ok in HPop as (item & _ & Heq). injection Heq as <- _ Hroot.
    rewrite <- Hroot in *. rewrite length_set_Index in Hlen.
    rewrite load_set_Index, decide_True; [done|]. split; [done|lia].
Qed.

Lemma heap_Pop_returns_least_witness :
  ∃ st' h',
    heap.Pop (scenario1_store, minHeap scenario1_shard) = Ok (st', h', 1%nat) ∧
    (∀ p, p ∈ minHeap scenario1_shard →
          freq_of scenario1_store 1%nat ≤ freq_of scenario1_store p) ∧
    Index (load st' 1%nat) = -1.
Proof.
  destruct scenario1_ordered as [Hh Hi].
  destruct (heap_Pop_returns_least scenario1_store (minHeap scenario1_shard))
    as (st' & h' & root & HP & Hroot & _ & Hmin & HI & _); [done..|].
  injection Hroot as <-. exists st', h'. by split_and!.
Defined.

(** X3. [heap.Fix] after a change of frequency.  On a heap that is in
    order and has the positions in [Index], when the frequency of one of its
    records is set to any value and [heap.Fix] is called with the [Index] of
    that record, the call returns and the heap holds the same records, is in
    order again and has the positions in [Index]; only [Index] fields of
    records of the heap are written. *)
Theorem heap_Fix_restores_order (st : store) (h : MinHeap) (i : nat) (p : ptr)
    (f : Z) :
  heap_from st h 0 (len h) → index_ok st h → h !! i = Some p →
  ∃ st' h',
    heap.Fix (set_Frequency st p f, h)
      (Index (load (set_Frequency st p f) p)) = Ok (st', h') ∧
    h' ≡ₚ h ∧ heap_from st' h' 0 (len h') ∧ index_ok st' h' ∧
    heap_frame (set_Frequency st p f) st' ∧
    outside h (set_Frequency st p f) st'.
Proof.
  intros Hh [Hnd Hidx] Hip.
  destruct (Hidx i p Hip) as [Hal HI].
  apply lookup_lt_Some in Hip as Hilt.
  set (st1 := set_Frequency st p f).
  assert (Index (load st1 p) = Z.of_nat i) as ->.
  { unfold st1. rewrite load_set_Frequency. by case_decide. }
  assert (index_ok st1 h) as Hi1.
  { split; [done|]. intros j q Hjq. destruct (Hidx j q Hjq). unfold st1.
    rewrite load_set_Frequency, length_set_Frequency.
    split; [done|]. by case_decide. }
  assert (∀ k, 0 ≤ k < len h → k ≠ Z.of_nat i → fq st1 h k = fq st h k) as Hfq.
  { intros k Hk Hne. unfold fq, st1. rewrite load_set_Frequency.
    case_decide as Hd; [|done]. destruct Hd as [Hd _]. exfalso. apply Hne.
    assert (h !! Z.to_nat k = Some p) as Hk'.
    { rewrite Hd. apply list_lookup_lookup_total_lt. unfold len in Hk. lia. }
    pose proof (NoDup_lookup _ _ _ _ Hnd Hk' Hip). lia. }
  assert (0 ≤ Z.of_nat i < len h) as Hi by (unfold len; lia).
  destruct (Fix_heap st1 h (Z.of_nat i))
    as (st2 & h2 & HF & Hf2 & Hh2 & Hp2); [done| |].
  { split.
    - intros k c Hk Hki Hci Hc Hcn. rewrite !Hfq by lia. apply Hh; lia.
    - intros k c Hk Hik Hc Hcn. rewrite !Hfq by lia.
      transitivity (fq st h (Z.of_nat i)); apply Hh; lia. }
  destruct (Fix_index_ok _ _ _ _ _ Hi1 HF) as (Hi2 & _ & Ho2).
  exists st2, h2. by split_and!.
Qed.

Lemma heap_Fix_restores_order_witness :
  ∃ st' h',
    heap.Fix (set_Frequency scenario1_store 1%nat 9, minHeap scenario1_shard)
      (Index (load (set_Frequency scenario1_store 1%nat 9) 1%nat))
      = Ok (st', h') ∧
    h' ≡ₚ minHeap scenario1_shard ∧ heap_from st' h' 0 (len h').
Proof.
  destruct scenario1_ordered as [Hh Hi].
  destruct (heap_Fix_restores_order scenario1_store (minHeap scenario1_shard)
              0%nat 1%nat 9)
    as (st' & h' & HF & Hp & Hh' & _); [done..|].
  exists st', h'. by split_and!.
Defined.

(** ** What the heap operations write

    Whatever the order of the heap and the state of [Index], the heap
    operations write only to records that the heap holds. *)
Lemma MinHeap_Swap_outside st0 h0 (x : store * MinHeap) i j x' :
  x.2 ≡ₚ h0 ∧ outside h0 st0 x.1 →
  Swap x i j = Ok x' →
  x'.2 ≡ₚ h0 ∧ outside h0 st0 x'.1.
Proof.
  destruct x as [st h], x' as [st' h']. simpl. intros (Hp & Ho) HS.
  change (MinHeap_Swap st h i j = Ok (st', h')) in HS.
  apply MinHeap_Swap_inv in HS as [[-> ->]|(Hi' & Hj' & -> & ->)]; [done|].
  assert (swapZ h i j ≡ₚ h0) as Hp' by (by rewrite swapZ_perm).
  split; [done|]. intros q Hq.
  assert (∀ k, (k < length h)%nat → swapZ h i j !!! k ≠ q) as Hne.
  { intros k Hk <-. apply Hq. rewrite <- Hp'.
    apply list_elem_of_lookup_total_2. unfold swapZ.
    by rewrite !length_insert. }
  rewrite !load_set_Index.
  unfold len in *.
  case_decide as Hd; [destruct Hd as [Hd _]; by apply Hne in Hd; [|lia]|].
  case_decide as Hd'; [destruct Hd' as [Hd' _]; by apply Hne in Hd'; [|lia]|].
  by apply Ho.
Qed.

Lemma up_outside st h j st' h' :
  heap.up (st, h) j = Ok (st', h') → h' ≡ₚ h ∧ outside h st st'.
Proof.
  intros HU.
  pose proof (up_loop_inv (λ x, x.2 ≡ₚ h ∧ outside h st x.1)
                (MinHeap_Swap_outside st h)) as Hinv.
  apply (Hinv (S (Z.to_nat j)) (st, h) j (st', h')); [|exact HU].
  simpl. split; [done|by intros ??].
Qed.

Lemma down_outside st h i0 n st' h' b :
  heap.down (st, h) i0 n = Ok (st', h', b) → h' ≡ₚ h ∧ outside h st st'.
Proof.
  intros HD.
  pose proof (down_loop_inv (λ x, x.2 ≡ₚ h ∧ outside h st x.1)
                (MinHeap_Swap_outside st h)) as Hinv.
  apply (Hinv (S (Z.to_nat n)) (st, h) i0 i0 n (st', h', b)); [|exact HD].
  simpl. split; [done|by intros ??].
Qed.

Lemma Fix_outside st h i st' h' :
  heap.Fix (st, h) i = Ok (st', h') → h' ≡ₚ h ∧ outside h st st'.
Proof.
  unfold heap.Fix. intros ([[st1 h1] b] & HD & HU)%bind_Ok. simpl in HU.
  destruct (down_outside _ _ _ _ _ _ _ HD) as (Hp1 & Ho1).
  destruct b; simpl in HU; [by injection HU as <- <-|].
  destruct (up_outside _ _ _ _ _ HU) as (Hp2 & Ho2).
  split; [by rewrite Hp2|by eapply outside_trans].
Qed.

Lemma Push_outside st h x st' h' :
  heap.Push (st, h) x = Ok (st', h') → h' ≡ₚ x :: h ∧ outside (x :: h) st st'.
Proof.
  unfold heap.Push. simpl. unfold MinHeap_Push. simpl. intros HU.
  destruct (up_outside _ _ _ _ _ HU) as (Hp & Ho).
  assert (h ++ [x] ≡ₚ x :: h) as Hpx by (by rewrite Permutation_app_comm).
  split; [by rewrite Hp|]. intros q Hq. rewrite Ho by (by rewrite Hpx).
  rewrite load_set_Index. case_decide as Hd; [|done].
  destruct Hd as [-> _]. exfalso. apply Hq. apply list_elem_of_here.
Qed.

Lemma Pop_nonempty st h r : heap.Pop (st, h) = Ok r → 0 < len h.
Proof.
  destruct h as [|p h]; [done|]. intros _. rewrite len_cons.
  pose proof (len_nonneg h). lia.
Qed.

(** [heap.Pop] returns the record at the root and leaves -1 in its
    [Index]. *)
Lemma Pop_outside st h st' h' p :
  heap.Pop (st, h) = Ok (st', h', p) →
  p = h !!! 0%nat ∧ h ≡ₚ p :: h' ∧ heap_frame st st' ∧ outside h st st' ∧
  ((p < length st)%nat → Index (load st' p) = -1).
Proof.
  intros HP. pose proof (Pop_nonempty _ _ _ HP) as Hne.
  destruct (Pop_frame st h Hne) as (st1 & h1 & HP' & Hf & Hp).
  rewrite HP in HP'. injection HP' as <- <- ->.
  split_and!; try done.
  - revert HP. unfold heap.Pop. simpl. unfold MinHeap_Len.
    intros ([st1 h1] & HS & Hrest)%bind_Ok.
    apply bind_Ok in Hrest as ([[st2 h2] b] & HD & HPop). simpl in HPop.
    assert (h1 ≡ₚ h ∧ outside h st st1) as (Hp1 & Ho1).
    { apply (MinHeap_Swap_outside st h (st, h) 0 (len h - 1) (st1, h1));
        [|done]. simpl. split; [done|by intros ??]. }
    destruct (down_outside _ _ _ _ _ _ _ HD) as (Hp2 & Ho2).
    unfold MinHeap_Pop in HPop.
    apply bind_Ok in HPop as (item & Hitem & Heq). injection Heq as <- _ Hit.
    intros q Hq. rewrite load_set_Index. case_decide as Hd.
    + destruct Hd as [-> _]. exfalso. apply Hq. rewrite Hit.
      apply list_elem_of_lookup_total_2. unfold len in Hne. lia.
    + rewrite Ho2, Ho1; [done..|]. by rewrite Hp1.
  - intros Hal. destruct Hf as [Hlen _]. clear -HP Hal Hlen. revert HP.
    unfold heap.Pop. simpl.
    intros (x1 & _ & Hrest)%bind_Ok.
    apply bind_Ok in Hrest as (r & _ & HPop). unfold MinHeap_Pop in HPop.
    apply bind_Ok in HPop as (item & _ & Heq). injection Heq as <- _ Hroot.
    rewrite <- Hroot in *. rewrite length_set_Index in Hlen.
    rewrite load_set_Index, decide_True; [done|]. split; [done|lia].
Qed.

Lemma Init_loop_outside k st0 h0 (x : store * MinHeap) n x' :
  x.2 ≡ₚ h0 ∧ outside h0 st0 x.1 →
  heap.Init_loop k x n = Ok x' →
  x'.2 ≡ₚ h0 ∧ outside h0 st0 x'.1.
Proof.
  revert x. induction k as [|k IH]; intros x HP; simpl.
  { by intros [= <-]. }
  intros (r & HD & Hrest)%bind_Ok. apply (IH r.1); [|done].
  exact (down_loop_inv (λ x, x.2 ≡ₚ h0 ∧ outside h0 st0 x.1)
           (MinHeap_Swap_outside st0 h0) _ _ _ _ _ _ HP HD).
Qed.

Lemma Init_outside st h st' h' :
  heap.Init (st, h) = Ok (st', h') → h' ≡ₚ h ∧ outside h st st'.
Proof.
  unfold heap.Init. intros HI.
  apply (Init_loop_outside (Z.to_nat (Len (st, h) `quot` 2)) st h (st, h)
           (Len (st, h)) (st', h')); [|exact HI].
  simpl. split; [done|by intros ??].
Qed.

(** ** The reads of a shard *)

Lemma GetHotspots_loop_Index k i st h hotspots st' keys :
  NoDup h → (∀ p, p ∈ h → (p < length st)%nat) → k = length h →
  GetHotspots_loop k i (st, h) hotspots = Ok (st', keys) →
  (∀ p, p ∈ h → Index (load st' p) = -1) ∧ outside h st st'.
Proof.
  revert i st h hotspots.
  induction k as [|k IH]; intros i st h hotspots Hnd Hal Hk; simpl.
  { intros [= <- <-]. destruct h; [|done].
    split; [by intros p ?%elem_of_nil|by intros ??]. }
  intros ([[st1 h1] root] & HP & Hloop)%bind_Ok. simpl in Hloop.
  destruct (Pop_outside _ _ _ _ _ HP) as (_ & Hp & Hf1 & Ho1 & HI1).
  rewrite Hp in Hnd. apply NoDup_cons in Hnd as [Hroot Hnd1].
  destruct (IH (S i) st1 h1 (<[i:=Key (load st1 root)]> hotspots) Hnd1)
    as [HI2 Ho2]; [| |exact Hloop|].
  { intros p Hp1. destruct Hf1 as [-> _]. apply Hal. rewrite Hp.
    by apply list_elem_of_further. }
  { apply Permutation_length in Hp. simpl in Hp. lia. }
  split.
  - intros p. rewrite Hp. intros [->|Hin]%elem_of_cons.
    + rewrite Ho2 by done. apply HI1, Hal. rewrite Hp. apply list_elem_of_here.
    + by apply HI2.
  - intros q Hq. rewrite Ho2, Ho1; [done..|].
    intros Hin. apply Hq. rewrite Hp. by apply list_elem_of_further.
Qed.

(** X4. [shard.GetHotspots] on a shard whose heap holds distinct allocated
    records, whatever the order of the heap: the call returns the keys of
    all the records of the heap, each once, in ascending order of frequency;
    afterwards every record of the heap has its key and frequency and -1 in
    [Index], and every other record is as it was. *)
Theorem shard_GetHotspots_effect (st : store) (s : shard) :
  NoDup (minHeap s) → (∀ p, p ∈ minHeap s → (p < length st)%nat) →
  ∃ st' ps,
    shard_GetHotspots st s = Ok (st', key_of st <$> ps) ∧
    ps ≡ₚ minHeap s ∧
    StronglySorted (λ p q, freq_of st p ≤ freq_of st q) ps ∧
    (∀ p, p ∈ minHeap s → load st' p = with_Index (-1) (load st p)) ∧
    (∀ q, q ∉ minHeap s → load st' q = load st q).
Proof.
  intros Hnd Hal.
  destruct (shard_GetHotspots_spec st s) as (st' & ps & HG & Hf & Hp & Hs).
  exists st', ps. split_and!; try done.
  all: revert HG; unfold shard_GetHotspots; simpl;
    intros ([st1 h1] & HI & Hloop)%bind_Ok;
    destruct (Init_outside _ _ _ _ HI) as [Hp1 Ho1];
    destruct (Init_heap st (minHeap s)) as (st1' & h1' & HI' & Hf1 & _);
    rewrite HI in HI'; injection HI' as <- <-;
    assert (NoDup h1) as Hnd1 by (by rewrite Hp1);
    assert (∀ p, p ∈ h1 → (p < length st1)%nat) as Hal1
      by (intros p Hp'; destruct Hf1 as [-> _]; apply Hal; by rewrite <- Hp1);
    destruct (GetHotspots_loop_Index _ _ _ _ _ _ _ Hnd1 Hal1 eq_refl Hloop)
      as [HI2 Ho2].
  - intros p Hin. destruct Hf as [_ Hf]. destruct (Hf p) as (Hk & Hfr & _).
    assert (Index (load st' p) = -1) as Hidx by (apply HI2; by rewrite Hp1).
    destruct (load st' p), (load st p). simpl in *. by subst.
  - intros q Hq. rewrite Ho2, Ho1; [done..|]. by rewrite Hp1.
Qed.

Lemma shard_GetHotspots_effect_witness :
  ∃ st',
    shard_GetHotspots scenario1_store scenario1_shard
      = Ok (st', ["b"; "a"; "d"]%string) ∧
    Index (load st' 0%nat) = -1 ∧ Index (load st' 1%nat) = -1 ∧
    Index (load st' 3%nat) = -1 ∧
    load st' 4%nat = load scenario1_store 4%nat.
Proof.
  destruct (shard_GetHotspots_effect scenario1_store scenario1_shard)
    as (st' & ps & HG & _ & _ & Hin & Hout).
  - apply scenario1_shard_wf.
  - apply scenario1_shard_wf.
  - exists st'. split_and!.
    + pose proof HG as HG'. vm_compute in HG'. injection HG' as _ Hk.
      rewrite HG. do 2 f_equal. symmetry. exact Hk.
    + rewrite (Hin 0%nat); [done|compute_done].
    + rewrite (Hin 1%nat); [done|compute_done].
    + rewrite (Hin 3%nat); [done|compute_done].
    + apply Hout. compute_done.
Defined.

(** X5. On a well-formed shard [shard.IsHotspot] and [shard.GetHotspots]
    return and agree: [IsHotspot] answers [true] exactly for the keys that
    [GetHotspots] returns, and it leaves the shard as it was, its lock
    released. *)
Theorem shard_IsHotspot_iff_shard_GetHotspots (st : store) (s : shard)
    (key : string) :
  shard_wf st s →
  ∃ st' keys b,
    shard_GetHotspots st s = Ok (st', keys) ∧
    shard_IsHotspot s key = Ok (s, b) ∧
    (b = true ↔ key ∈ keys).
Proof.
  intros W.
  destruct (shard_GetHotspots_spec st s) as (st' & ps & HG & _ & Hp & _).
  exists st', (key_of st <$> ps), (bool_decide (is_Some (keyFreqs s !! key))).
  split_and!; [done| |].
  - unfold shard_IsHotspot. pose proof (wf_mu _ _ W) as Hmu. rewrite Hmu.
    simpl. do 2 f_equal. destruct s. simpl in *. by subst.
  - rewrite bool_decide_eq_true, list_elem_of_fmap. split.
    + intros [p Hk]. apply (wf_map _ _ W) in Hk as [Hin Hk].
      exists p. split; [done|]. by rewrite Hp.
    + intros (p & -> & Hin). exists p. apply (wf_map _ _ W).
      split; [|done]. by rewrite <- Hp.
Qed.

Lemma shard_IsHotspot_iff_shard_GetHotspots_witness :
  ∃ st' keys b,
    shard_GetHotspots scenario1_store scenario1_shard = Ok (st', keys) ∧
    shard_IsHotspot scenario1_shard "e" = Ok (scenario1_shard, b) ∧
    (b = true ↔ "e"%string ∈ keys).
Proof.
  exact (shard_IsHotspot_iff_shard_GetHotspots scenario1_store scenario1_shard
           "e" scenario1_shard_wf).
Defined.

(** ** Requests *)

(** [heap.Fix] at -1, the value that [Pop] leaves in [Index], does nothing:
    [down] stops at once since the first child has index -1, and [up] stops
    since -1 is its own parent. *)
Lemma Fix_minus_one st h : heap.Fix (st, h) (-1) = Ok (st, h).
Proof.
  unfold heap.Fix, heap.down. simpl.
  replace ((MinHeap_Len h <=? 2 * -1 + 1) || (2 * -1 + 1 <? 0)) with true
    by (symmetry; apply orb_true_r).
  reflexivity.
Qed.

(** X6. A request for a tracked key whose record has -1 in [Index] (as
    every record that a read has popped from a heap copy or from an
    aggregate has) increments the frequency of the record and changes
    nothing else: the heap of the shard is not reordered. *)
Theorem shard_RecordRequest_Index_reset (st : store) (s : shard) (key : string)
    (kf : ptr) :
  mu s = unlocked → keyFreqs s !! key = Some kf → Index (load st kf) = -1 →
  shard_RecordRequest st s key
  = Ok (set_Frequency st kf (wrap_int (Frequency (load st kf) + 1)), s).
Proof.
  intros Hmu Hkf Hidx. unfold shard_RecordRequest. rewrite Hmu. simpl.
  rewrite Hkf.
  assert (Index (load (set_Frequency st kf
                         (wrap_int (Frequency (load st kf) + 1))) kf) = -1) as ->.
  { rewrite load_set_Frequency. by case_decide. }
  rewrite Fix_minus_one. simpl. do 2 f_equal. destruct s. simpl in *. by subst.
Qed.

Lemma shard_RecordRequest_Index_reset_witness :
  shard_RecordRequest [mkKeyFreq "a" 1 (-1); mkKeyFreq "b" 2 (-1)]
    (mkShard 3 [0; 1]%nat (<["a" := 0%nat]> (<["b" := 1%nat]> ∅)) unlocked) "a"
  = Ok ([mkKeyFreq "a" 2 (-1); mkKeyFreq "b" 2 (-1)],
        mkShard 3 [0; 1]%nat (<["a" := 0%nat]> (<["b" := 1%nat]> ∅)) unlocked).
Proof.
  apply (shard_RecordRequest_Index_reset
           [mkKeyFreq "a" 1 (-1); mkKeyFreq "b" 2 (-1)]
           (mkShard 3 [0; 1]%nat (<["a" := 0%nat]> (<["b" := 1%nat]> ∅)) unlocked)
           "a" 0%nat); reflexivity.
Defined.

Lemma shard_RecordRequest_outside st s key st' s' :
  shard_wf st s → shard_RecordRequest st s key = Ok (st', s') →
  ∀ q, (q < length st)%nat → q ∉ minHeap s → load st' q = load st q.
Proof.
  intros W. destruct (keyFreqs s !! key) as [kf|] eqn:Hkf.
  - assert (kf ∈ minHeap s) as Hin by (by apply (wf_map _ _ W key kf)).
    unfold shard_RecordRequest. rewrite (wf_mu _ _ W). simpl. rewrite Hkf.
    intros ([st2 s2] & Hr & Hrest)%bind_Ok.
    apply bind_Ok in Hr as ([st2' h2'] & HF & Heq). injection Heq as <- <-.
    simpl in Hrest. injection Hrest as <- <-.
    destruct (Fix_outside _ _ _ _ _ HF) as [_ Ho].
    intros q Hq Hqh. rewrite Ho by done. rewrite load_set_Frequency.
    case_decide as Hd; [|done]. destruct Hd as [-> _]. done.
  - rewrite RecordRequest_miss_unfold by (done || apply W).
    assert (∀ q, (q < length st)%nat →
                 load (st ++ [mkKeyFreq key 1 0]) q = load st q) as Hold.
    { intros q Hq. by apply load_app_l. }
    intros (r & HP & Hrest)%bind_Ok. revert HP. unfold processKeyFreq. simpl.
    destruct (_ <? _).
    + intros ([st1 h1] & HPush & HP)%bind_Ok. injection HP as <-.
      simpl in Hrest. injection Hrest as <- <-.
      destruct (Push_outside _ _ _ _ _ HPush) as [_ Ho].
      intros q Hq Hqh. rewrite Ho; [by apply Hold|].
      intros [->|Hin]%elem_of_cons; [lia|done].
    + intros (root & Hroot & HP)%bind_Ok. destruct (_ <=? _).
      * apply bind_Ok in HP as ([[st1 h1] minKey] & HPop & HP). simpl in HP.
        apply bind_Ok in HP as ([st2 h2] & HPush & HP). injection HP as <-.
        simpl in Hrest. injection Hrest as <- <-.
        destruct (Pop_outside _ _ _ _ _ HPop) as (_ & Hp1 & _ & Ho1 & _).
        destruct (Push_outside _ _ _ _ _ HPush) as [_ Ho2].
        intros q Hq Hqh. rewrite Ho2, Ho1; [by apply Hold|done|].
        intros [->|Hin]%elem_of_cons; [lia|]. apply Hqh. rewrite Hp1.
        by apply list_elem_of_further.
      * injection HP as <-. simpl in Hrest. injection Hrest as <- <-.
        intros q Hq _. by apply Hold.
Qed.

(** X7. In every reachable state a request returns, whatever the key, and
    leads to a reachable state.  It works on the shard that the key is
    routed to and on no other: every other shard keeps its heap, its lookup
    table and its lock, and the records it holds are not written, [Index]
    included; the number of shards, the capacity and the cache fields of the
    tracker are unchanged. *)
Theorem RecordRequest_touches_one_shard (σ : state) (key : string) :
  reachable σ →
  ∃ σ' i,
    RecordRequest σ.1 σ.2 key = Ok σ' ∧ reachable σ' ∧
    shardIndex σ.2 key = Ok i ∧
    σ'.2 = set_shards (ht_shards σ'.2) σ.2 ∧
    length (ht_shards σ'.2) = length (ht_shards σ.2) ∧
    ∀ j s, j ≠ Z.to_nat i → ht_shards σ.2 !! j = Some s →
      ht_shards σ'.2 !! j = Some s ∧
      ∀ p, p ∈ minHeap s → load σ'.1 p = load σ.1 p.
Proof.
  intros Hr. pose proof (reachable_wf σ Hr) as W. destruct σ as [st ht].
  simpl in *.
  destruct (RecordRequest_wf st ht key W) as (st' & ht' & HR & W' & _).
  exists (st', ht'), (Z.rem (fnv32a key) (ht_numShards ht)).
  destruct (shardIndex_wf st ht key W) as (s & Hsi & Hidx & Hs).
  split_and!; [done| |done|..].
  { apply (reachable_step (st, ht) (OpRecordRequest key)); done. }
  all: revert HR; unfold RecordRequest; rewrite Hsi; simpl; rewrite Hidx; simpl;
    intros ([st1 s1] & HR & Heq)%bind_Ok; injection Heq as <- <-; simpl.
  - done.
  - by rewrite length_insert.
  - intros j sj Hne Hj. rewrite list_lookup_insert_ne by done.
    split; [done|]. intros p Hp.
    destruct (twf_shard _ W _ s Hs) as (Ws & _).
    destruct (twf_shard _ W _ sj Hj) as (Wj & _).
    apply (shard_RecordRequest_outside st s key st1 s1 Ws HR).
    + by apply (wf_alloc _ _ Wj).
    + intros Hps.
      destruct (twf_same_shard st ht W _ j s sj p p Hs Hj Hps Hp eq_refl)
        as [Hij _].
      by apply Hne.
Qed.

Lemma RecordRequest_touches_one_shard_witness :
  ∃ σ' i,
    RecordRequest scenario1_store scenario1_tracker "zz" = Ok σ' ∧
    reachable σ' ∧ shardIndex scenario1_tracker "zz" = Ok i ∧
    length (ht_shards σ'.2) = 1%nat.
Proof.
  destruct (RecordRequest_touches_one_shard
              (scenario1_store, scenario1_tracker) "zz" scenario1_reachable)
    as (σ' & i & HR & Hr & Hi & _ & Hl & _).
  exists σ', i. by split_and!.
Defined.

(** X8. [shardIndex] panics (integer division by zero) when the tracker
    has no shards, and otherwise returns an index from 0 up to, and not
    including, the absolute value of [numShards]: the hash is an unsigned
    32-bit value, so its conversion to [int] is not negative and neither is
    the remainder.  For a tracker with as many shards as [numShards] says,
    [ht.shards[shardIndex]] is therefore inside the slice. *)
Theorem shardIndex_in_range (ht : HotspotTracker) (key : string) :
  (ht_numShards ht = 0 → shardIndex ht key = Panic) ∧
  (ht_numShards ht ≠ 0 →
   ∃ i, shardIndex ht key = Ok i ∧ 0 ≤ i < Z.abs (ht_numShards ht)) ∧
  (0 < ht_numShards ht → ht_numShards ht = len (ht_shards ht) →
   ∃ i s, shardIndex ht key = Ok i ∧ index (ht_shards ht) i = Ok s).
Proof.
  pose proof (fnv32a_range key) as Hr. unfold shardIndex. split_and!.
  - intros ->. done.
  - intros Hn. destruct (Z.eqb_spec (ht_numShards ht) 0); [done|].
    eexists. split; [done|].
    pose proof (Z.rem_bound_pos_pos (fnv32a key) (Z.abs (ht_numShards ht))).
    rewrite Z.rem_abs_r in * by done. lia.
  - intros Hn Hl. destruct (Z.eqb_spec (ht_numShards ht) 0); [lia|].
    assert (0 ≤ Z.rem (fnv32a key) (ht_numShards ht) < ht_numShards ht) as Hi.
    { apply Z.rem_bound_pos; lia. }
    destruct (ht_shards ht !! Z.to_nat (Z.rem (fnv32a key) (ht_numShards ht)))
      as [s|] eqn:E.
    + exists (Z.rem (fnv32a key) (ht_numShards ht)), s. split; [done|].
      unfold index.
      destruct (Z.ltb_spec (Z.rem (fnv32a key) (ht_numShards ht)) 0); [lia|].
      by rewrite E.
    + apply lookup_ge_None in E. unfold len in *. lia.
Qed.

(** X9. [Close] on a tracker with the cache enabled closes the stop channel
    and returns; a second [Close] panics, since the channel is closed
    already. *)
Theorem Close_twice_panics (ht : HotspotTracker) :
  ∃ ht1,
    Close (WithCache ht) = Ok ht1 ∧
    ht_stop ht1 = chan_closed ∧ ht_shards ht1 = ht_shards ht ∧
    Close ht1 = Panic.
Proof. eexists. by split_and!. Qed.

(** X10. After construction with positive arguments and any sequence of
    operations that are not reads, the heap of every shard is in order
    (every record has a frequency no larger than those of its children, so
    the root has the least), and the [Index] of every record of the heap is
    its position. *)
Theorem writes_keep_heaps_ordered (topN numShards : Z) (ops : list op)
    (σ : state) (i : nat) (s : shard) :
  0 < topN → 0 < numShards → Forall (λ o, is_read o = false) ops →
  run_new topN numShards ops = Ok σ → ht_shards σ.2 !! i = Some s →
  heap_from σ.1 (minHeap s) 0 (len (minHeap s)) ∧
  (∀ root p, minHeap s !! 0%nat = Some root → p ∈ minHeap s →
             freq_of σ.1 root ≤ freq_of σ.1 p) ∧
  (∀ k p, minHeap s !! k = Some p → Index (load σ.1 p) = Z.of_nat k).
Proof.
  intros Hn Hs Hw Hrun Hi.
  apply bind_Ok in Hrun as (ht & Hnew & Hrun).
  assert (tracker_ordered σ) as Hord.
  { eapply run_writes_ordered; [|by eapply tracker_ordered_new|done..].
    exact (reachable_new _ _ _ Hn Hs Hnew). }
  destruct (Hord i s Hi) as [Hh [_ Hidx]]. split_and!; [done| |].
  - intros root p Hroot Hp.
    apply list_lookup_total_correct in Hroot as <-. by apply heap_from_min.
  - intros k p Hk. by destruct (Hidx k p Hk).
Qed.

Lemma writes_keep_heaps_ordered_witness :
  Index (load scenario1_store 3%nat) = 2.
Proof.
  destruct (writes_keep_heaps_ordered 3 1 (OpRecordRequest <$> scenario1_keys)
              (scenario1_store, scenario1_tracker) 0%nat scenario1_shard)
    as (_ & _ & Hidx).
  - reflexivity.
  - reflexivity.
  - repeat constructor.
  - exact scenario1_run.
  - reflexivity.
  - exact (Hidx 2%nat 3%nat eq_refl).
Defined.

(** ** Aggregation selects the largest frequencies *)

Lemma top_of_frame st st' n seen h :
  (∀ p, freq_of st' p = freq_of st p) → top_of st n seen h → top_of st' n seen h.
Proof.
  intros Hf (H1 & H2 & H3). split_and!; [done..|].
  intros p q ???. rewrite !Hf. by apply H3.
Qed.

Lemma top_of_equiv st n seen seen' h :
  (∀ p, p ∈ seen ↔ p ∈ seen') → top_of st n seen h → top_of st n seen' h.
Proof.
  intros He (H1 & H2 & H3). split_and!.
  - intros p Hp. by apply He, H1.
  - intros Hl p Hp. by apply H2, He.
  - intros p q Hp. apply H3. by apply He.
Qed.

(** One step of the selection: [processKeyFreq] on a heap in order. *)
Lemma processKeyFreq_top st t kf seen :
  0 < topN t → len (minHeap t) ≤ topN t →
  heap_from st (minHeap t) 0 (len (minHeap t)) →
  top_of st (topN t) seen (minHeap t) →
  ∃ st' t',
    processKeyFreq st t kf = Ok (st', t') ∧
    heap_from st' (minHeap t') 0 (len (minHeap t')) ∧
    top_of st (topN t) (kf :: seen) (minHeap t').
Proof.
  intros Hn Hsize Hh (H1 & H2 & H3). unfold processKeyFreq.
  destruct (Z.ltb_spec (len (minHeap t)) (topN t)) as [Hroom|Hfull].
  - destruct (Push_heap st (minHeap t) kf Hh) as (st1 & h1 & -> & Hf1 & Hh1 & Hp1).
    simpl. eexists _, _. split; [done|]. simpl. split; [done|].
    split_and!.
    + intros p. rewrite Hp1, !elem_of_cons. intros [->|Hp]; auto.
    + intros _ p. rewrite Hp1, !elem_of_cons. intros [->|Hp]; auto.
    + intros p q. rewrite Hp1, !elem_of_cons. intros [->|Hp] Hnp Hq.
      * exfalso. auto.
      * exfalso. apply Hnp. right. by apply H2.
  - assert (0 < len (minHeap t)) as Hne by lia.
    rewrite index_Ok by lia. simpl. change (Z.to_nat 0) with 0%nat.
    set (root := minHeap t !!! 0%nat).
    assert (∀ q, q ∈ minHeap t → freq_of st root ≤ freq_of st q) as Hmin.
    { intros q Hq. by apply heap_from_min. }
    fold (freq_of st root). fold (freq_of st kf).
    destruct (Z.leb_spec (freq_of st root) (freq_of st kf)) as [Hle|Hgt].
    + destruct (Pop_heap st (minHeap t) Hne Hh)
        as (st1 & h1 & -> & Hf1 & Hh1 & Hp1).
      simpl.
      destruct (Push_heap st1 h1 kf Hh1) as (st2 & h2 & -> & Hf2 & Hh2 & Hp2).
      simpl. eexists _, _. split; [done|]. simpl. split; [done|].
      fold root in Hp1.
      assert (∀ q, q ∈ h1 → q ∈ minHeap t) as Hsub.
      { intros q Hq. rewrite Hp1. by apply list_elem_of_further. }
      assert (root ∈ minHeap t) as Hroot.
      { rewrite Hp1. apply list_elem_of_here. }
      split_and!.
      * intros p. rewrite Hp2, !elem_of_cons. intros [->|Hp]; auto.
      * intros Hl. rewrite (len_perm _ _ Hp2), len_cons in Hl.
        rewrite (len_perm _ _ Hp1), len_cons in Hfull. lia.
      * intros p q. rewrite Hp2, !elem_of_cons. intros [->|Hp] Hnp Hq.
        { exfalso. auto. }
        assert (p ∉ h1) as Hnp1 by auto.
        destruct (decide (p = root)) as [->|Hpr].
        -- destruct Hq as [->|Hq]; [done|]. by apply Hmin, Hsub.
        -- assert (p ∉ minHeap t) as Hnpt.
           { rewrite Hp1, elem_of_cons. intros [?|?]; done. }
           destruct Hq as [->|Hq].
           ++ transitivity (freq_of st root); [|done]. by apply H3.
           ++ apply H3; auto.
    + eexists _, _. split; [done|]. split; [done|]. split_and!.
      * intros p Hp. apply elem_of_cons. auto.
      * intros Hl. lia.
      * intros p q [->|Hp]%elem_of_cons Hnp Hq.
        -- specialize (Hmin q Hq). lia.
        -- by apply H3.
Qed.

Section aggregate_top.
Variable U : ptr → Prop.

Lemma aggregate_heap_top st t kfs seen :
  shard_wf st t → 0 < topN t → key_inj U st →
  NoDup kfs → (∀ p, p ∈ kfs → (p < length st)%nat ∧ U p) →
  (∀ p, p ∈ minHeap t → U p ∧ p ∉ kfs) →
  heap_from st (minHeap t) 0 (len (minHeap t)) →
  top_of st (topN t) seen (minHeap t) →
  ∃ st' t',
    aggregate_heap st t kfs = Ok (st', t') ∧
    heap_from st' (minHeap t') 0 (len (minHeap t')) ∧
    top_of st (topN t) (kfs ++ seen) (minHeap t').
Proof.
  revert st t seen.
  induction kfs as [|kf kfs IH]; intros st t seen W Hn HU Hnd Hk Ht Hh Htop.
  { exists st, t. by split_and!. }
  simpl. apply NoDup_cons in Hnd as [Hkf Hnd].
  destruct (Hk kf) as [Hal HUkf]; [by apply list_elem_of_here|].
  assert (keyFreqs t !! key_of st kf = None) as Hnone.
  { destruct (keyFreqs t !! key_of st kf) as [p|] eqn:E; [|done].
    apply (wf_map _ _ W) in E as [Hin Hkey].
    destruct (Ht p Hin) as [HUp Hnin].
    assert (p = kf) by (by apply HU). subst p.
    exfalso. apply Hnin. by apply list_elem_of_here. }
  destruct (processKeyFreq_wf st t kf W Hn Hal Hnone)
    as (st1 & t1 & HP & Hf1 & W1 & Hn1 & Hsub1 & _).
  destruct (processKeyFreq_top st t kf seen Hn (wf_size _ _ W) Hh Htop)
    as (st1' & t1' & HP' & Hh1 & Ht1).
  rewrite HP in HP'. injection HP' as <- <-. rewrite HP. simpl.
  assert (∀ p, freq_of st1 p = freq_of st p) as Hfr.
  { intros p. by apply freq_of_frame. }
  destruct (IH st1 t1 (kf :: seen)) as (st2 & t2 & -> & Hh2 & Ht2);
    [done|lia|by eapply key_inj_frame|done| | |done| |].
  { intros p Hp. destruct (Hk p) as [? ?]; [by apply list_elem_of_further|].
    destruct Hf1 as [-> _]. done. }
  { intros p Hp. destruct (Hsub1 p Hp) as [->|Hin]; [done|].
    destruct (Ht p Hin) as [? Hnin]. split; [done|].
    intros ?. apply Hnin. by apply list_elem_of_further. }
  { rewrite Hn1. by apply (top_of_frame st). }
  exists st2, t2. split_and!; [done..|].
  rewrite Hn1 in Ht2.
  apply (top_of_equiv _ _ (kfs ++ kf :: seen)).
  { intros p. rewrite !elem_of_app, !elem_of_cons, elem_of_app. tauto. }
  apply (top_of_frame st1); [|done]. intros p. by rewrite Hfr.
Qed.

Lemma aggregate_loop_top st t shards seen :
  shard_wf st t → 0 < topN t → key_inj U st →
  (∀ s, s ∈ shards → mu s = unlocked) →
  NoDup (concat (minHeap <$> shards)) →
  (∀ p, p ∈ concat (minHeap <$> shards) → (p < length st)%nat ∧ U p) →
  (∀ p, p ∈ minHeap t → U p ∧ p ∉ concat (minHeap <$> shards)) →
  heap_from st (minHeap t) 0 (len (minHeap t)) →
  top_of st (topN t) seen (minHeap t) →
  ∃ st' t',
    aggregate_loop st t shards = Ok (st', t', shards) ∧
    top_of st (topN t) (concat (minHeap <$> shards) ++ seen) (minHeap t').
Proof.
  revert st t seen.
  induction shards as [|s shards IH];
    intros st t seen W Hn HU Hmu Hnd Hk Ht Hh Htop.
  { exists st, t. by split_and!. }
  destruct (aggregate_loop_wf U st t (s :: shards) W Hn HU Hmu Hnd Hk Ht)
    as (st' & t' & HL & _).
  exists st', t'. split; [done|]. revert HL.
  simpl in *. rewrite (Hmu s) by apply list_elem_of_here. simpl.
  apply NoDup_app in Hnd as (Hnd1 & Hdisj & Hnd2).
  assert (∀ p, p ∈ minHeap s → (p < length st)%nat ∧ U p) as Hk1.
  { intros p Hp. apply Hk. apply elem_of_app. auto. }
  assert (∀ p, p ∈ minHeap t → U p ∧ p ∉ minHeap s) as Ht1.
  { intros p Hp. destruct (Ht p Hp) as [? Hnin]. split; [done|].
    intros ?. apply Hnin. apply elem_of_app. auto. }
  destruct (aggregate_heap_wf U st t (minHeap s) W Hn HU Hnd1 Hk1 Ht1)
    as (st1 & t1 & HA & Hf1 & W1 & Hn1 & Hsub1).
  destruct (aggregate_heap_top st t (minHeap s) seen W Hn HU Hnd1 Hk1 Ht1 Hh Htop)
    as (st1' & t1' & HA' & Hh1 & Htop1).
  rewrite HA in HA'. injection HA' as <- <-. rewrite HA. simpl.
  assert (∀ p, freq_of st1 p = freq_of st p) as Hfr.
  { intros p. by apply freq_of_frame. }
  destruct (IH st1 t1 (minHeap s ++ seen)) as (st2 & t2 & -> & Htop2);
    [done|lia|by eapply key_inj_frame| |done| | |done| |].
  { intros s' Hs'. apply Hmu. by apply list_elem_of_further. }
  { intros p Hp. destruct (Hk p) as [? ?]; [apply elem_of_app; auto|].
    destruct Hf1 as [-> _]. done. }
  { intros p Hp. destruct (Hsub1 p Hp) as [Hin|Hin].
    - destruct (Ht p Hin) as [? Hnin]. split; [done|].
      intros ?. apply Hnin. apply elem_of_app. auto.
    - split; [apply Hk; apply elem_of_app; auto|]. by apply Hdisj. }
  { rewrite Hn1. by apply (top_of_frame st). }
  simpl. intros [= <- <-].
  rewrite Hn1 in Htop2.
  apply (top_of_equiv _ _ (concat (minHeap <$> shards) ++ minHeap s ++ seen)).
  { intros p. rewrite !elem_of_app. tauto. }
  apply (top_of_frame st1); [|done]. intros p. by rewrite Hfr.
Qed.

End aggregate_top.

Lemma aggregateShards_top st ht :
  tracker_wf (st, ht) →
  ∃ st' agg,
    aggregateShards st ht = Ok (st', ht, agg) ∧
    top_of st (ht_topN ht) (all_ptrs (ht_shards ht)) (minHeap agg).
Proof.
  intros W. unfold aggregateShards.
  destruct (aggregate_loop_top (λ p, p ∈ all_ptrs (ht_shards ht))
              st (NewShard (ht_topN ht)) (ht_shards ht) [])
    as (st' & agg & -> & Htop).
  - apply shard_wf_NewShard. pose proof (twf_topN _ W). simpl in *. lia.
  - apply (twf_topN _ W).
  - apply (twf_key_inj st ht W).
  - intros s (i & Hi)%list_elem_of_lookup.
    destruct (twf_shard _ W i s Hi) as (Ws & _). apply Ws.
  - apply (twf_NoDup st ht W).
  - intros p Hp. split; [by apply (twf_alloc st ht W)|done].
  - intros p Hp. simpl in Hp. by apply elem_of_nil in Hp.
  - intros i j Hi Hj Hjn. unfold len in Hjn. simpl in Hjn. lia.
  - split_and!.
    + intros p Hp. simpl in Hp. by apply elem_of_nil in Hp.
    + intros _ p Hp. by apply elem_of_nil in Hp.
    + intros p q Hp. by apply elem_of_nil in Hp.
  - simpl. rewrite set_shards_id. exists st', agg. split; [done|].
    simpl in Htop. by rewrite app_nil_r in Htop.
Qed.

Lemma top_of_perm st n seen h h' :
  h' ≡ₚ h → top_of st n seen h → top_of st n seen h'.
Proof.
  intros Hp (H1 & H2 & H3). split_and!.
  - intros p. rewrite Hp. apply H1.
  - rewrite (len_perm _ _ Hp). intros Hl p Hin. rewrite Hp. by apply H2.
  - intros p q Hin. rewrite Hp. by apply H3.
Qed.

Lemma tracked_Some st ht k p :
  tracker_wf (st, ht) → tracked (st, ht) k = Some p →
  p ∈ all_ptrs (ht_shards ht) ∧ key_of st p = k.
Proof.
  intros W. unfold tracked. simpl.
  destruct (shardIndex_wf st ht k W) as (s & -> & _ & Hs). rewrite Hs. simpl.
  intros Hk. destruct (twf_shard _ W _ s Hs) as (Ws & _).
  apply (wf_map _ _ Ws) in Hk as [Hin Hkey]. split; [|done].
  apply elem_of_all_ptrs. eauto.
Qed.

(** What [GetHotspots] returns, in terms of the records selected. *)
Lemma reads_top st ht :
  tracker_wf (st, ht) → ht_withCache ht = false →
  ∃ st2 ps,
    GetHotspots st ht = Ok (st2, ht, key_of st <$> ps) ∧
    NoDup ps ∧ len ps ≤ ht_topN ht ∧
    StronglySorted (λ p q, freq_of st p ≤ freq_of st q) ps ∧
    (∀ key, ∃ st1, IsHotspot st ht key
                   = Ok (st1, ht, bool_decide (key ∈ key_of st <$> ps))) ∧
    top_of st (ht_topN ht) (all_ptrs (ht_shards ht)) ps.
Proof.
  intros W Hc.
  destruct (reads_spec st ht W Hc)
    as (st1 & st2 & agg & ps & HA & HG & HI & Hf1 & _ & Wa & Hn & Hp & _ & Hs).
  destruct (aggregateShards_top st ht W) as (st1' & agg' & HS & Htop).
  assert (agg' = agg) as ->.
  { revert HA. unfold AggregateData.
    pose proof (twf_mu _ W) as Hmu. simpl in Hmu. rewrite Hmu. simpl.
    rewrite Hc. rewrite aggregateShards_set_ht_mu, HS. simpl.
    by intros [= _ _ ->]. }
  exists st2, ps. split_and!; [done| | |done| |].
  - rewrite Hp. apply Wa.
  - rewrite (len_perm _ _ Hp), <- Hn. apply (wf_size _ _ Wa).
  - intros key. exists st1. rewrite HI. do 2 f_equal.
    apply bool_decide_ext. rewrite list_elem_of_fmap. split.
    + intros [p Hk]. apply (wf_map _ _ Wa) in Hk as [Hin Hk].
      exists p. rewrite (key_of_frame st st1) in Hk by done.
      split; [done|]. by rewrite Hp.
    + intros (p & -> & Hin). exists p. apply (wf_map _ _ Wa).
      rewrite (key_of_frame st st1) by done. split; [|done]. by rewrite <- Hp.
  - by apply (top_of_perm _ _ _ (minHeap agg)).
Qed.

(** X11. In every reachable state of a tracker without the cache,
    [GetHotspots] returns and leaves the tracker as it was; the keys it
    returns are distinct, each of them is tracked by the shard it is routed
    to, and their number is the smaller of [topN] and the number of records
    held by all the shards; when the shards hold at most [topN] records,
    every tracked key is returned. *)
Theorem GetHotspots_distinct_tracked (σ : state) :
  reachable σ → ht_withCache σ.2 = false →
  ∃ st' keys,
    GetHotspots σ.1 σ.2 = Ok (st', σ.2, keys) ∧
    NoDup keys ∧
    (∀ k, k ∈ keys → is_Some (tracked σ k)) ∧
    len keys = Z.min (ht_topN σ.2) (len (all_ptrs (ht_shards σ.2))) ∧
    (len (all_ptrs (ht_shards σ.2)) ≤ ht_topN σ.2 →
     ∀ k, is_Some (tracked σ k) → k ∈ keys).
Proof.
  intros Hr Hc. pose proof (reachable_wf σ Hr) as W. destruct σ as [st ht].
  simpl in *.
  destruct (reads_top st ht W Hc)
    as (st2 & ps & HG & Hnd & Hl & _ & _ & H1 & H2 & H3).
  pose proof (twf_NoDup st ht W) as Hnd'.
  assert (ps ⊆+ all_ptrs (ht_shards ht)) as Hsub by (by apply NoDup_submseteq).
  pose proof (submseteq_length _ _ Hsub) as Hle.
  assert (len (all_ptrs (ht_shards ht)) ≤ ht_topN ht →
          ps ≡ₚ all_ptrs (ht_shards ht)) as Hall.
  { intros Hfew. destruct (Z.lt_ge_cases (len ps) (ht_topN ht)) as [Hlt|Hge].
    - apply list.NoDup_Permutation; [done..|]. intros p. split; [apply H1|by apply H2].
    - apply submseteq_length_Permutation; [done|]. unfold len in *. lia. }
  exists st2, (key_of st <$> ps). split_and!; [done| | | |].
  - apply NoDup_fmap_2_strong; [|done]. intros p q Hp Hq Hk.
    apply (twf_key_inj st ht W); auto.
  - intros k (p & -> & Hp)%list_elem_of_fmap.
    exists p. apply tracked_of_ptr; auto.
  - unfold len at 1. rewrite length_fmap. fold (len ps).
    destruct (Z.lt_ge_cases (len ps) (ht_topN ht)) as [Hlt|Hge].
    + assert (ps ≡ₚ all_ptrs (ht_shards ht)) as Hp.
      { apply list.NoDup_Permutation; [done..|].
        intros p. split; [apply H1|by apply H2]. }
      rewrite <- (len_perm _ _ Hp). lia.
    + unfold len in *. lia.
  - intros Hfew k [p Hk]. apply (tracked_Some st ht k p W) in Hk as [Hp <-].
    apply list_elem_of_fmap. exists p. split; [done|]. by rewrite (Hall Hfew).
Qed.

Lemma GetHotspots_distinct_tracked_witness :
  ∃ st' keys,
    GetHotspots scenario1_store scenario1_tracker
      = Ok (st', scenario1_tracker, keys) ∧
    NoDup keys ∧ len keys = 3.
Proof.
  destruct (GetHotspots_distinct_tracked (scenario1_store, scenario1_tracker)
              scenario1_reachable eq_refl)
    as (st' & keys & HG & Hnd & _ & Hl & _).
  exists st', keys. by split_and!.
Defined.

(** X12. In every reachable state of a tracker without the cache, the keys
    that [GetHotspots] returns are the most frequent of the tracked keys: a
    tracked key that is not returned has a frequency no larger than that of
    any key returned. *)
Theorem GetHotspots_top (σ : state) :
  reachable σ → ht_withCache σ.2 = false →
  ∃ st' keys,
    GetHotspots σ.1 σ.2 = Ok (st', σ.2, keys) ∧
    ∀ k k' f f',
      frequency σ k = Some f → k ∉ keys →
      k' ∈ keys → frequency σ k' = Some f' → f ≤ f'.
Proof.
  intros Hr Hc. pose proof (reachable_wf σ Hr) as W. destruct σ as [st ht].
  simpl in *.
  destruct (reads_top st ht W Hc)
    as (st2 & ps & HG & Hnd & Hl & _ & _ & H1 & H2 & H3).
  exists st2, (key_of st <$> ps). split; [done|].
  intros k k' f f' Hf Hk Hk' Hf'. unfold frequency in *. simpl in *.
  destruct (tracked (st, ht) k) as [p|] eqn:Hp; [|done].
  destruct (tracked (st, ht) k') as [q|] eqn:Hq; [|done].
  simpl in *. injection Hf as <-. injection Hf' as <-.
  apply (tracked_Some st ht k p W) in Hp as [Hp <-].
  apply list_elem_of_fmap in Hk' as (q' & -> & Hq').
  rewrite (tracked_of_ptr st ht q' W) in Hq by auto. injection Hq as <-.
  apply H3; [done| |done].
  intros Hin. apply Hk. apply list_elem_of_fmap. eauto.
Qed.

Lemma GetHotspots_top_witness :
  ∃ st' keys,
    GetHotspots scenario1_store scenario1_tracker
      = Ok (st', scenario1_tracker, keys) ∧
    ∀ k k' f f',
      frequency (scenario1_store, scenario1_tracker) k = Some f → k ∉ keys →
      k' ∈ keys → frequency (scenario1_store, scenario1_tracker) k' = Some f' →
      f ≤ f'.
Proof.
  exact (GetHotspots_top (scenario1_store, scenario1_tracker)
           scenario1_reachable eq_refl).
Defined.

(** ** Exact counts while the keys fit *)

Lemma occurrences_snoc k pre key :
  occurrences k (pre ++ [key]) =
  occurrences k pre + (if decide (key = k) then 1 else 0).
Proof.
  unfold occurrences. rewrite filter_app, len_app. f_equal.
  rewrite filter_cons, filter_nil. by case_decide.
Qed.

Lemma occurrences_bounds k l : 0 ≤ occurrences k l ≤ len l.
Proof.
  unfold occurrences. split; [apply len_nonneg|].
  pose proof (length_filter (λ x, x = k) l). unfold len. lia.
Qed.

Lemma occurrences_notin k l : k ∉ l → occurrences k l = 0.
Proof.
  unfold occurrences. induction l as [|x l IH]; [done|].
  intros Hk. apply not_elem_of_cons in Hk as [Hne Hk].
  rewrite filter_cons. rewrite decide_False by done. by apply IH.
Qed.

(** The lookup of a key after the shard at [i] has been replaced. *)
Lemma tracked_insert st st' ht s' i k :
  tracker_wf (st, ht) → 0 ≤ i < ht_numShards ht →
  tracked (st', set_shards (<[Z.to_nat i := s']> (ht_shards ht)) ht) k =
  if decide (Z.rem (fnv32a k) (ht_numShards ht) = i) then keyFreqs s' !! k
  else tracked (st, ht) k.
Proof.
  intros W Hi. unfold tracked. simpl.
  destruct (shardIndex_wf st ht k W) as (s & Hsi & _ & Hs).
  assert (shardIndex (set_shards (<[Z.to_nat i:=s']> (ht_shards ht)) ht) k
          = shardIndex ht k) as -> by done.
  rewrite Hsi. pose proof (twf_len _ W) as Hl. simpl in Hl.
  case_decide as Hd.
  - rewrite Hd. rewrite list_lookup_insert_eq; [done|]. unfold len in Hl. lia.
  - rewrite list_lookup_insert_ne; [done|].
    pose proof (fnv32a_range k).
    assert (0 ≤ Z.rem (fnv32a k) (ht_numShards ht)) by (apply Z.rem_nonneg; lia).
    lia.
Qed.

Lemma tracked_store st st' ht k : tracked (st', ht) k = tracked (st, ht) k.
Proof. done. Qed.

(** One request, while every key requested so far has a record and its
    record counts its requests. *)
Lemma RecordRequest_counts st ht key pre :
  tracker_wf (st, ht) →
  (∀ l, NoDup l → (∀ k, k ∈ l → k ∈ pre ++ [key]) → len l ≤ ht_topN ht) →
  len (pre ++ [key]) ≤ int_max →
  (∀ k, frequency (st, ht) k =
        if decide (k ∈ pre) then Some (occurrences k pre) else None) →
  ∃ st' ht',
    RecordRequest st ht key = Ok (st', ht') ∧
    ∀ k, frequency (st', ht') k =
         if decide (k ∈ pre ++ [key]) then Some (occurrences k (pre ++ [key]))
         else None.
Proof.
  intros W Hfit Hmax Inv.
  destruct (shardIndex_wf st ht key W) as (s & Hsi & Hidx & Hs).
  destruct (twf_shard _ W _ s Hs) as (Ws & Hn & Hroute). simpl in *.
  pose proof (twf_numShards _ W) as Hns. simpl in Hns.
  pose proof (fnv32a_range key) as Hfnv.
  set (i := Z.rem (fnv32a key) (ht_numShards ht)) in *.
  assert (0 ≤ i < ht_numShards ht) as Hi by (apply Z.rem_bound_pos; lia).
  assert (tracked (st, ht) key = keyFreqs s !! key) as Htr.
  { unfold tracked. simpl. rewrite Hsi. fold i. by rewrite Hs. }
  assert (∀ k, k ≠ key →
    (if decide (k ∈ pre ++ [key]) then Some (occurrences k (pre ++ [key]))
     else None) =
    (if decide (k ∈ pre) then Some (occurrences k pre) else None)) as Hother.
  { intros k Hne. rewrite occurrences_snoc.
    destruct (decide (key = k)) as [->|_]; [done|].
    rewrite Z.add_0_r. repeat case_decide; try done.
    - rewrite elem_of_app, list_elem_of_singleton in *. tauto.
    - rewrite elem_of_app in *. tauto. }
  unfold RecordRequest. rewrite Hsi. simpl. rewrite Hidx. simpl.
  destruct (keyFreqs s !! key) as [kf|] eqn:Hkf.
  - (* the key has a record *)
    assert (kf ∈ minHeap s ∧ key_of st kf = key) as [Hin Hkey]
      by (by apply (wf_map _ _ Ws)).
    destruct (RecordRequest_hit_spec st s key kf)
      as (st' & h' & -> & Hp & Hf);
      [apply Ws|done|by apply (wf_alloc _ _ Ws)|apply (twf_idx _ W)|].
    simpl. eexists _, _. split; [done|].
    pose proof (Inv key) as Hk. unfold frequency in Hk. simpl in Hk.
    rewrite Htr in Hk. simpl in Hk.
    destruct (decide (key ∈ pre)) as [Hpre|]; [|done]. injection Hk as Hk.
    intros k. unfold frequency. simpl.
    rewrite (tracked_insert st st' ht _ i k W Hi). simpl.
    assert ((if decide (Z.rem (fnv32a k) (ht_numShards ht) = i)
             then keyFreqs s !! k else tracked (st, ht) k)
            = tracked (st, ht) k) as ->.
    { case_decide as Hd; [|done]. unfold tracked. simpl.
      destruct (shardIndex_wf st ht k W) as (s0 & -> & _ & Hs0).
      rewrite Hd in Hs0. rewrite Hs in Hs0. injection Hs0 as <-.
      rewrite Hd. by rewrite Hs. }
    destruct (decide (k = key)) as [->|Hne].
    + rewrite Htr. simpl. rewrite decide_True
        by (apply elem_of_app; right; apply list_elem_of_here).
      f_equal. rewrite (freq_of_frame _ _ kf Hf). unfold freq_of at 1.
      rewrite load_set_Frequency. rewrite decide_True
        by (split; [done|by apply (wf_alloc _ _ Ws)]).
      simpl. rewrite occurrences_snoc, decide_True by done.
      fold (freq_of st kf). rewrite Hk. apply wrap_int_id.
      pose proof (occurrences_bounds key pre). rewrite len_app in Hmax.
      unfold len at 2 in Hmax. simpl in Hmax. unfold int_min, int_max in *. lia.
    + rewrite Hother by done. rewrite <- Inv. unfold frequency. simpl.
      destruct (tracked (st, ht) k) as [p|] eqn:Hp'; [|done]. simpl. f_equal.
      apply (tracked_Some st ht k p W) in Hp' as [_ Hkp].
      rewrite (freq_of_frame _ _ p Hf). unfold freq_of at 1.
      rewrite load_set_Frequency. rewrite decide_False; [done|].
      intros [-> _]. congruence.
  - (* the key has no record: the shard has room *)
    pose proof (Inv key) as Hk. unfold frequency in Hk. simpl in Hk.
    rewrite Htr in Hk. simpl in Hk.
    destruct (decide (key ∈ pre)) as [|Hpre]; [done|]. clear Hk.
    assert (len (minHeap s) < topN s) as Hroom.
    { assert (len (key :: (key_of st <$> minHeap s)) ≤ ht_topN ht) as Hl.
      - apply Hfit.
        + constructor.
          * intros (p & Hkp & Hp)%list_elem_of_fmap.
            assert (keyFreqs s !! key = Some p) as Hsome
              by (by apply (wf_map _ _ Ws)).
            congruence.
          * apply NoDup_fmap_2_strong; [|apply Ws].
            intros p q Hp Hq Hkq.
            assert (keyFreqs s !! key_of st p = Some p) as H1
              by (by apply (wf_map _ _ Ws)).
            assert (keyFreqs s !! key_of st p = Some q) as H2
              by (by apply (wf_map _ _ Ws)).
            congruence.
        + intros k [->|(p & -> & Hp)%list_elem_of_fmap]%elem_of_cons.
          * apply elem_of_app. right. apply list_elem_of_here.
          * apply elem_of_app. left.
            assert (tracked (st, ht) (key_of st p) = Some p) as Htp.
            { apply tracked_of_ptr; [done|]. apply elem_of_all_ptrs. eauto. }
            pose proof (Inv (key_of st p)) as Hkp. unfold frequency in Hkp.
            rewrite Htp in Hkp. simpl in Hkp. by case_decide.
      - rewrite len_cons in Hl. unfold len in *. rewrite length_fmap in Hl. lia. }
    rewrite RecordRequest_miss_unfold by (done || apply Ws).
    set (st0 := st ++ [mkKeyFreq key 1 0]).
    destruct (processKeyFreq_room st0 (set_mu (mkRWMutex 0 true) s) (length st))
      as (st' & h' & -> & Hf & Hp); [done|].
    simpl. eexists _, _. split; [done|].
    assert (key_of st0 (length st) = key) as Hk0 by apply key_of_alloc.
    rewrite Hk0.
    intros k. unfold frequency. simpl.
    rewrite (tracked_insert st st' ht _ i k W Hi). simpl.
    destruct (decide (k = key)) as [->|Hne].
    + rewrite decide_True by done. rewrite lookup_insert_eq. simpl.
      rewrite decide_True
        by (apply elem_of_app; right; apply list_elem_of_here).
      f_equal. rewrite (freq_of_frame _ _ _ Hf). unfold st0.
      rewrite freq_of_alloc, occurrences_snoc, decide_True by done.
      by rewrite occurrences_notin.
    + assert ((if decide (Z.rem (fnv32a k) (ht_numShards ht) = i)
               then <[key:=length st]> (keyFreqs s) !! k
               else tracked (st, ht) k)
              = tracked (st, ht) k) as ->.
      { case_decide as Hd; [|done]. rewrite lookup_insert_ne by done.
        unfold tracked. simpl.
        destruct (shardIndex_wf st ht k W) as (s0 & -> & _ & Hs0).
        rewrite Hd in Hs0. rewrite Hs in Hs0. injection Hs0 as <-.
        rewrite Hd. by rewrite Hs. }
      rewrite Hother by done. rewrite <- Inv. unfold frequency. simpl.
      destruct (tracked (st, ht) k) as [p|] eqn:Hp'; [|done]. simpl. f_equal.
      apply (tracked_Some st ht k p W) in Hp' as [Hal _].
      apply (twf_alloc st ht W) in Hal.
      rewrite (freq_of_frame _ _ p Hf). by apply freq_of_alloc_old.
Qed.

Lemma frequency_frame st st' ht k :
  heap_frame st st' → frequency (st', ht) k = frequency (st, ht) k.
Proof.
  intros Hf. unfold frequency. simpl. rewrite (tracked_store st st').
  destruct (tracked (st, ht) k); [|done]. simpl. f_equal.
  by apply freq_of_frame.
Qed.

Lemma run_counts n all ops : ∀ pre σ,
  reachable σ → ht_withCache σ.2 = false → ht_topN σ.2 = n →
  Forall (λ o, is_cache_op o = false) ops →
  all = pre ++ requested ops →
  (∀ l, NoDup l → (∀ k, k ∈ l → k ∈ all) → len l ≤ n) →
  len all ≤ int_max →
  (∀ k, frequency σ k =
        if decide (k ∈ pre) then Some (occurrences k pre) else None) →
  ∃ σ', run σ ops = Ok σ' ∧ reachable σ' ∧ ht_withCache σ'.2 = false ∧
    ht_topN σ'.2 = n ∧
    ∀ k, frequency σ' k =
         if decide (k ∈ all) then Some (occurrences k all) else None.
Proof.
  induction ops as [|o ops IH]; intros pre σ Hr Hc Hn Hops Hall Hfit Hmax Inv.
  { exists σ. simpl in *. rewrite app_nil_r in Hall. by subst. }
  apply Forall_cons in Hops as [Ho Hops].
  pose proof (reachable_wf σ Hr) as W. destruct σ as [st ht]. simpl in *.
  destruct o; try done; simpl.
  - (* a request *)
    change (requested (OpRecordRequest key :: ops))
      with (key :: requested ops) in Hall.
    assert (all = (pre ++ [key]) ++ requested ops) as Hall'.
    { by rewrite <- app_assoc. }
    destruct (RecordRequest_counts st ht key pre W) as (st' & ht' & HR & Inv');
      [| |done|].
    { intros l Hnd Hl. rewrite Hn. apply Hfit; [done|].
      intros k Hk. rewrite Hall'. apply elem_of_app. left. by apply Hl. }
    { rewrite Hall', len_app in Hmax. pose proof (len_nonneg (requested ops)).
      lia. }
    destruct (RecordRequest_wf st ht key W) as (st'' & ht'' & HR' & _ & _ & Hc').
    rewrite HR in HR'. injection HR' as <- <-.
    assert (ht_topN ht' = ht_topN ht) as Hn'.
    { revert HR. unfold RecordRequest.
      intros (i & _ & Hrest)%bind_Ok.
      apply bind_Ok in Hrest as (s & _ & Hrest).
      apply bind_Ok in Hrest as (r & _ & [= _ <-]). done. }
    rewrite HR. simpl.
    apply (IH (pre ++ [key]) (st', ht')); try done.
    + by apply (reachable_step (st, ht) (OpRecordRequest key)).
    + simpl. congruence.
    + simpl. congruence.
  - (* GetHotspots *)
    destruct (reads_spec st ht W Hc)
      as (st1 & st2 & agg & ps & _ & HG & _ & _ & Hf2 & _).
    rewrite HG. simpl.
    apply (IH pre (st2, ht)); try done.
    + apply (reachable_step (st, ht) OpGetHotspots); [done|].
      unfold step. cbn [fst snd]. by rewrite HG.
    + intros k. rewrite (frequency_frame st st2) by done. apply Inv.
  - (* IsHotspot *)
    destruct (reads_spec st ht W Hc)
      as (st1 & st2 & agg & ps & _ & _ & HI & Hf1 & _).
    rewrite HI. simpl.
    apply (IH pre (st1, ht)); try done.
    + apply (reachable_step (st, ht) (OpIsHotspot key)); [done|].
      unfold step. cbn [fst snd]. by rewrite HI.
    + intros k. rewrite (frequency_frame st st1) by done. apply Inv.
Qed.

Lemma run_new_counts (topN numShards : Z) (ops : list op) :
  0 < topN → 0 < numShards →
  Forall (λ o, is_cache_op o = false) ops →
  len (remove_dups (requested ops)) ≤ topN →
  len (requested ops) ≤ int_max →
  ∃ σ,
    run_new topN numShards ops = Ok σ ∧
    reachable σ ∧ ht_withCache σ.2 = false ∧ ht_topN σ.2 = topN ∧
    ∀ k, frequency σ k =
         if decide (k ∈ requested ops)
         then Some (occurrences k (requested ops)) else None.
Proof.
  intros Hn Hs Hops Hfit Hmax. unfold run_new.
  destruct (NewHotspotTracker topN numShards) as [ht| | |] eqn:Hnew;
    try (unfold NewHotspotTracker in Hnew;
         destruct (Z.ltb_spec numShards 0); [lia|done]).
  simpl.
  pose proof (reachable_new _ _ _ Hn Hs Hnew) as Hr.
  apply (run_counts topN (requested ops) ops [] ([], ht)); try done.
  - unfold NewHotspotTracker in Hnew.
    destruct (numShards <? 0); [done|]. by injection Hnew as <-.
  - unfold NewHotspotTracker in Hnew.
    destruct (numShards <? 0); [done|]. by injection Hnew as <-.
  - intros l Hnd Hl.
    assert (l ⊆+ remove_dups (requested ops)) as Hsub.
    { apply NoDup_submseteq; [done|]. intros k Hk.
      apply elem_of_remove_dups. by apply Hl. }
    apply submseteq_length in Hsub. unfold len in *. lia.
  - intros k. rewrite decide_False by apply not_elem_of_nil.
    pose proof (reachable_wf _ Hr) as W.
    unfold frequency, tracked. simpl.
    destruct (shardIndex_wf [] ht k W) as (s & -> & _ & Hsh). rewrite Hsh.
    simpl. unfold NewHotspotTracker in Hnew.
    destruct (numShards <? 0); [done|]. injection Hnew as <-. simpl in Hsh.
    apply lookup_replicate in Hsh as [-> _]. done.
Qed.

(** X13. While the distinct keys requested are at most [topN], nothing is
    ever evicted or dropped and every count is exact.  After construction
    with positive arguments, any sequence of requests and reads (without
    the cache) returns, and in the state it leads to the keys tracked are
    exactly the keys requested, each with a frequency equal to the number
    of requests made for it, reads or no reads in between (for fewer than
    2^63 requests). *)
Theorem counts_exact_within_capacity (topN numShards : Z) (ops : list op) :
  0 < topN → 0 < numShards →
  Forall (λ o, is_cache_op o = false) ops →
  len (remove_dups (requested ops)) ≤ topN →
  len (requested ops) ≤ int_max →
  ∃ σ,
    run_new topN numShards ops = Ok σ ∧
    ∀ k, frequency σ k =
         if decide (k ∈ requested ops)
         then Some (occurrences k (requested ops)) else None.
Proof.
  intros Hn Hs Hops Hfit Hmax.
  destruct (run_new_counts topN numShards ops Hn Hs Hops Hfit Hmax)
    as (σ & Hrun & _ & _ & _ & Hfreq).
  by exists σ.
Qed.

Lemma counts_exact_within_capacity_witness :
  ∃ σ,
    run_new 3 2 [OpRecordRequest "a"; OpGetHotspots; OpRecordRequest "b";
                 OpRecordRequest "a"; OpIsHotspot "c"; OpRecordRequest "a"]
      = Ok σ ∧
    frequency σ "a" = Some 3 ∧ frequency σ "b" = Some 1 ∧
    frequency σ "c" = None.
Proof.
  destruct (counts_exact_within_capacity 3 2
              [OpRecordRequest "a"; OpGetHotspots; OpRecordRequest "b";
               OpRecordRequest "a"; OpIsHotspot "c"; OpRecordRequest "a"])
    as (σ & Hrun & Hfreq).
  - reflexivity.
  - reflexivity.
  - repeat constructor.
  - vm_compute. discriminate.
  - vm_compute. discriminate.
  - exists σ. split; [exact Hrun|]. split_and!.
    + rewrite (Hfreq "a"%string). reflexivity.
    + rewrite (Hfreq "b"%string). reflexivity.
    + rewrite (Hfreq "c"%string). reflexivity.
Defined.

Lemma top_of_all st n seen ps :
  NoDup ps → NoDup seen → top_of st n seen ps → len ps ≤ n → len seen ≤ n →
  ps ≡ₚ seen.
Proof.
  intros Hnd Hnd' (H1 & H2 & _) Hl Hfew.
  destruct (Z.lt_ge_cases (len ps) n) as [Hlt|Hge].
  - apply list.NoDup_Permutation; [done..|].
    intros p. split; [apply H1|by apply H2].
  - apply submseteq_length_Permutation; [by apply NoDup_submseteq|].
    unfold len in *. lia.
Qed.

Lemma StronglySorted_fmap_impl {A B} (R : A → A → Prop) (R' : B → B → Prop)
    (f : A → B) (l : list A) :
  (∀ x y, x ∈ l → y ∈ l → R x y → R' (f x) (f y)) →
  StronglySorted R l → StronglySorted R' (f <$> l).
Proof.
  intros HR Hs. induction Hs as [|x l Hs IH Hx]; simpl; constructor.
  - apply IH. intros y z Hy Hz. apply HR; by apply list_elem_of_further.
  - apply Forall_fmap, Forall_forall. intros y Hy. simpl.
    rewrite Forall_forall in Hx.
    apply HR; [apply list_elem_of_here|by apply list_elem_of_further|auto].
Qed.

(** X14. While the distinct keys requested are at most [topN], the reads
    are exact.  After construction with positive arguments and any sequence
    of requests and reads (without the cache), [GetHotspots] returns every
    key requested, each once, in ascending order of the number of requests
    made for it, and [IsHotspot] answers [true] exactly for the keys
    requested. *)
Theorem reads_exact_within_capacity (topN numShards : Z) (ops : list op) :
  0 < topN → 0 < numShards →
  Forall (λ o, is_cache_op o = false) ops →
  len (remove_dups (requested ops)) ≤ topN →
  len (requested ops) ≤ int_max →
  ∃ σ st' keys,
    run_new topN numShards ops = Ok σ ∧
    GetHotspots σ.1 σ.2 = Ok (st', σ.2, keys) ∧
    keys ≡ₚ remove_dups (requested ops) ∧
    StronglySorted (λ k k', occurrences k (requested ops)
                            ≤ occurrences k' (requested ops)) keys ∧
    ∀ key, ∃ st1,
      IsHotspot σ.1 σ.2 key
      = Ok (st1, σ.2, bool_decide (key ∈ requested ops)).
Proof.
  intros Hn Hs Hops Hfit Hmax.
  destruct (run_new_counts topN numShards ops Hn Hs Hops Hfit Hmax)
    as ([st ht] & Hrun & Hr & Hc & HtopN & Hfreq).
  pose proof (reachable_wf _ Hr) as W. simpl in *.
  destruct (reads_top st ht W Hc)
    as (st2 & ps & HG & Hnd & Hl & Hsort & HI & Htop).
  pose proof (twf_NoDup st ht W) as Hnd'.
  assert (∀ p, p ∈ all_ptrs (ht_shards ht) →
               key_of st p ∈ requested ops ∧
               freq_of st p = occurrences (key_of st p) (requested ops)) as Hptr.
  { intros p Hp. pose proof (Hfreq (key_of st p)) as Hk.
    unfold frequency in Hk. rewrite (tracked_of_ptr st ht p W Hp) in Hk.
    simpl in Hk. case_decide; [|done]. by injection Hk as ->. }
  assert (len (all_ptrs (ht_shards ht)) ≤ topN) as Hfew.
  { assert (key_of st <$> all_ptrs (ht_shards ht) ⊆+ remove_dups (requested ops))
      as Hsub.
    { apply NoDup_submseteq.
      - apply NoDup_fmap_2_strong; [|done]. apply (twf_key_inj st ht W).
      - intros k (p & -> & Hp)%list_elem_of_fmap.
        apply elem_of_remove_dups. by apply Hptr. }
    apply submseteq_length in Hsub. rewrite length_fmap in Hsub.
    unfold len in *. lia. }
  assert (ps ≡ₚ all_ptrs (ht_shards ht)) as Hall.
  { apply (top_of_all st (ht_topN ht)); try done; lia. }
  assert (∀ k, k ∈ key_of st <$> ps ↔ k ∈ requested ops) as Hmem.
  { intros k. rewrite list_elem_of_fmap. split.
    - intros (p & -> & Hp). apply Hptr. by rewrite <- Hall.
    - intros Hk. pose proof (Hfreq k) as Hf. rewrite decide_True in Hf by done.
      unfold frequency in Hf.
      destruct (tracked (st, ht) k) as [p|] eqn:Hp; [|done].
      apply (tracked_Some st ht k p W) in Hp as [Hp <-].
      exists p. split; [done|]. by rewrite Hall. }
  exists (st, ht), st2, (key_of st <$> ps). split_and!; [done..| | |].
  - apply list.NoDup_Permutation.
    + apply NoDup_fmap_2_strong; [|done]. intros p q Hp Hq.
      apply (twf_key_inj st ht W); by rewrite <- Hall.
    + apply NoDup_remove_dups.
    + intros k. rewrite elem_of_remove_dups. apply Hmem.
  - apply (StronglySorted_fmap_impl (λ p q, freq_of st p ≤ freq_of st q));
      [|done].
    intros p q Hp Hq. rewrite Hall in Hp, Hq.
    destruct (Hptr p Hp) as [_ ->]. by destruct (Hptr q Hq) as [_ ->].
  - intros key. destruct (HI key) as [st1 HI1]. exists st1. simpl.
    rewrite HI1. do 2 f_equal. apply bool_decide_ext, Hmem.
Qed.

Lemma reads_exact_within_capacity_witness :
  ∃ σ st' keys,
    run_new 3 2 [OpRecordRequest "a"; OpGetHotspots; OpRecordRequest "b";
                 OpRecordRequest "a"; OpIsHotspot "c"; OpRecordRequest "a"]
      = Ok σ ∧
    GetHotspots σ.1 σ.2 = Ok (st', σ.2, keys) ∧
    keys ≡ₚ ["b"; "a"]%string.
Proof.
  destruct (reads_exact_within_capacity 3 2
              [OpRecordRequest "a"; OpGetHotspots; OpRecordRequest "b";
               OpRecordRequest "a"; OpIsHotspot "c"; OpRecordRequest "a"])
    as (σ & st' & keys & Hrun & HG & Hp & _).
  - reflexivity.
  - reflexivity.
  - repeat constructor.
  - vm_compute. discriminate.
  - vm_compute. discriminate.
  - exists σ, st', keys. split; [exact Hrun|]. split; [exact HG|]. exact Hp.
Defined.

(** ** Edge cases of the tracker *)

Lemma aggregate_loop_fresh st t n m :
  aggregate_loop st t (replicate n (NewShard m))
  = Ok (st, t, replicate n (NewShard m)).
Proof. induction n as [|n IH]; simpl; [done|]. by rewrite IH. Qed.

(** X15. The reads on a tracker on which nothing has been requested,
    whatever the arguments it was constructed with ([topN] zero or negative
    included): [GetHotspots] returns the empty sequence, [IsHotspot]
    answers [false] for every key, and neither changes the store or the
    tracker. *)
Theorem fresh_tracker_reads (topN numShards : Z) (ht : HotspotTracker)
    (st : store) (key : string) :
  NewHotspotTracker topN numShards = Ok ht →
  GetHotspots st ht = Ok (st, ht, []) ∧
  IsHotspot st ht key = Ok (st, ht, false).
Proof.
  unfold NewHotspotTracker. destruct (_ <? _); [done|]. intros [= <-].
  unfold GetHotspots, IsHotspot, AggregateData, aggregateShards. simpl.
  by rewrite aggregate_loop_fresh.
Qed.

Lemma fresh_tracker_reads_witness :
  ∃ ht,
    NewHotspotTracker 0 2 = Ok ht ∧
    GetHotspots [] ht = Ok ([], ht, []) ∧
    IsHotspot [] ht "a" = Ok ([], ht, false).
Proof.
  eexists. split; [reflexivity|].
  apply (fresh_tracker_reads 0 2). reflexivity.
Defined.

Lemma len_concat_bound {A} (ls : list (list A)) n :
  (∀ l, l ∈ ls → len l ≤ n) → len (concat ls) ≤ n * len ls.
Proof.
  induction ls as [|l ls IH]; intros Hl; simpl.
  { unfold len. simpl. lia. }
  rewrite len_app, len_cons.
  pose proof (Hl l (list_elem_of_here _ _)).
  assert (len (concat ls) ≤ n * len ls).
  { apply IH. intros l' Hl'. apply Hl. by apply list_elem_of_further. }
  lia.
Qed.

(** X16. In every reachable state the shards together hold at most
    [topN * numShards] records. *)
Theorem tracked_records_bounded (σ : state) :
  reachable σ →
  len (all_ptrs (ht_shards σ.2)) ≤ ht_topN σ.2 * ht_numShards σ.2.
Proof.
  intros Hr. pose proof (reachable_wf σ Hr) as W.
  rewrite (twf_len _ W). unfold all_ptrs.
  replace (len (ht_shards σ.2)) with (len (minHeap <$> ht_shards σ.2))
    by (unfold len; by rewrite length_fmap).
  apply len_concat_bound.
  intros l (s & -> & (i & Hi)%list_elem_of_lookup)%list_elem_of_fmap.
  destruct (twf_shard _ W i s Hi) as (Ws & <- & _). apply Ws.
Qed.

Lemma tracked_records_bounded_witness :
  len (all_ptrs (ht_shards scenario1_tracker)) ≤ 3 * 1.
Proof.
  exact (tracked_records_bounded (scenario1_store, scenario1_tracker)
           scenario1_reachable).
Defined.

(** X17. Requests do not depend on the cache: a request on a tracker on
    which [WithCache] has been called, or on which the ticker has fired,
    does what it does without, and leaves the cache fields as they are. *)
Theorem RecordRequest_ignores_cache (st : store) (ht : HotspotTracker)
    (key : string) :
  RecordRequest st (WithCache ht) key
    = (r <- RecordRequest st ht key ;; Ok (r.1, WithCache r.2)) ∧
  RecordRequest st (tick ht) key
    = (r <- RecordRequest st ht key ;; Ok (r.1, tick r.2)).
Proof.
  unfold RecordRequest, shardIndex. simpl.
  destruct (ht_numShards ht =? 0); [done|]. simpl.
  destruct (index (ht_shards ht) _); [|done..]. simpl.
  by destruct (shard_RecordRequest st _ key).
Qed.

(** X18. A key that is not tracked and is routed to a full shard whose
    root has a frequency above 1 is never admitted, however often it is
    requested: each request allocates a candidate of frequency 1, finds it
    below the root and drops it.  Any sequence of requests for such keys
    returns and leaves the tracker and every record of the store as they
    were, so the keys are still shut out afterwards. *)
Theorem full_shard_rejects_new_keys (σ : state) (keys : list string) :
  reachable σ → Forall (shut_out σ) keys →
  ∃ st',
    run σ (OpRecordRequest <$> keys) = Ok (st', σ.2) ∧
    (∀ p, (p < length σ.1)%nat → load st' p = load σ.1 p) ∧
    Forall (shut_out (st', σ.2)) keys.
Proof.
  destruct σ as [st ht]. simpl. revert st.
  induction keys as [|key keys IH]; intros st Hr Hall.
  { exists st. by split_and!. }
  pose proof (reachable_wf _ Hr) as W.
  apply Forall_cons in Hall as [(i & s & root & Hsi & Hs & Hnone & Hfull & Hroot & Hgt) Hall].
  simpl in *.
  destruct (shardIndex_wf st ht key W) as (s0 & Hsi' & Hidx & Hs0).
  rewrite Hsi in Hsi'. injection Hsi' as ->. rewrite Hs in Hs0.
  injection Hs0 as <-.
  destruct (twf_shard _ W _ s Hs) as (Ws & _). simpl in Ws.
  assert (root ∈ minHeap s) as Hin by (by eapply list_elem_of_lookup_2).
  pose proof (wf_alloc _ _ Ws root Hin) as Hal.
  set (st0 := st ++ [mkKeyFreq key 1 0]).
  assert (RecordRequest st ht key = Ok (st0, ht)) as HR.
  { unfold RecordRequest. rewrite Hsi. simpl. rewrite Hidx. simpl.
    rewrite RecordRequest_miss_unfold by (done || apply Ws).
    rewrite processKeyFreq_drop.
    - simpl. rewrite list_insert_id.
      + by rewrite set_shards_id.
      + rewrite Hs. f_equal. destruct s. simpl.
        pose proof (wf_mu _ _ Ws) as Hmu. simpl in Hmu. by subst.
    - done.
    - simpl. apply lookup_lt_Some in Hroot. unfold len. lia.
    - simpl. rewrite (list_lookup_total_correct _ _ _ Hroot).
      fold st0. unfold st0 at 1. rewrite freq_of_alloc.
      unfold st0. by rewrite freq_of_alloc_old. }
  assert (∀ p, (p < length st)%nat → load st0 p = load st p) as Hold.
  { intros p Hp. by apply load_app_l. }
  destruct (IH st0) as (st' & Hrun & Hsame & Hshut).
  { by apply (reachable_step (st, ht) (OpRecordRequest key)). }
  { eapply Forall_impl; [exact Hall|]. simpl.
    intros k (i' & s' & root' & H1 & H2 & H3 & H4 & H5 & H6). simpl in *.
    exists i', s', root'. split_and!; try done. simpl.
    destruct (shardIndex_wf st ht k W) as (s1 & Hsi1 & _ & Hs1).
    rewrite H1 in Hsi1. injection Hsi1 as ->.
    rewrite H2 in Hs1. injection Hs1 as <-.
    destruct (twf_shard _ W _ s' H2) as (Ws' & _). simpl in Ws'.
    unfold st0. rewrite freq_of_alloc_old; [done|]. apply (wf_alloc _ _ Ws').
    by eapply list_elem_of_lookup_2. }
  exists st'. simpl. rewrite HR. simpl. split_and!; [done| |].
  - intros p Hp. rewrite Hsame.
    + by apply Hold.
    + unfold st0. rewrite length_app. simpl. lia.
  - constructor; [|done].
    exists (Z.rem (fnv32a key) (ht_numShards ht)), s, root.
    split_and!; try done. simpl.
    unfold freq_of. rewrite Hsame.
    + rewrite Hold by done. done.
    + unfold st0. rewrite length_app. simpl. lia.
Qed.

Lemma full_shard_rejects_new_keys_witness :
  ∃ st',
    run (scenario1_store, scenario1_tracker)
      (OpRecordRequest <$> ["e"; "f"; "e"]%string)
    = Ok (st', scenario1_tracker).
Proof.
  destruct (full_shard_rejects_new_keys (scenario1_store, scenario1_tracker)
              ["e"; "f"; "e"]%string scenario1_reachable)
    as (st' & Hrun & _).
  - repeat constructor;
      exists 0, scenario1_shard, 1%nat; split_and!;
      (reflexivity || (vm_compute; discriminate)).
  - exists st'. exact Hrun.
Defined.

(** ** Repeated reads *)

(** X19. Reads are repeatable.  In every reachable state of a tracker
    without the cache, after a [GetHotspots] or an [IsHotspot] has returned,
    a further [GetHotspots] returns the same sequence and a further
    [IsHotspot] gives the same answer as in the state before: what the
    reads write into [Index] has no effect on what reads return. *)
Theorem reads_repeatable (σ : state) (key : string) :
  reachable σ → ht_withCache σ.2 = false →
  ∃ st1 st2 keys b,
    GetHotspots σ.1 σ.2 = Ok (st1, σ.2, keys) ∧
    IsHotspot σ.1 σ.2 key = Ok (st2, σ.2, b) ∧
    ∀ st, st = st1 ∨ st = st2 →
      ∃ st3 st4,
        GetHotspots st σ.2 = Ok (st3, σ.2, keys) ∧
        IsHotspot st σ.2 key = Ok (st4, σ.2, b).
Proof.
  intros Hr Hc. destruct σ as [st ht]. simpl in *.
  destruct (reads_spec st ht (reachable_wf _ Hr) Hc)
    as (st1 & st2 & agg & ps & _ & HG & HI & Hf1 & Hf2 & _).
  exists st2, st1, (key_of st <$> ps),
    (bool_decide (is_Some (keyFreqs agg !! key))).
  split; [done|]. split; [done|].
  intros st' Hst'.
  assert (same_data st st') as Hd.
  { destruct Hst' as [-> | ->]; by apply heap_frame_same_data. }
  destruct (result_rel_Ok _ _ _ _ (GetHotspots_sim st st' ht Hd) HG)
    as ([[st3 ht3] keys] & HG' & _ & Hht & Hk).
  destruct (result_rel_Ok _ _ _ _ (IsHotspot_sim st st' ht key Hd) (HI key))
    as ([[st4 ht4] b] & HI' & _ & Hht' & Hb).
  simpl in *. subst. eauto.
Qed.

Lemma reads_repeatable_witness :
  ∃ st1 st2 keys b,
    GetHotspots scenario1_store scenario1_tracker
      = Ok (st1, scenario1_tracker, keys) ∧
    IsHotspot scenario1_store scenario1_tracker "a"
      = Ok (st2, scenario1_tracker, b) ∧
    ∃ st3 st4,
      GetHotspots st1 scenario1_tracker = Ok (st3, scenario1_tracker, keys) ∧
      IsHotspot st1 scenario1_tracker "a" = Ok (st4, scenario1_tracker, b).
Proof.
  destruct (reads_repeatable (scenario1_store, scenario1_tracker) "a"
              scenario1_reachable eq_refl)
    as (st1 & st2 & keys & b & HG & HI & Hrep).
  exists st1, st2, keys, b. split; [exact HG|]. split; [exact HI|].
  apply Hrep. left. reflexivity.
Defined.

(** ** What a read of the tracker leaves in [Index] *)

Lemma shard_GetHotspots_Index st s st' keys :
  NoDup (minHeap s) → (∀ p, p ∈ minHeap s → (p < length st)%nat) →
  shard_GetHotspots st s = Ok (st', keys) →
  ∀ p, p ∈ minHeap s → Index (load st' p) = -1.
Proof.
  intros Hnd Hal. unfold shard_GetHotspots. simpl.
  intros ([st1 h1] & HI & Hloop)%bind_Ok.
  destruct (Init_outside _ _ _ _ HI) as [Hp1 Ho1].
  destruct (Init_heap st (minHeap s)) as (st1' & h1' & HI' & Hf1 & _).
  rewrite HI in HI'. injection HI' as <- <-.
  assert (NoDup h1) as Hnd1 by (by rewrite Hp1).
  assert (∀ p, p ∈ h1 → (p < length st1)%nat) as Hal1.
  { intros p Hp'. destruct Hf1 as [-> _]. apply Hal. by rewrite <- Hp1. }
  destruct (GetHotspots_loop_Index _ _ _ _ _ _ _ Hnd1 Hal1 eq_refl Hloop)
    as [HI2 _].
  intros p Hp. apply HI2. by rewrite Hp1.
Qed.

Lemma reads_all st ht :
  tracker_wf (st, ht) → ht_withCache ht = false →
  ∃ st1 st2 agg ps,
    AggregateData st ht = Ok (st1, ht, agg) ∧
    GetHotspots st ht = Ok (st2, ht, key_of st <$> ps) ∧
    heap_frame st st1 ∧ heap_frame st st2 ∧ shard_wf st1 agg ∧
    ps ≡ₚ minHeap agg ∧ NoDup ps ∧ len ps ≤ ht_topN ht ∧
    top_of st (ht_topN ht) (all_ptrs (ht_shards ht)) ps.
Proof.
  intros W Hc.
  destruct (reads_spec st ht W Hc)
    as (st1 & st2 & agg & ps & HA & HG & HI & Hf1 & Hf2 & Wa & Hn & Hp & _).
  destruct (aggregateShards_top st ht W) as (st1' & agg' & HS & Htop).
  assert (agg' = agg) as ->.
  { revert HA. unfold AggregateData.
    pose proof (twf_mu _ W) as Hmu. simpl in Hmu. rewrite Hmu. simpl.
    rewrite Hc. rewrite aggregateShards_set_ht_mu, HS. simpl.
    by intros [= _ _ ->]. }
  exists st1, st2, agg, ps. split_and!; try done.
  - rewrite Hp. apply Wa.
  - rewrite (len_perm _ _ Hp), <- Hn. apply (wf_size _ _ Wa).
  - by apply (top_of_perm _ _ _ (minHeap agg)).
Qed.

(** X20. In every reachable state of a tracker without the cache in which
    the shards hold at most [topN] records, [GetHotspots] leaves -1 in the
    [Index] of every record held by a shard, and its key and frequency as
    they were: each record is pushed onto the aggregate heap and popped
    from the copy of it.  (By X6 the next request for any of these keys
    increments its frequency without reordering the heap of its shard.) *)
Theorem GetHotspots_resets_Index (σ : state) :
  reachable σ → ht_withCache σ.2 = false →
  len (all_ptrs (ht_shards σ.2)) ≤ ht_topN σ.2 →
  ∃ st' keys,
    GetHotspots σ.1 σ.2 = Ok (st', σ.2, keys) ∧
    ∀ i s p, ht_shards σ.2 !! i = Some s → p ∈ minHeap s →
             load st' p = with_Index (-1) (load σ.1 p).
Proof.
  intros Hr Hc Hfew. pose proof (reachable_wf σ Hr) as W.
  destruct σ as [st ht]. simpl in *.
  destruct (reads_all st ht W Hc)
    as (st1 & st2 & agg & ps & HA & HG & Hf1 & Hf2 & Wa & Hp & Hnd & Hl & Htop).
  exists st2, (key_of st <$> ps). split; [done|].
  assert (ps ≡ₚ all_ptrs (ht_shards ht)) as Hall.
  { apply (top_of_all st (ht_topN ht)); try done.
    apply (twf_NoDup st ht W). }
  intros i s p Hi Hps.
  assert (p ∈ minHeap agg) as Hpa.
  { rewrite <- Hp, Hall. apply elem_of_all_ptrs. eauto. }
  assert (Index (load st2 p) = -1) as Hidx.
  { revert HG. unfold GetHotspots. rewrite HA. simpl.
    intros ([st3 keys3] & HS & [= <- _])%bind_Ok.
    by apply (shard_GetHotspots_Index st1 agg st3 keys3); [apply Wa|apply Wa|..]. }
  destruct Hf2 as [_ Hf2]. destruct (Hf2 p) as (Hk & Hfr & _).
  destruct (load st2 p), (load st p). simpl in *. by subst.
Qed.

Lemma GetHotspots_resets_Index_witness :
  ∃ st' keys,
    GetHotspots scenario1_store scenario1_tracker
      = Ok (st', scenario1_tracker, keys) ∧
    Index (load st' 0%nat) = -1 ∧ Index (load st' 1%nat) = -1 ∧
    Index (load st' 3%nat) = -1.
Proof.
  destruct (GetHotspots_resets_Index (scenario1_store, scenario1_tracker)
              scenario1_reachable eq_refl)
    as (st' & keys & HG & Hidx).
  - vm_compute. discriminate.
  - exists st', keys. split; [exact HG|]. split_and!.
    + rewrite (Hidx 0%nat scenario1_shard 0%nat eq_refl); [done|compute_done].
    + rewrite (Hidx 0%nat scenario1_shard 1%nat eq_refl); [done|compute_done].
    + rewrite (Hidx 0%nat scenario1_shard 3%nat eq_refl); [done|compute_done].
Defined.
